(** * squid substrate-processor: batch scheduler and per-block dispatch

    A shallow embedding of
      - the batch scheduler ([createBatches], [mergeBatches],
        [mergeDataHandlers], [mergeMaps]) and its block counter
        ([getBlocksCount]), and
      - the processor front end and dispatch engine of
        [processor/handlerProcessor.ts] ([SubstrateProcessor] with its
        setters, registration methods, request construction and getters;
        [HandlerRunner]).

    Conventions.
      - Block heights are JavaScript numbers holding integers: [Z].
      - A [Record<string, T>] used as a dictionary is a [gmap string T];
        keys are event, call and address strings, never names of
        [Object.prototype] members.
      - User callbacks are opaque to the scheduler, which only moves them
        around: a callback is represented by its identity ([Handler]).
      - An optional field [x?: T] is an [option T].

    Layout: the definitions come first (common data, [Scheduler],
    [Processor]), the theorems after them ([SchedulerTheory],
    [ProcessorTheory]). *)

From Stdlib Require Import ZArith Lia Ascii String.
From stdpp Require Import gmap strings list fin_maps sorting.

Open Scope Z_scope.

(** ** Range arithmetic ([util/range]) *)

(** [interface Range { from: number; to?: number }], an inclusive span of
    block heights; a missing [to] means no upper end. *)
Record Range := mkRange { from : Z; to : option Z }.

(** The data model's invariant: [from <= to] when both are present. *)
Definition range_wf (r : Range) : Prop :=
  match to r with Some e => from r <= e | None => True end.

(** Membership of a height in a range. *)
Definition contains (r : Range) (h : Z) : bool :=
  (from r <=? h) && match to r with Some e => h <=? e | None => true end.

(** The smaller of two upper ends, [None] standing for +infinity. *)
Definition min_end (a b : option Z) : option Z :=
  match a, b with
  | None, x => x
  | x, None => x
  | Some x, Some y => Some (Z.min x y)
  end.

(** Modelled from the spec: [rangeIntersection] of [util/range], whose
    source is not part of the sources at hand.  The spec: [from] is the
    larger of the two [from], [to] the smaller of the two [to] (an absent
    [to] counting as +infinity), and the result is none when the computed
    [from] exceeds the computed [to]. *)
Definition rangeIntersection (a b : Range) : option Range :=
  let beg := Z.max (from a) (from b) in
  match min_end (to a) (to b) with
  | Some e => if e <? beg then None else Some (mkRange beg (Some e))
  | None => Some (mkRange beg None)
  end.

(** Modelled from the spec: [rangeDifference] of [util/range].  The spec:
    the zero, one or two sub-ranges of [a] not covered by [b]: a left
    remainder below the overlap and a right remainder above it, each
    possibly absent; all of [a] when the two are disjoint. *)
Definition rangeDifference (a b : Range) : list Range :=
  match rangeIntersection a b with
  | None => [a]
  | Some i =>
      (if from a <? from i then [mkRange (from a) (Some (from i - 1))] else [])
      ++ match to i with
         | None => []
         | Some e =>
             match to a with
             | None => [mkRange (e + 1) None]
             | Some ea => if e <? ea then [mkRange (e + 1) (Some ea)] else []
             end
         end
  end.

(** ** Priority queue ([util/heap]) *)

(** Modelled from the spec: the [Heap] class of [util/heap], whose source
    is not part of the sources at hand.  The spec describes a generic
    min-heap ordered by a comparator supplied by the caller, with a bulk
    [init], [push], [pop] of a smallest element and [peek] without removal.
    [HeapOps] is that interface: the state of a heap object and its four
    methods, [pop] returning the removed element with the heap that is
    left; [heap_items] lists what a heap holds. *)
Class HeapOps (A : Type) := {
  heap : Type;
  heap_init : (A → A → Z) → list A → heap;
  heap_push : (A → A → Z) → A → heap → heap;
  heap_pop : (A → A → Z) → heap → option (A * heap);
  heap_peek : (A → A → Z) → heap → option A;
  heap_items : heap → list A
}.
Arguments heap A {_}.

(** Modelled from the spec: what the spec says of those methods.  It fixes
    no order among elements that compare equal, so the laws do not either:
    [init] and [push] store what they are given, [pop] removes one smallest
    element, and [peek] shows the element [pop] would remove. *)
Class HeapLaws {A : Type} (cmp : A → A → Z) (H : HeapOps A) : Prop := {
  heap_items_init l : heap_items (heap_init cmp l) ≡ₚ l;
  heap_items_push x h : heap_items (heap_push cmp x h) ≡ₚ x :: heap_items h;
  heap_pop_None h : heap_pop cmp h = None → heap_items h = [];
  heap_pop_Some h x h' :
    heap_pop cmp h = Some (x, h') →
    heap_items h ≡ₚ x :: heap_items h' ∧
    Forall (λ y, cmp x y <= 0) (heap_items h');
  heap_peek_pop h : heap_peek cmp h = fst <$> heap_pop cmp h
}.

(** A comparator in the sense of [Array.prototype.sort]: negative, zero or
    positive, consistently. *)
Class Comparator {A : Type} (cmp : A → A → Z) : Prop := {
  cmp_flip x y : 0 <= cmp x y → cmp y x <= 0;
  cmp_trans x y z : cmp x y <= 0 → cmp y z <= 0 → cmp x z <= 0
}.

(** One implementation of the interface, used to run the scheduler: the
    elements are kept in arrival order and [pop] takes out the first of the
    smallest ones.  [extractMin cmp x l] is that element of [x :: l] and
    the remaining elements. *)
Fixpoint extractMin {A : Type} (cmp : A → A → Z) (x : A) (l : list A)
    : A * list A :=
  match l with
  | [] => (x, [])
  | y :: l' =>
      let '(m, rest) := extractMin cmp y l' in
      if cmp m x <? 0 then (m, x :: rest) else (x, y :: l')
  end.

Definition ListHeap (A : Type) : HeapOps A :=
  {| heap := list A;
     heap_init := λ _ l, l;
     heap_push := λ _ x h, h ++ [x];
     heap_pop := λ cmp h,
       match h with [] => None | x :: l => Some (extractMin cmp x l) end;
     heap_peek := λ cmp h,
       match h with [] => None | x :: l => Some (extractMin cmp x l).1 end;
     heap_items := λ h, h |}.

(** ** Outcome of a computation that may throw or loop *)

(** [Done v]: the code returns [v]; [Thrown]: it throws; [OutOfFuel]: the
    loop was cut off by the embedding's step budget, which the source does
    not have. *)
Inductive Outcome (A : Type) : Type :=
  | Done (v : A)
  | Thrown
  | OutOfFuel.
Arguments Done {A} v.
Arguments Thrown {A}.
Arguments OutOfFuel {A}.

(** Identity of a user callback. *)
Definition Handler : Type := nat.

(** [type EvmTopicSet = string | string[] | null | undefined]
    ([interfaces/evm]), as [evmHandlerMatches] takes it apart. *)
Inductive EvmTopicSet : Type :=
  | TopicAny
  | TopicOne (topic : string)
  | TopicOneOf (topics : list string).

(** * The batch scheduler: definitions *)

Module Scheduler.

(** An entry of [DataHandlers.evmLogs]: [{filter?, handler}]. *)
Record EvmLogEntry := mkEvmLogEntry {
  filter : option (list EvmTopicSet);
  handler : Handler
}.

(** [interface DataHandlers]. *)
Record DataHandlers := mkDataHandlers {
  pre : list Handler;
  post : list Handler;
  events : gmap string (list Handler);
  extrinsics : gmap string (gmap string (list Handler));
  evmLogs : gmap string (list EvmLogEntry)
}.

(** [interface Batch]. *)
Record Batch := mkBatch {
  range : Range;
  handlers : DataHandlers
}.

(** The registrations of [interfaces/hooks], with the fields
    [createBatches] reads. *)
Record BlockHook := mkBlockHook {
  block_handler : Handler;
  block_range : option Range
}.
Record EventHook := mkEventHook {
  event_event : string;
  event_handler : Handler;
  event_range : option Range
}.
Record ExtrinsicHook := mkExtrinsicHook {
  extrinsic_event : string;
  extrinsic_extrinsic : string;
  extrinsic_handler : Handler;
  extrinsic_range : option Range
}.
Record EvmLogHook := mkEvmLogHook {
  evmLog_contractAddress : string;
  evmLog_filter : option (list EvmTopicSet);
  evmLog_handler : Handler;
  evmLog_range : option Range
}.
Record Hooks := mkHooks {
  hooks_pre : list BlockHook;
  hooks_post : list BlockHook;
  hooks_event : list EventHook;
  hooks_extrinsic : list ExtrinsicHook;
  hooks_evmLog : list EvmLogHook
}.

(** [mergeMaps]: the first loop walks [a], the second walks [b] and fills
    in the keys [result] does not have yet. *)
Definition mergeMaps {T : Type} (a b : gmap string T)
    (mergeItems : T → T → T) : gmap string T :=
  let result :=
    map_fold (λ key va (result : gmap string T),
                match b !! key with
                | None => <[key := va]> result
                | Some vb => <[key := mergeItems va vb]> result
                end) ∅ a in
  map_fold (λ key vb (result : gmap string T),
              match result !! key with
              | None => <[key := vb]> result
              | Some _ => result
              end) result b.

(** [mergeDataHandlers]; [concat] is list append. *)
Definition mergeDataHandlers (a b : DataHandlers) : DataHandlers :=
  {| pre := pre a ++ pre b;
     post := post a ++ post b;
     events := mergeMaps (events a) (events b) (λ ha hb, ha ++ hb);
     extrinsics :=
       mergeMaps (extrinsics a) (extrinsics b)
         (λ ea eb, mergeMaps ea eb (λ ha hb, ha ++ hb));
     evmLogs := mergeMaps (evmLogs a) (evmLogs b) (λ ha hb, ha ++ hb) |}.

(** The comparator [mergeBatches] gives its heap:
    [(a, b) => a.range.from - b.range.from]. *)
Definition byFrom (a b : Batch) : Z := from (range a) - from (range b).

Section merge.
Context `{!HeapOps Batch}.

(** [rangeDifference(r, i).forEach(range => heap.push({range, handlers}))] *)
Definition pushPieces (r i : Range) (hs : DataHandlers)
    (hp : heap Batch) : heap Batch :=
  foldl (λ hp piece, heap_push byFrom (mkBatch piece hs) hp) hp
        (rangeDifference r i).

(** The [while] loop of [mergeBatches], one iteration per unit of [fuel];
    [union], [top] and [hp] are the loop's three variables. *)
Fixpoint mergeLoop (fuel : nat) (union : list Batch) (top : Batch)
    (hp : heap Batch) : Outcome (list Batch) :=
  match fuel with
  | O => OutOfFuel
  | S fuel =>
      match heap_peek byFrom hp with
      | None => Done (union ++ [top])
      | Some batch =>
          match rangeIntersection (range top) (range batch) with
          | None =>
              match heap_pop byFrom hp with
              | Some (top', hp') => mergeLoop fuel (union ++ [top]) top' hp'
              | None => Thrown
              end
          | Some i =>
              let hp1 := match heap_pop byFrom hp with
                         | Some (_, hp') => hp'
                         | None => hp
                         end in
              let hp2 := pushPieces (range top) i (handlers top) hp1 in
              let hp3 := pushPieces (range batch) i (handlers batch) hp2 in
              let hp4 :=
                heap_push byFrom
                  (mkBatch i (mergeDataHandlers (handlers top) (handlers batch)))
                  hp3 in
              match heap_pop byFrom hp4 with
              | Some (top', hp') => mergeLoop fuel union top' hp'
              | None => Thrown
              end
          end
      end
  end.

(** [mergeBatches]. *)
Definition mergeBatches (fuel : nat) (batches : list Batch)
    : Outcome (list Batch) :=
  if (length batches <=? 1)%nat then Done batches
  else
    match heap_pop byFrom (heap_init byFrom batches) with
    | Some (top, hp) => mergeLoop fuel [] top hp
    | None => Thrown
    end.

(** [getRange] inside [createBatches]: [hook.range || {from: 0}], clipped
    to [blockRange] when there is one. *)
Definition getRange (blockRange : option Range) (hookRange : option Range)
    : option Range :=
  let range := default (mkRange 0 None) hookRange in
  match blockRange with
  | Some br => rangeIntersection range br
  | None => Some range
  end.

(** The batch one registration contributes: none when [getRange] is
    undefined. *)
Definition batchOf (blockRange hookRange : option Range)
    (hs : DataHandlers) : list Batch :=
  match getRange blockRange hookRange with
  | None => []
  | Some range => [mkBatch range hs]
  end.

Definition preBatch (blockRange : option Range) (hook : BlockHook) :=
  batchOf blockRange (block_range hook)
    {| pre := [block_handler hook]; post := []; events := ∅;
       extrinsics := ∅; evmLogs := ∅ |}.

Definition postBatch (blockRange : option Range) (hook : BlockHook) :=
  batchOf blockRange (block_range hook)
    {| pre := []; post := [block_handler hook]; events := ∅;
       extrinsics := ∅; evmLogs := ∅ |}.

Definition eventBatch (blockRange : option Range) (hook : EventHook) :=
  batchOf blockRange (event_range hook)
    {| pre := []; post := [];
       events := {[ event_event hook := [event_handler hook] ]};
       extrinsics := ∅; evmLogs := ∅ |}.

Definition extrinsicBatch (blockRange : option Range)
    (hook : ExtrinsicHook) :=
  batchOf blockRange (extrinsic_range hook)
    {| pre := []; post := []; events := ∅;
       extrinsics :=
         {[ extrinsic_event hook :=
              {[ extrinsic_extrinsic hook := [extrinsic_handler hook] ]} ]};
       evmLogs := ∅ |}.

Definition evmLogBatch (blockRange : option Range) (hook : EvmLogHook) :=
  batchOf blockRange (evmLog_range hook)
    {| pre := []; post := []; events := ∅; extrinsics := ∅;
       evmLogs :=
         {[ evmLog_contractAddress hook :=
              [mkEvmLogEntry (evmLog_filter hook) (evmLog_handler hook)] ]} |}.

(** The list [batches] of [createBatches] just before it is merged: one
    batch per surviving registration, kind by kind, each kind in the
    order the hooks were registered. *)
Definition registeredBatches (hooks : Hooks) (blockRange : option Range)
    : list Batch :=
  (hooks_pre hooks ≫= preBatch blockRange)
  ++ (hooks_post hooks ≫= postBatch blockRange)
  ++ (hooks_event hooks ≫= eventBatch blockRange)
  ++ (hooks_extrinsic hooks ≫= extrinsicBatch blockRange)
  ++ (hooks_evmLog hooks ≫= evmLogBatch blockRange).

(** [createBatches]. *)
Definition createBatches (fuel : nat) (hooks : Hooks)
    (blockRange : option Range) : Outcome (list Batch) :=
  mergeBatches fuel (registeredBatches hooks blockRange).

End merge.

(** [getBlocksCount]: the [for] loop from some index on, [batches] being
    the elements not yet visited and [count] the loop's variable.
    [Math.min(chainHeight, range.to ?? Infinity)] is [chainHeight] when
    the range has no upper end. *)
Fixpoint countBlocks (batches : list Batch) (chainHeight count : Z) : Z :=
  match batches with
  | [] => count
  | b :: rest =>
      if chainHeight <? from (range b) then count
      else
        let to := match to (range b) with
                  | Some e => Z.min chainHeight e
                  | None => chainHeight
                  end in
        countBlocks rest chainHeight (count + (to - from (range b) + 1))
  end.

(** [getBlocksCount]. *)
Definition getBlocksCount (batches : list Batch) (chainHeight : Z) : Z :=
  countBlocks batches chainHeight 0.

(** *** Vocabulary of the scheduler's properties *)

(** A place a handler can be registered at: an unkeyed slot, or a keyed
    slot with its key (two keys for [extrinsics]). *)
Inductive Slot : Type :=
  | SlotPre
  | SlotPost
  | SlotEvent (name : string)
  | SlotExtrinsic (event extrinsic : string)
  | SlotEvmLog (address : string).

(** What a slot holds: a callback, or an EVM log entry with its filter. *)
Inductive Entry : Type :=
  | Plain (h : Handler)
  | Filtered (e : EvmLogEntry).

(** The handler list of a [DataHandlers] at a slot, empty when the key is
    absent. *)
Definition slot (d : DataHandlers) (s : Slot) : list Entry :=
  match s with
  | SlotPre => Plain <$> pre d
  | SlotPost => Plain <$> post d
  | SlotEvent name => Plain <$> default [] (events d !! name)
  | SlotExtrinsic event extrinsic =>
      Plain <$> default [] (extrinsics d !! event ≫= (.!! extrinsic))
  | SlotEvmLog address => Filtered <$> default [] (evmLogs d !! address)
  end.

(** The handlers of the batches whose range contains height [h], at slot
    [s], concatenated in list order. *)
Definition activeAt (h : Z) (s : Slot) (bs : list Batch) : list Entry :=
  bs ≫= (λ b, if contains (range b) h then slot (handlers b) s else []).

(** Height [h] lies in the range of one of the batches. *)
Definition coveredAt (h : Z) (bs : list Batch) : Prop :=
  ∃ b, b ∈ bs ∧ contains (range b) h = true.

(** Range [a] ends below the start of [b]. *)
Definition before (a b : Range) : Prop :=
  match to a with Some e => e < from b | None => False end.

(** The range a registration asks for: [hook.range || {from: 0}]. *)
Definition requested (hookRange : option Range) : Range :=
  default (mkRange 0 None) hookRange.

(** The requested ranges of all registrations. *)
Definition requestedRanges (hooks : Hooks) : list Range :=
  (requested ∘ block_range <$> hooks_pre hooks)
  ++ (requested ∘ block_range <$> hooks_post hooks)
  ++ (requested ∘ event_range <$> hooks_event hooks)
  ++ (requested ∘ extrinsic_range <$> hooks_extrinsic hooks)
  ++ (requested ∘ evmLog_range <$> hooks_evmLog hooks).

(** Height [h] lies in the global run range, when there is one. *)
Definition inRun (blockRange : option Range) (h : Z) : bool :=
  match blockRange with Some br => contains br h | None => true end.

(** A registration with range option [hookRange] applies at height [h]:
    [h] lies in the range it asks for and in the run range. *)
Definition applies (blockRange hookRange : option Range) (h : Z) : bool :=
  contains (requested hookRange) h && inRun blockRange h.

(** The registrations that apply at height [h] and belong to slot [s], in
    the order they were registered: what scanning the raw registrations
    gives. *)
Definition registeredAt (hooks : Hooks) (blockRange : option Range)
    (h : Z) (s : Slot) : list Entry :=
  match s with
  | SlotPre =>
      hooks_pre hooks ≫= (λ k,
        if applies blockRange (block_range k) h
        then [Plain (block_handler k)] else [])
  | SlotPost =>
      hooks_post hooks ≫= (λ k,
        if applies blockRange (block_range k) h
        then [Plain (block_handler k)] else [])
  | SlotEvent name =>
      hooks_event hooks ≫= (λ k,
        if applies blockRange (event_range k) h
           && bool_decide (event_event k = name)
        then [Plain (event_handler k)] else [])
  | SlotExtrinsic event extrinsic =>
      hooks_extrinsic hooks ≫= (λ k,
        if applies blockRange (extrinsic_range k) h
           && bool_decide (extrinsic_event k = event)
           && bool_decide (extrinsic_extrinsic k = extrinsic)
        then [Plain (extrinsic_handler k)] else [])
  | SlotEvmLog address =>
      hooks_evmLog hooks ≫= (λ k,
        if applies blockRange (evmLog_range k) h
           && bool_decide (evmLog_contractAddress k = address)
        then [Filtered (mkEvmLogEntry (evmLog_filter k) (evmLog_handler k))]
        else [])
  end.

(** Every batch ends below the start of every later one. *)
Definition ordered : list Batch → Prop :=
  StronglySorted (λ a b, before (range a) (range b)).

(** A batch list is sorted by ascending [range.from]. *)
Definition sortedByFrom (bs : list Batch) : Prop :=
  Sorted (λ a b, from (range a) <= from (range b)) bs.

(** No two batches at different positions share a height. *)
Definition nonOverlapping (bs : list Batch) : Prop :=
  ∀ i j a b h, (i < j)%nat → bs !! i = Some a → bs !! j = Some b →
    ¬ (contains (range a) h = true ∧ contains (range b) h = true).

(** The number of heights of a range up to [M], an open end being cut
    at [M]. *)
Definition span (M : Z) (r : Range) : nat :=
  Z.to_nat (default M (to r) - from r + 1).

(** A well-formed range whose finite bounds lie below [M]. *)
Definition within (M : Z) (r : Range) : Prop :=
  from r <= M ∧
  match to r with Some e => from r <= e ∧ e < M | None => True end.

(** The total span of a batch list: the [while] loop of [mergeBatches]
    lowers it at every iteration. *)
Definition weight (M : Z) (bs : list Batch) : nat :=
  sum_list_with (λ b, span M (range b)) bs.

(** A height above every finite bound of a batch list. *)
Definition horizon (bs : list Batch) : Z :=
  1 + foldr (λ b m, Z.max (Z.max (from (range b))
                                 (default 0 (to (range b)))) m) 0 bs.

(** A number of iterations the loop of [mergeBatches] stays below. *)
Definition sweepFuel (bs : list Batch) : nat :=
  S (weight (horizon bs) bs).

(** The scheduler run on [ListHeap]. *)
Definition runMergeBatches : nat → list Batch → Outcome (list Batch) :=
  mergeBatches (HeapOps0 := ListHeap Batch).
Definition runCreateBatches
    : nat → Hooks → option Range → Outcome (list Batch) :=
  createBatches (HeapOps0 := ListHeap Batch).

#[export] Instance coveredAt_dec h bs : Decision (coveredAt h bs).
Proof.
  refine (cast_if (decide (Exists (λ b, contains (range b) h = true) bs)));
    unfold coveredAt; rewrite Exists_exists in *; done.
Defined.

(** The heights from [lo] to [hi] that lie in the range of one of the
    batches. *)
Definition coveredHeights (lo hi : Z) (bs : list Batch) : list Z :=
  base.filter (λ h, coveredAt h bs) (seqZ lo (hi - lo + 1)).

(** The heights from [lo] to [hi] that lie in the range some registration
    asks for and in the run range. *)
Definition requestedHeights (hooks : Hooks) (blockRange : option Range)
    (lo hi : Z) : list Z :=
  base.filter
    (λ h, Exists (λ r, contains r h = true) (requestedRanges hooks)
          ∧ inRun blockRange h = true)
    (seqZ lo (hi - lo + 1)).

(** A [DataHandlers] without handlers, as [createBatches] writes it but
    for the one field a registration fills. *)
Definition noHandlers : DataHandlers :=
  {| pre := []; post := []; events := ∅; extrinsics := ∅; evmLogs := ∅ |}.

(** *** [mergeDataHandlers] on objects with identity

    Arrays and dictionary objects are JavaScript objects: they are held
    by reference and can be changed in place.  To say that a merge leaves
    its inputs as they were, the code is embedded a second time, on a
    memory of objects: [concat] allocates a new array, [let result = {}]
    allocates a new dictionary, [result[key] = v] writes to it, and a
    value that passes through is the same reference in the result as in
    the input. *)

Abbreviation Ref := nat.

Inductive Object : Type :=
  | ArrayObj (elems : list Entry)
  | DictObj (props : gmap string Ref)
  | HandlersObj (pre post events extrinsics evmLogs : Ref).

(** The objects allocated so far; a reference is an index. *)
Abbreviation Memory := (list Object).

(** A computation on the memory; [None] is a read of a property of
    something that is not the expected kind of object. *)
Definition Js (A : Type) : Type := Memory → option (A * Memory).

#[export] Instance js_ret : MRet Js := λ A a σ, Some (a, σ).
#[export] Instance js_bind : MBind Js := λ A B k m σ,
  match m σ with
  | Some (a, σ') => k a σ'
  | None => None
  end.

Definition alloc (o : Object) : Js Ref := λ σ, Some (length σ, σ ++ [o]).

Definition getArray (r : Ref) : Js (list Entry) := λ σ,
  match σ !! r with Some (ArrayObj elems) => Some (elems, σ) | _ => None end.

Definition getDict (r : Ref) : Js (gmap string Ref) := λ σ,
  match σ !! r with Some (DictObj props) => Some (props, σ) | _ => None end.

Definition getHandlers (r : Ref) : Js (Ref * Ref * Ref * Ref * Ref) := λ σ,
  match σ !! r with
  | Some (HandlersObj p q e x v) => Some ((p, q, e, x, v), σ)
  | _ => None
  end.

(** [obj[key] = v]. *)
Definition setProp (r : Ref) (key : string) (v : Ref) : Js unit := λ σ,
  match σ !! r with
  | Some (DictObj props) =>
      Some (tt, <[r := DictObj (<[key := v]> props)]> σ)
  | _ => None
  end.

(** [a.concat(b)]. *)
Definition concat (a b : Ref) : Js Ref :=
  la ← getArray a; lb ← getArray b; alloc (ArrayObj (la ++ lb)).

(** [for (let key in obj) { ... }] over the properties [obj] has when the
    loop starts. *)
Fixpoint forIn (props : list (string * Ref))
    (body : string → Ref → Js unit) : Js unit :=
  match props with
  | [] => mret tt
  | (key, v) :: rest => body key v;; forIn rest body
  end.

(** [mergeMaps], on references. *)
Definition mergeMapsJs (a b : Ref) (mergeItems : Ref → Ref → Js Ref)
    : Js Ref :=
  result ← alloc (DictObj ∅);
  pa ← getDict a;
  forIn (map_to_list pa) (λ key va,
    pb ← getDict b;
    match pb !! key with
    | None => setProp result key va
    | Some vb => v ← mergeItems va vb; setProp result key v
    end);;
  pb ← getDict b;
  forIn (map_to_list pb) (λ key vb,
    pr ← getDict result;
    match pr !! key with
    | None => setProp result key vb
    | Some _ => mret tt
    end);;
  mret result.

(** [mergeDataHandlers], on references. *)
Definition mergeDataHandlersJs (a b : Ref) : Js Ref :=
  ha ← getHandlers a;
  hb ← getHandlers b;
  let '(apre, apost, aevents, aextrinsics, aevmLogs) := ha in
  let '(bpre, bpost, bevents, bextrinsics, bevmLogs) := hb in
  pre ← concat apre bpre;
  post ← concat apost bpost;
  events ← mergeMapsJs aevents bevents concat;
  extrinsics ← mergeMapsJs aextrinsics bextrinsics
                  (λ ea eb, mergeMapsJs ea eb concat);
  evmLogs ← mergeMapsJs aevmLogs bevmLogs concat;
  alloc (HandlersObj pre post events extrinsics evmLogs).

(** What a reference stands for: an array with the given elements, a
    dictionary whose values stand for the values of a map, a
    [DataHandlers] object whose five fields stand for the fields of a
    [DataHandlers] value. *)
Definition arrayOf {T} (inj : T → Entry) (σ : Memory) (r : Ref)
    (l : list T) : Prop :=
  σ !! r = Some (ArrayObj (inj <$> l)).

Definition dictOf {T} (R : Memory → Ref → T → Prop) (σ : Memory) (r : Ref)
    (g : gmap string T) : Prop :=
  ∃ props, σ !! r = Some (DictObj props) ∧
           ∀ key, option_Forall2 (R σ) (props !! key) (g !! key).

Definition handlersOf (σ : Memory) (r : Ref) (d : DataHandlers) : Prop :=
  ∃ p q e x v,
    σ !! r = Some (HandlersObj p q e x v) ∧
    arrayOf Plain σ p (pre d) ∧
    arrayOf Plain σ q (post d) ∧
    dictOf (arrayOf Plain) σ e (events d) ∧
    dictOf (dictOf (arrayOf Plain)) σ x (extrinsics d) ∧
    dictOf (arrayOf Filtered) σ v (evmLogs d).

(** The key-wise union of two lookups: a value on one side only passes
    through, values on both sides are merged. *)
Definition keywise {T} (f : T → T → T) (x y : option T) : option T :=
  match x, y with
  | Some u, Some v => Some (f u v)
  | Some u, None => Some u
  | None, Some v => Some v
  | None, None => None
  end.

(** Everything in [σ] is still in [σ'], as it was. *)
Definition keeps (σ σ' : Memory) : Prop :=
  ∀ i o, σ !! i = Some o → σ' !! i = Some o.

(** Everything in [σ] but the object at [res] is still in [σ']. *)
Definition keepsBut (res : Ref) (σ σ' : Memory) : Prop :=
  ∀ i o, i ≠ res → σ !! i = Some o → σ' !! i = Some o.

Definition notArray (σ : Memory) (res : Ref) : Prop :=
  ∀ elems, σ !! res ≠ Some (ArrayObj elems).

(** What the proof of [mergeMapsJs] asks of the values of a dictionary:
    what a reference stands for does not depend on objects allocated
    later, nor on a dictionary other than itself being written to. *)
Class Denotation {T} (R : Memory → Ref → T → Prop) : Prop := {
  denotation_keeps σ σ' v t : keeps σ σ' → R σ v t → R σ' v t;
  denotation_keepsBut res σ σ' v t :
    keepsBut res σ σ' → notArray σ res → v ≠ res → R σ v t → R σ' v t;
  denotation_valid σ v t : R σ v t → (v < length σ)%nat
}.

(** *** Sample registrations *)

(** Two handlers of one event over [0,99] and [50,150]. *)
Definition transferHooks : Hooks :=
  {| hooks_pre := []; hooks_post := [];
     hooks_event :=
       [mkEventHook "Balances.Transfer" 1%nat (Some (mkRange 0 (Some 99)));
        mkEventHook "Balances.Transfer" 2%nat (Some (mkRange 50 (Some 150)))];
     hooks_extrinsic := []; hooks_evmLog := [] |}.

(** Three pre-block hooks registered in the order 1, 2, 3 over [0,20],
    [10,20] and [5,20]: no two ranges start at the same height. *)
Definition staggeredHooks : Hooks :=
  {| hooks_pre :=
       [mkBlockHook 1%nat (Some (mkRange 0 (Some 20)));
        mkBlockHook 2%nat (Some (mkRange 10 (Some 20)));
        mkBlockHook 3%nat (Some (mkRange 5 (Some 20)))];
     hooks_post := []; hooks_event := [];
     hooks_extrinsic := []; hooks_evmLog := [] |}.

(** A batch list that is already sorted and non-overlapping. *)
Definition settledBatches : list Batch :=
  [mkBatch (mkRange 0 (Some 49))
     {| pre := [1%nat]; post := []; events := ∅; extrinsics := ∅;
        evmLogs := ∅ |};
   mkBatch (mkRange 50 (Some 99))
     {| pre := [1%nat; 2%nat]; post := []; events := ∅; extrinsics := ∅;
        evmLogs := ∅ |};
   mkBatch (mkRange 100 None)
     {| pre := [2%nat]; post := []; events := ∅; extrinsics := ∅;
        evmLogs := ∅ |}].

(** Two [DataHandlers] objects in memory, at references 5 and 11: the
    first with one [pre] hook and a handler of [Balances.Transfer], the
    second with a handler of the same event. *)
Definition sampleMemory : Memory :=
  [ArrayObj [Plain 1%nat]; ArrayObj []; ArrayObj [Plain 2%nat];
   DictObj {[ "Balances.Transfer" := 2%nat ]}; DictObj ∅;
   HandlersObj 0%nat 1%nat 3%nat 4%nat 4%nat;
   ArrayObj []; ArrayObj []; ArrayObj [Plain 3%nat];
   DictObj {[ "Balances.Transfer" := 8%nat ]}; DictObj ∅;
   HandlersObj 6%nat 7%nat 9%nat 10%nat 10%nat].

Definition sampleLeft : DataHandlers :=
  {| pre := [1%nat]; post := [];
     events := {[ "Balances.Transfer" := [2%nat] ]};
     extrinsics := ∅; evmLogs := ∅ |}.

Definition sampleRight : DataHandlers :=
  {| pre := []; post := [];
     events := {[ "Balances.Transfer" := [3%nat] ]};
     extrinsics := ∅; evmLogs := ∅ |}.

End Scheduler.

(** * The processor front end and the dispatch engine: definitions *)

Module Processor.

(** ** Errors *)

(** What the code throws.  [SettingsLocked] is
    [new Error('Settings modifications are not allowed after start of
    processing')]; [AssertionFailed] is a failed [assert] or
    [assertNotNull]; [TypeError] is a property read on [undefined];
    [HandlerError] is whatever a user callback throws;
    [WithContext e blockHeight blockHash] is [e] after
    [withErrorContext({blockHeight, blockHash})]. *)
Inductive Error : Type :=
  | SettingsLocked
  | AssertionFailed
  | TypeError
  | UnexpectedCase
  | MissingTypesBundle
  | HandlerError (message : string)
  | WithContext (e : Error) (blockHeight : Z) (blockHash : string).

Inductive Result (A : Type) : Type :=
  | Ok (a : A)
  | Err (e : Error).
Arguments Ok {A} a.
Arguments Err {A} e.

(** Modelled from the spec: [withErrorContext] of [util/misc], whose
    source is not part of the sources at hand; the spec has the error
    decorated with the given context and thrown again. *)
Definition withErrorContext (blockHeight : Z) (blockHash : string)
    (e : Error) : Error :=
  WithContext e blockHeight blockHash.

(** ** Strings *)

(** [String.prototype.toLowerCase] on the letters of a contract address:
    [A]..[Z] go to [a]..[z], every other byte stays. *)
Definition lowerAscii (c : ascii) : ascii :=
  let n := nat_of_ascii c in
  if ((65 <=? n) && (n <=? 90))%nat then ascii_of_nat (n + 32) else c.

Fixpoint toLowerCase (s : string) : string :=
  match s with
  | EmptyString => EmptyString
  | String c s' => String (lowerAscii c) (toLowerCase s')
  end.

(** ** Registrations ([interfaces/hooks], [interfaces/dataHandlers]) *)

(** A data selection request: opaque to the code at hand. *)
Definition DataRequest : Type := nat.

(** [BlockRangeOption & MayBeDataSelection<_>]. *)
Record RangeOptions := mkRangeOptions {
  range : option Range;
  data : option DataRequest
}.

(** [CallHandlerOptions & MayBeDataSelection<_>]. *)
Record CallOptions := mkCallOptions {
  call_range : option Range;
  call_data : option DataRequest;
  call_triggerForFailedCalls : option bool
}.

(** [EvmLogOptions & MayBeDataSelection<_>]. *)
Record EvmLogOptions := mkEvmLogOptions {
  evm_range : option Range;
  evm_data : option DataRequest;
  evm_filter : option (list EvmTopicSet)
}.

(** The two argument shapes of a registration method: the callback
    alone ([typeof fnOrOptions == 'function']), or options followed by a
    callback that may be missing. *)
Inductive Args (O : Type) : Type :=
  | JustHandler (fn : Handler)
  | WithOptions (options : O) (fn : option Handler).
Arguments JustHandler {O} fn.
Arguments WithOptions {O} options fn.

Record BlockHook := mkBlockHook {
  bh_handler : Handler;
  bh_options : RangeOptions
}.
Record EventHook := mkEventHook {
  eh_event : string;
  eh_handler : Handler;
  eh_options : RangeOptions
}.
Record CallHook := mkCallHook {
  ch_call : string;
  ch_handler : Handler;
  ch_options : CallOptions
}.
Record EvmLogHook := mkEvmLogHook {
  lh_handler : Handler;
  lh_contractAddress : string;
  lh_options : EvmLogOptions
}.
Record ContractHook := mkContractHook {
  kh_handler : Handler;
  kh_contractAddress : string;
  kh_options : RangeOptions
}.
Record GearHook := mkGearHook {
  gh_handler : Handler;
  gh_programId : string;
  gh_options : RangeOptions
}.

(** [interface Hooks]. *)
Record Hooks := mkHooks {
  pre : list BlockHook;
  post : list BlockHook;
  event : list EventHook;
  call : list CallHook;
  evmLog : list EvmLogHook;
  contractsContractEmitted : list ContractHook;
  gearMessageEnqueued : list GearHook;
  gearUserMessageSent : list GearHook
}.

(** ** [class SubstrateProcessor]: the configuration *)

Record DataSource := mkDataSource {
  archive : string;
  chain : option string
}.

(** A types bundle: opaque. *)
Definition OldTypesBundle : Type := nat.

Record SubstrateProcessor := mkProcessor {
  hooks : Hooks;
  blockRange : Range;
  batchSize : Z;
  prometheusPort : option (Z + string);
  src : option DataSource;
  typesBundle : option OldTypesBundle;
  running : bool
}.

(** The processor as the constructor leaves it. *)
Definition newProcessor : SubstrateProcessor :=
  {| hooks := mkHooks [] [] [] [] [] [] [] [];
     blockRange := mkRange 0 None;
     batchSize := 100;
     prometheusPort := None;
     src := None;
     typesBundle := None;
     running := false |}.

(** A method of the processor: it runs on the object's state and returns
    or throws; the state it leaves is the object's state afterwards, also
    when it throws. *)
Definition Method (A : Type) : Type :=
  SubstrateProcessor → Result A * SubstrateProcessor.

#[export] Instance method_ret : MRet Method := λ A a p, (Ok a, p).
#[export] Instance method_bind : MBind Method := λ A B k m p,
  match m p with
  | (Ok a, p') => k a p'
  | (Err e, p') => (Err e, p')
  end.
Definition throw {A} (e : Error) : Method A := λ p, (Err e, p).
Definition modify (f : SubstrateProcessor → SubstrateProcessor)
    : Method unit :=
  λ p, (Ok tt, f p).

(** [assertNotRunning]. *)
Definition assertNotRunning : Method unit :=
  λ p, if running p then (Err SettingsLocked, p) else (Ok tt, p).

(** The overload resolution every registration method starts with:
    [handler] and [options] out of [fnOrOptions] and [fn]. *)
Definition resolve {O} (none : O) (args : Args O) : Method (Handler * O) :=
  match args with
  | JustHandler fn => mret (fn, none)
  | WithOptions options (Some fn) => mret (fn, options)
  | WithOptions options None => throw AssertionFailed
  end.

Definition setHooks (f : Hooks → Hooks) : Method unit :=
  modify (λ p, {| hooks := f (hooks p); blockRange := blockRange p;
                  batchSize := batchSize p;
                  prometheusPort := prometheusPort p; src := src p;
                  typesBundle := typesBundle p; running := running p |}).

Section methods.
(** [getOldTypesBundle] and [readOldTypesBundle] of
    [@subsquid/substrate-metadata]: the first may find nothing, the second
    reads a file and may throw. *)
Variable getOldTypesBundle : string → option OldTypesBundle.
Variable readOldTypesBundle : string → option OldTypesBundle.

Definition setDataSource (s : DataSource) : Method unit :=
  assertNotRunning ;;
  modify (λ p, {| hooks := hooks p; blockRange := blockRange p;
                  batchSize := batchSize p;
                  prometheusPort := prometheusPort p; src := Some s;
                  typesBundle := typesBundle p; running := running p |}).

Definition setTypesBundle (bundle : string + OldTypesBundle) : Method unit :=
  assertNotRunning ;;
  b ← match bundle with
      | inl name =>
          match getOldTypesBundle name with
          | Some b => mret b
          | None =>
              match readOldTypesBundle name with
              | Some b => mret b
              | None => throw MissingTypesBundle
              end
          end
      | inr b => mret b
      end;
  modify (λ p, {| hooks := hooks p; blockRange := blockRange p;
                  batchSize := batchSize p;
                  prometheusPort := prometheusPort p; src := src p;
                  typesBundle := Some b; running := running p |}).

Definition setBlockRange (r : Range) : Method unit :=
  assertNotRunning ;;
  modify (λ p, {| hooks := hooks p; blockRange := r;
                  batchSize := batchSize p;
                  prometheusPort := prometheusPort p; src := src p;
                  typesBundle := typesBundle p; running := running p |}).

Definition setBatchSize (size : Z) : Method unit :=
  assertNotRunning ;;
  (if 0 <? size then mret tt else throw AssertionFailed) ;;
  modify (λ p, {| hooks := hooks p; blockRange := blockRange p;
                  batchSize := size;
                  prometheusPort := prometheusPort p; src := src p;
                  typesBundle := typesBundle p; running := running p |}).

Definition setPrometheusPort (port : Z + string) : Method unit :=
  assertNotRunning ;;
  modify (λ p, {| hooks := hooks p; blockRange := blockRange p;
                  batchSize := batchSize p;
                  prometheusPort := Some port; src := src p;
                  typesBundle := typesBundle p; running := running p |}).

Definition noRangeOptions : RangeOptions := mkRangeOptions None None.

Definition addPreHook (args : Args RangeOptions) : Method unit :=
  assertNotRunning ;;
  ho ← resolve noRangeOptions args;
  setHooks (λ h, {| pre := pre h ++ [mkBlockHook ho.1 ho.2];
                    post := post h; event := event h; call := call h;
                    evmLog := evmLog h;
                    contractsContractEmitted := contractsContractEmitted h;
                    gearMessageEnqueued := gearMessageEnqueued h;
                    gearUserMessageSent := gearUserMessageSent h |}).

Definition addPostHook (args : Args RangeOptions) : Method unit :=
  assertNotRunning ;;
  ho ← resolve noRangeOptions args;
  setHooks (λ h, {| pre := pre h;
                    post := post h ++ [mkBlockHook ho.1 ho.2];
                    event := event h; call := call h;
                    evmLog := evmLog h;
                    contractsContractEmitted := contractsContractEmitted h;
                    gearMessageEnqueued := gearMessageEnqueued h;
                    gearUserMessageSent := gearUserMessageSent h |}).

Definition addEventHandler (eventName : string) (args : Args RangeOptions)
    : Method unit :=
  assertNotRunning ;;
  ho ← resolve noRangeOptions args;
  setHooks (λ h, {| pre := pre h; post := post h;
                    event := event h ++ [mkEventHook eventName ho.1 ho.2];
                    call := call h; evmLog := evmLog h;
                    contractsContractEmitted := contractsContractEmitted h;
                    gearMessageEnqueued := gearMessageEnqueued h;
                    gearUserMessageSent := gearUserMessageSent h |}).

Definition addCallHandler (callName : string) (args : Args CallOptions)
    : Method unit :=
  assertNotRunning ;;
  ho ← resolve (mkCallOptions None None None) args;
  setHooks (λ h, {| pre := pre h; post := post h; event := event h;
                    call := call h ++ [mkCallHook callName ho.1 ho.2];
                    evmLog := evmLog h;
                    contractsContractEmitted := contractsContractEmitted h;
                    gearMessageEnqueued := gearMessageEnqueued h;
                    gearUserMessageSent := gearUserMessageSent h |}).

Definition addEvmLogHandler (contractAddress : string)
    (args : Args EvmLogOptions) : Method unit :=
  assertNotRunning ;;
  ho ← resolve (mkEvmLogOptions None None None) args;
  setHooks (λ h, {| pre := pre h; post := post h; event := event h;
                    call := call h;
                    evmLog :=
                      evmLog h
                      ++ [mkEvmLogHook ho.1 (toLowerCase contractAddress)
                            ho.2];
                    contractsContractEmitted := contractsContractEmitted h;
                    gearMessageEnqueued := gearMessageEnqueued h;
                    gearUserMessageSent := gearUserMessageSent h |}).

Definition addContractsContractEmittedHandler (contractAddress : string)
    (args : Args RangeOptions) : Method unit :=
  assertNotRunning ;;
  ho ← resolve noRangeOptions args;
  setHooks (λ h, {| pre := pre h; post := post h; event := event h;
                    call := call h; evmLog := evmLog h;
                    contractsContractEmitted :=
                      contractsContractEmitted h
                      ++ [mkContractHook ho.1 (toLowerCase contractAddress)
                            ho.2];
                    gearMessageEnqueued := gearMessageEnqueued h;
                    gearUserMessageSent := gearUserMessageSent h |}).

Definition addGearMessageEnqueuedHandler (programId : string)
    (args : Args RangeOptions) : Method unit :=
  assertNotRunning ;;
  ho ← resolve noRangeOptions args;
  setHooks (λ h, {| pre := pre h; post := post h; event := event h;
                    call := call h; evmLog := evmLog h;
                    contractsContractEmitted := contractsContractEmitted h;
                    gearMessageEnqueued :=
                      gearMessageEnqueued h ++ [mkGearHook ho.1 programId ho.2];
                    gearUserMessageSent := gearUserMessageSent h |}).

Definition addGearUserMessageSentHandler (programId : string)
    (args : Args RangeOptions) : Method unit :=
  assertNotRunning ;;
  ho ← resolve noRangeOptions args;
  setHooks (λ h, {| pre := pre h; post := post h; event := event h;
                    call := call h; evmLog := evmLog h;
                    contractsContractEmitted := contractsContractEmitted h;
                    gearMessageEnqueued := gearMessageEnqueued h;
                    gearUserMessageSent :=
                      gearUserMessageSent h ++ [mkGearHook ho.1 programId ho.2] |}).

(** The configuration operations of the class, one constructor per
    public method that changes a setting or registers a handler. *)
Inductive ConfigCall : Type :=
  | SetDataSource (s : DataSource)
  | SetTypesBundle (bundle : string + OldTypesBundle)
  | SetBlockRange (r : Range)
  | SetBatchSize (size : Z)
  | SetPrometheusPort (port : Z + string)
  | AddPreHook (args : Args RangeOptions)
  | AddPostHook (args : Args RangeOptions)
  | AddEventHandler (eventName : string) (args : Args RangeOptions)
  | AddCallHandler (callName : string) (args : Args CallOptions)
  | AddEvmLogHandler (contractAddress : string) (args : Args EvmLogOptions)
  | AddContractsContractEmittedHandler (contractAddress : string)
      (args : Args RangeOptions)
  | AddGearMessageEnqueuedHandler (programId : string)
      (args : Args RangeOptions)
  | AddGearUserMessageSentHandler (programId : string)
      (args : Args RangeOptions).

Definition configure (c : ConfigCall) : Method unit :=
  match c with
  | SetDataSource s => setDataSource s
  | SetTypesBundle bundle => setTypesBundle bundle
  | SetBlockRange r => setBlockRange r
  | SetBatchSize size => setBatchSize size
  | SetPrometheusPort port => setPrometheusPort port
  | AddPreHook args => addPreHook args
  | AddPostHook args => addPostHook args
  | AddEventHandler eventName args => addEventHandler eventName args
  | AddCallHandler callName args => addCallHandler callName args
  | AddEvmLogHandler contractAddress args =>
      addEvmLogHandler contractAddress args
  | AddContractsContractEmittedHandler contractAddress args =>
      addContractsContractEmittedHandler contractAddress args
  | AddGearMessageEnqueuedHandler programId args =>
      addGearMessageEnqueuedHandler programId args
  | AddGearUserMessageSentHandler programId args =>
      addGearUserMessageSentHandler programId args
  end.

(** A sequence of configuration calls, each made whatever the previous
    ones did: the outcomes, and the state at the end. *)
Fixpoint configureAll (cs : list ConfigCall) (p : SubstrateProcessor)
    : list (Result unit) * SubstrateProcessor :=
  match cs with
  | [] => ([], p)
  | c :: cs' =>
      let '(r, p') := configure c p in
      let '(rs, p'') := configureAll cs' p' in
      (r :: rs, p'')
  end.

(** [getTypesBundle]: the configured bundle, or else the built-in one of
    the chain; [None] is the thrown
    [Error('Types bundle is required for ...')]. *)
Definition getTypesBundle (specName : string) (specVersion : Z)
    (p : SubstrateProcessor) : option OldTypesBundle :=
  match typesBundle p with
  | Some bundle => Some bundle
  | None => getOldTypesBundle specName
  end.

End methods.

(** [getArchiveEndpoint]: [this.src?.archive]; [None] is the thrown
    [Error('use .setDataSource() to specify archive url')]. *)
Definition getArchiveEndpoint (p : SubstrateProcessor) : option string :=
  match src p with
  | Some s => Some (archive s)
  | None => None
  end.

(** [getChainEndpoint]: [this.src?.chain]; [None] is the thrown
    [Error('use .setDataSource() to specify chain RPC endpoint')]. *)
Definition getChainEndpoint (p : SubstrateProcessor) : option string :=
  match src p with
  | Some s => chain s
  | None => None
  end.

(** [run]: the part that bears on the configuration.  The flag is set
    before the runner is started. *)
Definition run (p : SubstrateProcessor) : SubstrateProcessor :=
  if running p then p
  else {| hooks := hooks p; blockRange := blockRange p;
          batchSize := batchSize p; prometheusPort := prometheusPort p;
          src := src p; typesBundle := typesBundle p; running := true |}.

(** The states a processor object can be in: the one the constructor
    leaves, and those reached from it by configuration calls, whatever
    their outcome, and by [run]. *)
Inductive reachable (getOldTypesBundle readOldTypesBundle
    : string → option OldTypesBundle) : SubstrateProcessor → Prop :=
  | reachable_new :
      reachable getOldTypesBundle readOldTypesBundle newProcessor
  | reachable_configure c p :
      reachable getOldTypesBundle readOldTypesBundle p →
      reachable getOldTypesBundle readOldTypesBundle
        (configure getOldTypesBundle readOldTypesBundle c p).2
  | reachable_run p :
      reachable getOldTypesBundle readOldTypesBundle p →
      reachable getOldTypesBundle readOldTypesBundle (run p).

(** Every list of [h'] begins with the list of [h]: registrations were
    added at the end, none removed or moved. *)
Definition hooksExtend (h h' : Hooks) : Prop :=
  pre h `prefix_of` pre h' ∧
  post h `prefix_of` post h' ∧
  event h `prefix_of` event h' ∧
  call h `prefix_of` call h' ∧
  evmLog h `prefix_of` evmLog h' ∧
  contractsContractEmitted h `prefix_of` contractsContractEmitted h' ∧
  gearMessageEnqueued h `prefix_of` gearMessageEnqueued h' ∧
  gearUserMessageSent h `prefix_of` gearUserMessageSent h'.

(** The contract addresses of the registrations are in lower case. *)
Definition lowerCased (h : Hooks) : Prop :=
  Forall (λ k, toLowerCase (lh_contractAddress k) = lh_contractAddress k)
         (evmLog h)
  ∧ Forall (λ k, toLowerCase (kh_contractAddress k) = kh_contractAddress k)
           (contractsContractEmitted h).

(** The data source of the last [setDataSource] among the calls. *)
Fixpoint lastDataSource (cs : list ConfigCall) : option DataSource :=
  match cs with
  | [] => None
  | c :: cs' =>
      match lastDataSource cs' with
      | Some s => Some s
      | None => match c with SetDataSource s => Some s | _ => None end
      end
  end.

(** ** Blocks, items and handler sets *)

(** The arguments of an event: a JavaScript object, of which the dispatch
    engine reads the properties below; any of them may be missing. *)
Record EvmLogInner := mkEvmLogInner { log_address : option string }.
Record GearMessage := mkGearMessage { message_source : option string }.
Record EventArgs := mkEventArgs {
  args_address : option string;
  args_log : option EvmLogInner;
  args_topics : option (list string);
  args_contract : option string;
  args_destination : option string;
  args_message : option GearMessage
}.

Record SubstrateEvent := mkEvent {
  event_name : string;
  event_id : string;
  event_args : EventArgs
}.

Record SubstrateCall := mkCall {
  call_name : string;
  call_id : string;
  call_success : bool
}.

(** An item of a block's unified log; [OtherItem] is an item whose [kind]
    is neither ['event'] nor ['call']. *)
Inductive Item : Type :=
  | EventItem (e : SubstrateEvent)
  | CallItem (c : SubstrateCall)
  | OtherItem.

Record BlockHeader := mkHeader { height : Z; hash : string }.
Record BlockData := mkBlock { header : BlockHeader; items : list Item }.

(** [{handlers, data}]. *)
Record Handlers (H : Type) := mkHandlers {
  handlers : list H;
  handlers_data : option DataRequest
}.
Arguments mkHandlers {H} handlers handlers_data.
Arguments handlers {H} _.
Arguments handlers_data {H} _.

(** [CallHandlerEntry]. *)
Record CallHandlerEntry := mkCallHandlerEntry {
  handler : Handler;
  triggerForFailedCalls : option bool
}.

(** An entry of [DataHandlers.evmLogs]. *)
Record EvmLogEntry := mkEvmLogEntry {
  log_filter : option (list EvmTopicSet);
  log_handler : Handler
}.

(** Modelled from the spec: the [DataHandlers] class of [batch/handlers],
    whose source is not part of the sources at hand, with the fields
    [createBatches] and [HandlerRunner] use: [pre] and [post] unkeyed,
    [events] and [calls] keyed by qualified name, the specialized kinds
    keyed by contract address or program id. *)
Record DataHandlers := mkDataHandlers {
  dh_pre : Handlers Handler;
  dh_post : Handlers Handler;
  dh_events : gmap string (Handlers Handler);
  dh_calls : gmap string (Handlers CallHandlerEntry);
  dh_evmLogs : gmap string (list EvmLogEntry);
  dh_contractsContractEmitted : gmap string (Handlers Handler);
  dh_gearMessageEnqueued : gmap string (Handlers Handler);
  dh_gearUserMessageSent : gmap string (Handlers Handler)
}.

(** Modelled from the spec: [new DataHandlers()], a handler set without
    handlers. *)
Definition newDataHandlers : DataHandlers :=
  {| dh_pre := mkHandlers [] None; dh_post := mkHandlers [] None;
     dh_events := ∅; dh_calls := ∅; dh_evmLogs := ∅;
     dh_contractsContractEmitted := ∅; dh_gearMessageEnqueued := ∅;
     dh_gearUserMessageSent := ∅ |}.

(** The request [createBatches] builds for an EVM log registration. *)
Definition evmLogRequest (hook : EvmLogHook) : DataHandlers :=
  {| dh_pre := dh_pre newDataHandlers; dh_post := dh_post newDataHandlers;
     dh_events := dh_events newDataHandlers;
     dh_calls := dh_calls newDataHandlers;
     dh_evmLogs :=
       {[ lh_contractAddress hook :=
            [mkEvmLogEntry (evm_filter (lh_options hook)) (lh_handler hook)] ]};
     dh_contractsContractEmitted :=
       dh_contractsContractEmitted newDataHandlers;
     dh_gearMessageEnqueued := dh_gearMessageEnqueued newDataHandlers;
     dh_gearUserMessageSent := dh_gearUserMessageSent newDataHandlers |}.

(** The request [createBatches] builds for a [Contracts.ContractEmitted]
    registration. *)
Definition contractEmittedRequest (hook : ContractHook) : DataHandlers :=
  {| dh_pre := dh_pre newDataHandlers; dh_post := dh_post newDataHandlers;
     dh_events := dh_events newDataHandlers;
     dh_calls := dh_calls newDataHandlers;
     dh_evmLogs := dh_evmLogs newDataHandlers;
     dh_contractsContractEmitted :=
       {[ kh_contractAddress hook :=
            mkHandlers [kh_handler hook] (data (kh_options hook)) ]};
     dh_gearMessageEnqueued := dh_gearMessageEnqueued newDataHandlers;
     dh_gearUserMessageSent := dh_gearUserMessageSent newDataHandlers |}.

(** The requests [createBatches] builds for the other kinds of
    registration. *)
Definition preRequest (hook : BlockHook) : DataHandlers :=
  {| dh_pre := mkHandlers [bh_handler hook] (data (bh_options hook));
     dh_post := dh_post newDataHandlers;
     dh_events := dh_events newDataHandlers;
     dh_calls := dh_calls newDataHandlers;
     dh_evmLogs := dh_evmLogs newDataHandlers;
     dh_contractsContractEmitted :=
       dh_contractsContractEmitted newDataHandlers;
     dh_gearMessageEnqueued := dh_gearMessageEnqueued newDataHandlers;
     dh_gearUserMessageSent := dh_gearUserMessageSent newDataHandlers |}.

Definition postRequest (hook : BlockHook) : DataHandlers :=
  {| dh_pre := dh_pre newDataHandlers;
     dh_post := mkHandlers [bh_handler hook] (data (bh_options hook));
     dh_events := dh_events newDataHandlers;
     dh_calls := dh_calls newDataHandlers;
     dh_evmLogs := dh_evmLogs newDataHandlers;
     dh_contractsContractEmitted :=
       dh_contractsContractEmitted newDataHandlers;
     dh_gearMessageEnqueued := dh_gearMessageEnqueued newDataHandlers;
     dh_gearUserMessageSent := dh_gearUserMessageSent newDataHandlers |}.

Definition eventRequest (hook : EventHook) : DataHandlers :=
  {| dh_pre := dh_pre newDataHandlers; dh_post := dh_post newDataHandlers;
     dh_events :=
       {[ eh_event hook :=
            mkHandlers [eh_handler hook] (data (eh_options hook)) ]};
     dh_calls := dh_calls newDataHandlers;
     dh_evmLogs := dh_evmLogs newDataHandlers;
     dh_contractsContractEmitted :=
       dh_contractsContractEmitted newDataHandlers;
     dh_gearMessageEnqueued := dh_gearMessageEnqueued newDataHandlers;
     dh_gearUserMessageSent := dh_gearUserMessageSent newDataHandlers |}.

Definition callRequest (hook : CallHook) : DataHandlers :=
  {| dh_pre := dh_pre newDataHandlers; dh_post := dh_post newDataHandlers;
     dh_events := dh_events newDataHandlers;
     dh_calls :=
       {[ ch_call hook :=
            mkHandlers
              [mkCallHandlerEntry (ch_handler hook)
                 (call_triggerForFailedCalls (ch_options hook))]
              (call_data (ch_options hook)) ]};
     dh_evmLogs := dh_evmLogs newDataHandlers;
     dh_contractsContractEmitted :=
       dh_contractsContractEmitted newDataHandlers;
     dh_gearMessageEnqueued := dh_gearMessageEnqueued newDataHandlers;
     dh_gearUserMessageSent := dh_gearUserMessageSent newDataHandlers |}.

Definition gearMessageEnqueuedRequest (hook : GearHook) : DataHandlers :=
  {| dh_pre := dh_pre newDataHandlers; dh_post := dh_post newDataHandlers;
     dh_events := dh_events newDataHandlers;
     dh_calls := dh_calls newDataHandlers;
     dh_evmLogs := dh_evmLogs newDataHandlers;
     dh_contractsContractEmitted :=
       dh_contractsContractEmitted newDataHandlers;
     dh_gearMessageEnqueued :=
       {[ gh_programId hook :=
            mkHandlers [gh_handler hook] (data (gh_options hook)) ]};
     dh_gearUserMessageSent := dh_gearUserMessageSent newDataHandlers |}.

Definition gearUserMessageSentRequest (hook : GearHook) : DataHandlers :=
  {| dh_pre := dh_pre newDataHandlers; dh_post := dh_post newDataHandlers;
     dh_events := dh_events newDataHandlers;
     dh_calls := dh_calls newDataHandlers;
     dh_evmLogs := dh_evmLogs newDataHandlers;
     dh_contractsContractEmitted :=
       dh_contractsContractEmitted newDataHandlers;
     dh_gearMessageEnqueued := dh_gearMessageEnqueued newDataHandlers;
     dh_gearUserMessageSent :=
       {[ gh_programId hook :=
            mkHandlers [gh_handler hook] (data (gh_options hook)) ]} |}.

(** [getRange] inside [createBatches]: [hook.range || {from: 0}]. *)
Definition getRange (hookRange : option Range) : Range :=
  default (mkRange 0 None) hookRange.

(** The list [batches] of [createBatches] as it stands before
    [applyRangeBound] and [mergeBatches] are applied to it: one pair of a
    range and a request per registration, kind by kind, each kind in the
    order of registration. *)
Definition requestBatches (h : Hooks) : list (Range * DataHandlers) :=
  ((λ k, (getRange (range (bh_options k)), preRequest k)) <$> pre h)
  ++ ((λ k, (getRange (range (bh_options k)), postRequest k)) <$> post h)
  ++ ((λ k, (getRange (range (eh_options k)), eventRequest k)) <$> event h)
  ++ ((λ k, (getRange (call_range (ch_options k)), callRequest k))
        <$> call h)
  ++ ((λ k, (getRange (evm_range (lh_options k)), evmLogRequest k))
        <$> evmLog h)
  ++ ((λ k, (getRange (range (kh_options k)), contractEmittedRequest k))
        <$> contractsContractEmitted h)
  ++ ((λ k, (getRange (range (gh_options k)), gearMessageEnqueuedRequest k))
        <$> gearMessageEnqueued h)
  ++ ((λ k, (getRange (range (gh_options k)), gearUserMessageSentRequest k))
        <$> gearUserMessageSent h).

(** ** [class HandlerRunner]: the dispatch engine *)

(** A call of a user callback: which callback, from which loop of
    [processBlock], and what it is given to see. *)
Inductive Invocation : Type :=
  | PreHook (h : Handler) (visible : list Item)
  | EventCall (h : Handler) (e : SubstrateEvent)
  | EvmLogCall (h : Handler) (e : SubstrateEvent)
  | ContractEmittedCall (h : Handler) (e : SubstrateEvent)
  | GearMessageEnqueuedCall (h : Handler) (e : SubstrateEvent)
  | GearUserMessageSentCall (h : Handler) (e : SubstrateEvent)
  | CallCall (h : Handler) (c : SubstrateCall)
  | PostHook (h : Handler) (visible : list Item).

(** A property of a JavaScript object used as a key: [undefined] reads
    the key ["undefined"]. *)
Definition keyOf (k : option string) : string := default "undefined" k.

Section dispatch.
(** The store handle the callbacks work on, and what the callbacks do:
    a call either completes, leaving a new store, or throws. *)
Variable Store : Type.
Variable behaviour : Invocation → Store → Result Store.

(** What a block's processing has at hand: the store handle of the open
    transaction, and the calls of callbacks made so far. *)
Record World := mkWorld {
  store : Store;
  trace : list Invocation
}.

Definition Run (A : Type) : Type := World → Result A * World.

#[export] Instance run_ret : MRet Run := λ A a w, (Ok a, w).
#[export] Instance run_bind : MBind Run := λ A B k m w,
  match m w with
  | (Ok a, w') => k a w'
  | (Err e, w') => (Err e, w')
  end.

Definition raise {A} (e : Error) : Run A := λ w, (Err e, w).

Definition lift {A} (r : Result A) : Run A :=
  match r with Ok a => mret a | Err e => raise e end.

(** [await handler(ctx)]. *)
Definition invoke (i : Invocation) : Run unit := λ w,
  match behaviour i (store w) with
  | Ok s => (Ok tt, mkWorld s (trace w ++ [i]))
  | Err e => (Err e, mkWorld (store w) (trace w ++ [i]))
  end.

(** [for (let x of l) { ... }]. *)
Fixpoint forEach {A} (l : list A) (body : A → Run unit) : Run unit :=
  match l with
  | [] => mret tt
  | x :: l' => body x;; forEach l' body
  end.

(** The handlers stored under a key, none when the key is absent. *)
Definition handlersAt {H} (m : gmap string (Handlers H)) (key : string)
    : list H :=
  match m !! key with Some hs => handlers hs | None => [] end.

(** [getEventHandlers]. *)
Definition getEventHandlers (hs : DataHandlers) (e : SubstrateEvent)
    : list Handler :=
  handlersAt (dh_events hs) "*" ++ handlersAt (dh_events hs) (event_name e).

(** [getCallHandlers]. *)
Definition getCallHandlers (hs : DataHandlers) (c : SubstrateCall)
    : list CallHandlerEntry :=
  handlersAt (dh_calls hs) "*" ++ handlersAt (dh_calls hs) (call_name c).

(** [set.includes(topic)], the topic possibly undefined. *)
Definition includes (set : list string) (topic : option string) : bool :=
  match topic with Some t => bool_decide (t ∈ set) | None => false end.

(** The loop of [evmHandlerMatches] from index [i] on; [log.args.topics]
    is read only when an entry of the filter asks for it. *)
Fixpoint topicsMatch (i : nat) (sets : list EvmTopicSet)
    (log : SubstrateEvent) : Result bool :=
  match sets with
  | [] => Ok true
  | TopicAny :: rest => topicsMatch (S i) rest log
  | TopicOneOf set :: rest =>
      match args_topics (event_args log) with
      | None => Err TypeError
      | Some topics =>
          if includes set (topics !! i) then topicsMatch (S i) rest log
          else Ok false
      end
  | TopicOne t :: rest =>
      match args_topics (event_args log) with
      | None => Err TypeError
      | Some topics =>
          if bool_decide (topics !! i = Some t)
          then topicsMatch (S i) rest log
          else Ok false
      end
  end.

(** [evmHandlerMatches]. *)
Definition evmHandlerMatches (h : EvmLogEntry) (log : SubstrateEvent)
    : Result bool :=
  match log_filter h with
  | None => Ok true
  | Some sets => topicsMatch 0 sets log
  end.

(** [assertNotNull(log.args.address || log.args.log.address)]: the
    second operand is read when the first is undefined or empty. *)
Definition evmContractAddress (log : SubstrateEvent) : Result string :=
  let inner :=
    match args_log (event_args log) with
    | None => Err TypeError
    | Some inner =>
        match log_address inner with
        | Some a => Ok a
        | None => Err AssertionFailed
        end
    end in
  match args_address (event_args log) with
  | Some a => if bool_decide (a = EmptyString) then inner else Ok a
  | None => inner
  end.

(** [for (let handler of this.getEvmLogHandlers(...)) { ... }]: the
    generator runs as the loop asks for its next element, so an entry is
    matched only after the handlers of the entries before it have run. *)
Definition forEvmLogHandlers (evmLogs : gmap string (list EvmLogEntry))
    (e : SubstrateEvent) (body : Handler → Run unit) : Run unit :=
  if bool_decide (event_name e = "EVM.Log") then
    contractAddress ← lift (evmContractAddress e);
    match evmLogs !! contractAddress with
    | None => mret tt
    | Some contractHandlers =>
        forEach contractHandlers (λ h,
          matches ← lift (evmHandlerMatches h e);
          if matches : bool then body (log_handler h) else mret tt)
    end
  else mret tt.

(** [getContractEmittedHandlers]. *)
Definition getContractEmittedHandlers (hs : DataHandlers)
    (e : SubstrateEvent) : list Handler :=
  if bool_decide (event_name e = "Contracts.ContractEmitted") then
    handlersAt (dh_contractsContractEmitted hs)
               (keyOf (args_contract (event_args e)))
  else [].

(** [getGearMessageEnqueuedHandlers]. *)
Definition getGearMessageEnqueuedHandlers (hs : DataHandlers)
    (e : SubstrateEvent) : list Handler :=
  if bool_decide (event_name e = "Gear.MessageEnqueued") then
    handlersAt (dh_gearMessageEnqueued hs)
               (keyOf (args_destination (event_args e)))
  else [].

(** [getGearUserMessageSentHandlers]; [e.args.message.source] throws when
    there is no [message]. *)
Definition getGearUserMessageSentHandlers (hs : DataHandlers)
    (e : SubstrateEvent) : Result (list Handler) :=
  if bool_decide (event_name e = "Gear.UserMessageSent") then
    match args_message (event_args e) with
    | None => Err TypeError
    | Some m =>
        Ok (handlersAt (dh_gearUserMessageSent hs) (keyOf (message_source m)))
    end
  else Ok [].

(** [item.call.success || handler.triggerForFailedCalls]. *)
Definition triggers (c : SubstrateCall) (h : CallHandlerEntry) : bool :=
  call_success c || default false (triggerForFailedCalls h).

(** The body of the loop over [block.items] in [processBlock]. *)
Definition processItem (hs : DataHandlers) (item : Item) : Run unit :=
  match item with
  | EventItem e =>
      forEach (getEventHandlers hs e) (λ h, invoke (EventCall h e));;
      forEvmLogHandlers (dh_evmLogs hs) e (λ h, invoke (EvmLogCall h e));;
      forEach (getContractEmittedHandlers hs e)
              (λ h, invoke (ContractEmittedCall h e));;
      forEach (getGearMessageEnqueuedHandlers hs e)
              (λ h, invoke (GearMessageEnqueuedCall h e));;
      sent ← lift (getGearUserMessageSentHandlers hs e);
      forEach sent (λ h, invoke (GearUserMessageSentCall h e))
  | CallItem c =>
      forEach (getCallHandlers hs c) (λ h,
        if triggers c h then invoke (CallCall (handler h) c) else mret tt)
  | OtherItem => raise UnexpectedCase
  end.

(** [processBlock]. *)
Definition processBlock (hs : DataHandlers) (block : BlockData) : Run unit :=
  forEach (handlers (dh_pre hs)) (λ h, invoke (PreHook h (items block)));;
  forEach (items block) (processItem hs);;
  forEach (handlers (dh_post hs)) (λ h, invoke (PostHook h (items block))).

(** *** The dispatch order in the spec's words *)

(** Following the spec: a topic filter matches a log when, position by
    position, an undefined entry accepts any topic, a single literal
    equals the log's topic at that position, and a list of literals
    contains it. *)
Definition spec_entryMatches (set : EvmTopicSet) (topic : option string)
    : Prop :=
  match set with
  | TopicAny => True
  | TopicOne t => topic = Some t
  | TopicOneOf ts => ∃ t, topic = Some t ∧ t ∈ ts
  end.

#[export] Instance spec_entryMatches_dec set topic :
  Decision (spec_entryMatches set topic).
Proof.
  destruct set as [|t|ts]; simpl; [apply _..|].
  destruct topic as [t|].
  - destruct (decide (t ∈ ts)); [left; eauto|right].
    intros (t' & [= <-] & ?). done.
  - right. by intros (t' & [=] & _).
Defined.

Definition spec_filterMatches (filter : option (list EvmTopicSet))
    (topics : list string) : Prop :=
  match filter with
  | None => True
  | Some sets =>
      ∀ i set, sets !! i = Some set → spec_entryMatches set (topics !! i)
  end.

(** The same, as a function. *)
Fixpoint matchesFrom (i : nat) (sets : list EvmTopicSet)
    (topics : list string) : bool :=
  match sets with
  | [] => true
  | set :: rest =>
      bool_decide (spec_entryMatches set (topics !! i))
      && matchesFrom (S i) rest topics
  end.

Definition filterMatches (filter : option (list EvmTopicSet))
    (topics : list string) : bool :=
  match filter with None => true | Some sets => matchesFrom 0 sets topics end.

(** The topics and the contract address an EVM log reports. *)
Definition reportedTopics (e : SubstrateEvent) : list string :=
  default [] (args_topics (event_args e)).

Definition reportedAddress (e : SubstrateEvent) : option string :=
  match evmContractAddress e with Ok a => Some a | Err _ => None end.

(** Following the spec: the handlers of one item.  For an event: the
    generic event handlers, wildcard before exact name, then the
    specialized kinds: EVM log (by contract address, subject to the topic
    filter), contract-emitted, message-enqueued, message-sent.  For a
    call: wildcard before exact name, a handler running only if the call
    succeeded or the handler has the failed-call flag. *)
Definition spec_itemOrder (hs : DataHandlers) (item : Item)
    : list Invocation :=
  match item with
  | EventItem e =>
      ((λ h, EventCall h e) <$> handlersAt (dh_events hs) "*")
      ++ ((λ h, EventCall h e) <$> handlersAt (dh_events hs) (event_name e))
      ++ (if bool_decide (event_name e = "EVM.Log") then
            match reportedAddress e ≫= (dh_evmLogs hs !!.) with
            | Some entries =>
                entries ≫= (λ h,
                  if filterMatches (log_filter h) (reportedTopics e)
                  then [EvmLogCall (log_handler h) e] else [])
            | None => []
            end
          else [])
      ++ ((λ h, ContractEmittedCall h e)
            <$> getContractEmittedHandlers hs e)
      ++ ((λ h, GearMessageEnqueuedCall h e)
            <$> getGearMessageEnqueuedHandlers hs e)
      ++ ((λ h, GearUserMessageSentCall h e)
            <$> match getGearUserMessageSentHandlers hs e with
                | Ok sent => sent
                | Err _ => []
                end)
  | CallItem c =>
      (λ h, CallCall (handler h) c)
        <$> filter (λ h, triggers c h = true)
              (handlersAt (dh_calls hs) "*"
               ++ handlersAt (dh_calls hs) (call_name c))
  | OtherItem => []
  end.

(** Following the spec: all [pre] handlers, each seeing the whole item
    list; then the items in source order; then all [post] handlers, each
    seeing the whole item list. *)
Definition spec_dispatchOrder (hs : DataHandlers) (block : BlockData)
    : list Invocation :=
  ((λ h, PreHook h (items block)) <$> handlers (dh_pre hs))
  ++ (items block ≫= spec_itemOrder hs)
  ++ ((λ h, PostHook h (items block)) <$> handlers (dh_post hs)).

(** *** The processing of a block, step by step

    What the dispatch rules say, written without the engine's own lookup
    functions: the processing of a block is a fixed sequence of steps,
    each a call of a callback or the point where the engine gives up on
    an item it cannot take apart; the steps are taken in order until a
    callback throws or the engine gives up. *)

Inductive Step : Type :=
  | Call (i : Invocation)
  | GiveUp (e : Error).

(** Following the spec: the handlers registered under a key, in the order
    of their list; none when nothing is registered under the key. *)
Definition spec_registered {H} (m : gmap string (Handlers H))
    (key : string) : list H :=
  default [] (handlers <$> m !! key).

(** Following the spec: the key a specialized handler is looked up
    under, taken from the event; a property the event does not have reads
    as [undefined], which as a key is the string ["undefined"]. *)
Definition spec_key (k : option string) : string :=
  match k with Some key => key | None => "undefined" end.

(** Following the spec: the contract address of an EVM log is
    [args.address] or, for a log that has none (or an empty one),
    [args.log.address]; reading the latter gives up with a type error
    when there is no [args.log], and with a failed assertion when
    [args.log] has no address. *)
Definition spec_logAddress (e : SubstrateEvent) : Error + string :=
  let args := event_args e in
  let inner :=
    match args_log args with
    | Some l =>
        match log_address l with
        | Some a => inr a
        | None => inl AssertionFailed
        end
    | None => inl TypeError
    end in
  match args_address args with
  | Some EmptyString => inner
  | Some a => inr a
  | None => inner
  end.

Definition isAny (set : EvmTopicSet) : bool :=
  match set with TopicAny => true | _ => false end.

(** Following the spec: the step an EVM log entry contributes: its
    handler is called when it has no filter or the filter matches the
    log's topics.  The topics are [args.topics]; for a log without them a
    filter of undefined entries only still matches, and any other filter
    makes the engine give up with a type error. *)
Definition spec_logStep (e : SubstrateEvent) (h : EvmLogEntry) : list Step :=
  match log_filter h with
  | None => [Call (EvmLogCall (log_handler h) e)]
  | Some sets =>
      match args_topics (event_args e) with
      | Some topics =>
          if matchesFrom 0 sets topics
          then [Call (EvmLogCall (log_handler h) e)] else []
      | None =>
          if forallb isAny sets
          then [Call (EvmLogCall (log_handler h) e)]
          else [GiveUp TypeError]
      end
  end.

(** Following the spec: the steps of one item.  An event: the generic
    handlers under [*], then those under the event's name; then, for the
    event of the well-known name of a specialized kind, the handlers of
    that kind under the event's derived key.  A call: the handlers under
    [*], then those under the call's name, each only if the call succeeded
    or the handler has the failed-call flag.  Anything else: the engine
    gives up. *)
Definition spec_itemPlan (hs : DataHandlers) (item : Item) : list Step :=
  match item with
  | EventItem e =>
      ((λ h, Call (EventCall h e)) <$> spec_registered (dh_events hs) "*")
      ++ ((λ h, Call (EventCall h e))
            <$> spec_registered (dh_events hs) (event_name e))
      ++ (if bool_decide (event_name e = "EVM.Log") then
            match spec_logAddress e with
            | inl err => [GiveUp err]
            | inr address =>
                default [] (dh_evmLogs hs !! address) ≫= spec_logStep e
            end
          else [])
      ++ (if bool_decide (event_name e = "Contracts.ContractEmitted") then
            (λ h, Call (ContractEmittedCall h e))
              <$> spec_registered (dh_contractsContractEmitted hs)
                    (spec_key (args_contract (event_args e)))
          else [])
      ++ (if bool_decide (event_name e = "Gear.MessageEnqueued") then
            (λ h, Call (GearMessageEnqueuedCall h e))
              <$> spec_registered (dh_gearMessageEnqueued hs)
                    (spec_key (args_destination (event_args e)))
          else [])
      ++ (if bool_decide (event_name e = "Gear.UserMessageSent") then
            match args_message (event_args e) with
            | Some m =>
                (λ h, Call (GearUserMessageSentCall h e))
                  <$> spec_registered (dh_gearUserMessageSent hs)
                        (spec_key (message_source m))
            | None => [GiveUp TypeError]
            end
          else [])
  | CallItem c =>
      (λ h, Call (CallCall (handler h) c))
        <$> filter (λ h, call_success c = true
                         ∨ triggerForFailedCalls h = Some true)
              (spec_registered (dh_calls hs) "*"
               ++ spec_registered (dh_calls hs) (call_name c))
  | OtherItem => [GiveUp UnexpectedCase]
  end.


(** Taking the steps of a plan: a call works on the store the call before
    it left and is recorded; the first call that throws, or the first
    point where the engine gives up, ends the processing with that error,
    the store being what the calls before left. *)
Fixpoint runPlan (plan : list Step) (w : World) : Result unit * World :=
  match plan with
  | [] => (Ok tt, w)
  | Call i :: rest =>
      match behaviour i (store w) with
      | Ok s => runPlan rest (mkWorld s (trace w ++ [i]))
      | Err e => (Err e, mkWorld (store w) (trace w ++ [i]))
      end
  | GiveUp e :: _ => (Err e, w)
  end.

(** A computation takes the steps of a plan. *)
Definition follows (m : Run unit) (plan : list Step) : Prop :=
  ∀ w, m w = runPlan plan w.

(** A computation makes the calls [expected], in that order: all of them
    when it returns, the first few of them when it throws. *)
Definition makesCalls {A} (m : Run A) (expected : list Invocation) : Prop :=
  ∀ w res w', m w = (res, w') →
    ∃ made, trace w' = trace w ++ made ∧
            made `prefix_of` expected ∧
            (∀ a, res = Ok a → made = expected).

(** What a sequence of calls does to the store: each call works on the
    store the call before it left, and the sequence stops at the first
    call that throws. *)
Fixpoint replay (made : list Invocation) (s : Store) : Result Store :=
  match made with
  | [] => Ok s
  | i :: rest =>
      match behaviour i s with
      | Ok s' => replay rest s'
      | Err e => Err e
      end
  end.

(** A computation passes the store from call to call: the calls it makes,
    replayed from the store it starts with, give the store it ends with;
    when it throws what a callback threw, that callback is the last call
    made and the store is the one the calls before it left. *)
Definition threads {A} (m : Run A) : Prop :=
  ∀ w res w', m w = (res, w') →
    ∃ made, trace w' = trace w ++ made ∧
      match res with
      | Ok _ => replay made (store w) = Ok (store w')
      | Err e =>
          replay made (store w) = Ok (store w')
          ∨ ∃ made' i, made = made' ++ [i] ∧
              replay made' (store w) = Ok (store w') ∧
              behaviour i (store w') = Err e
      end.

(** A computation returns from every state. *)
Definition completes {A} (m : Run A) : Prop :=
  ∀ w, ∃ a w', m w = (Ok a, w').

(** An item the engine cannot take apart: one that is neither an event
    nor a call, an [EVM.Log] event whose contract address cannot be read,
    a [Gear.UserMessageSent] event without [args.message]. *)
Definition unreadable (item : Item) : Prop :=
  match item with
  | EventItem e =>
      (event_name e = "EVM.Log" ∧ ∃ err, evmContractAddress e = Err err)
      ∨ (event_name e = "Gear.UserMessageSent"
         ∧ args_message (event_args e) = None)
  | CallItem _ => False
  | OtherItem => True
  end.

(** An item the engine can take apart whatever the handlers are: a call,
    or an event that, when it is an [EVM.Log], has a contract address and
    topics and, when it is a [Gear.UserMessageSent], has a message. *)
Definition readable (item : Item) : Prop :=
  match item with
  | EventItem e =>
      (event_name e = "EVM.Log" →
       (∃ a, evmContractAddress e = Ok a)
       ∧ ∃ topics, args_topics (event_args e) = Some topics)
      ∧ (event_name e = "Gear.UserMessageSent" →
         ∃ m, args_message (event_args e) = Some m)
  | CallItem _ => True
  | OtherItem => False
  end.

(** ** The store and the watermark *)

(** A call of [transact], with the heights it was keyed by and whether it
    committed. *)
Record Transaction := mkTransaction {
  tx_from : Z;
  tx_to : Z;
  tx_committed : bool
}.

(** The runner's state: the watermark, what the store has committed, the
    transactions opened on it, and the calls of callbacks made. *)
Record Runner := mkRunner {
  lastBlock : Z;
  committed : Store;
  transactions : list Transaction;
  calls : list Invocation
}.

(** Modelled from the spec: [Database.transact] of [interfaces/db], the
    store collaborator: it executes [fn] with a scoped state handle and
    commits if and only if [fn] completes without error. *)
Definition transact {A} (fromHeight toHeight : Z) (fn : Run A) (r : Runner)
    : Result A * Runner :=
  match fn (mkWorld (committed r) (calls r)) with
  | (Ok a, w) =>
      (Ok a,
       mkRunner (lastBlock r) (store w)
         (transactions r ++ [mkTransaction fromHeight toHeight true])
         (trace w))
  | (Err e, w) =>
      (Err e,
       mkRunner (lastBlock r) (committed r)
         (transactions r ++ [mkTransaction fromHeight toHeight false])
         (trace w))
  end.

(** [processBatch]: the loop over [blocks]. *)
Fixpoint processBatch (hs : DataHandlers) (blocks : list BlockData)
    (r : Runner) : Result unit * Runner :=
  match blocks with
  | [] => (Ok tt, r)
  | block :: blocks' =>
      if lastBlock r <? height (header block) then
        let height := height (header block) in
        match transact height height (processBlock hs block) r with
        | (Ok _, r') =>
            processBatch hs blocks'
              (mkRunner height (committed r') (transactions r') (calls r'))
        | (Err e, r') =>
            (Err (withErrorContext height (hash (header block)) e), r')
        end
      else (Err AssertionFailed, r)
  end.

End dispatch.

Arguments mkWorld {Store} store trace.
Arguments store {Store} _.
Arguments trace {Store} _.
Arguments raise {Store A} e.
Arguments lift {Store A} r.
Arguments invoke {Store} behaviour i.
Arguments forEach {Store A} l body.
Arguments forEvmLogHandlers {Store} evmLogs e body.
Arguments processItem {Store} behaviour hs item.
Arguments processBlock {Store} behaviour hs block.
Arguments makesCalls {Store A} m expected.
Arguments runPlan {Store} behaviour plan w.
Arguments follows {Store} behaviour m plan.
Arguments replay {Store} behaviour made s.
Arguments threads {Store} behaviour {A} m.
Arguments completes {Store A} m.
Arguments mkRunner {Store} lastBlock committed transactions calls.
Arguments lastBlock {Store} _.
Arguments committed {Store} _.
Arguments transactions {Store} _.
Arguments calls {Store} _.
Arguments transact {Store A} fromHeight toHeight fn r.
Arguments processBatch {Store} behaviour hs blocks r.

(** ** Sample data *)

Definition sampleHandlers : DataHandlers :=
  {| dh_pre := mkHandlers [1%nat] None;
     dh_post := mkHandlers [9%nat] None;
     dh_events :=
       {[ "*" := mkHandlers [2%nat] None;
          "Balances.Transfer" := mkHandlers [3%nat] None ]};
     dh_calls :=
       {[ "*" := mkHandlers [mkCallHandlerEntry 4%nat None] None;
          "Balances.transfer" :=
            mkHandlers [mkCallHandlerEntry 5%nat (Some true);
                        mkCallHandlerEntry 6%nat None] None ]};
     dh_evmLogs :=
       {[ "0xabc" :=
            [mkEvmLogEntry (Some [TopicAny; TopicOne "0xABC"]) 7%nat;
             mkEvmLogEntry (Some [TopicOneOf ["0xDEF"]]) 8%nat] ]};
     dh_contractsContractEmitted := ∅;
     dh_gearMessageEnqueued := ∅;
     dh_gearUserMessageSent := ∅ |}.

Definition noArgs : EventArgs := mkEventArgs None None None None None None.

Definition transferEvent : SubstrateEvent :=
  mkEvent "Balances.Transfer" "0000000010-000001" noArgs.

(** An EVM log at contract ["0xabc"] with topics ["0x1"] and ["0xABC"]. *)
Definition evmLogEvent : SubstrateEvent :=
  mkEvent "EVM.Log" "0000000010-000002"
    (mkEventArgs (Some "0xabc") None (Some ["0x1"; "0xABC"]) None None None).

(** The same log in the shape that keeps its data under [args.log]: the
    address is at [args.log.address] and there is no [args.topics]. *)
Definition evmLogInner : SubstrateEvent :=
  mkEvent "EVM.Log" "0000000010-000002"
    (mkEventArgs None (Some (mkEvmLogInner (Some "0xabc"))) None
       None None None).

Definition failedTransfer : SubstrateCall :=
  mkCall "Balances.transfer" "0000000010-000003" false.

Definition block10 : BlockData :=
  mkBlock (mkHeader 10 "0x0a")
    [EventItem transferEvent; EventItem evmLogEvent; CallItem failedTransfer].

Definition block11 : BlockData := mkBlock (mkHeader 11 "0x0b") [].

(** Callbacks on a counter: each call adds one, except that a [pre] hook
    throws on a block without items. *)
Definition countingBehaviour (i : Invocation) (s : nat) : Result nat :=
  match i with
  | PreHook _ [] => Err (HandlerError "boom")
  | _ => Ok (S s)
  end.

(** A runner about to start at height 10. *)
Definition runnerAt9 : Runner nat := mkRunner 9 0%nat [] [].

(** Callbacks on a counter that never throw. *)
Definition tallyBehaviour (i : Invocation) (s : nat) : Result nat :=
  Ok (S s).

(** A block with an item that is neither an event nor a call. *)
Definition strayBlock : BlockData := mkBlock (mkHeader 12 "0x0c") [OtherItem].

(** A setting without built-in types bundles and without bundle files. *)
Definition noBundles : string → option OldTypesBundle := λ _, None.

(** A processor with one EVM log handler, registered for ["0xABC"]. *)
Definition evmProcessor : SubstrateProcessor :=
  (configure noBundles noBundles
     (AddEvmLogHandler "0xABC" (JustHandler 7%nat)) newProcessor).2.

Definition archiveOnly : DataSource := mkDataSource "https://archive.a" None.
Definition archiveAndChain : DataSource :=
  mkDataSource "https://archive.b" (Some "wss://chain.b").

End Processor.

(** * The batch scheduler: theorems *)

Module SchedulerTheory.
Import Scheduler.

(** ** The ordered-list queue obeys the heap laws *)

Lemma extractMin_perm {A} (cmp : A → A → Z) x l :
  x :: l ≡ₚ (extractMin cmp x l).1 :: (extractMin cmp x l).2.
Proof.
  revert x. induction l as [|y l IH]; intros x; simpl; [done|].
  specialize (IH y). destruct (extractMin cmp y l) as [m rest]; simpl in *.
  destruct (cmp m x <? 0); simpl; [|done].
  rewrite IH. apply Permutation_swap.
Qed.

Lemma extractMin_least {A} (cmp : A → A → Z) `{!Comparator cmp} x l :
  Forall (λ y, cmp (extractMin cmp x l).1 y <= 0) (extractMin cmp x l).2.
Proof.
  revert x. induction l as [|y l IH]; intros x; simpl; [constructor|].
  specialize (IH y). pose proof (extractMin_perm cmp y l) as Hp.
  destruct (extractMin cmp y l) as [m rest]; simpl in *.
  destruct (Z.ltb_spec (cmp m x) 0) as [Hlt|Hge]; simpl.
  - constructor; [lia|done].
  - rewrite Hp. apply cmp_flip in Hge.
    constructor; [done|].
    eapply Forall_impl; [exact IH|]. simpl. intros z Hz.
    by apply (cmp_trans x m z).
Qed.

#[export] Instance ListHeap_laws {A} (cmp : A → A → Z) `{!Comparator cmp} :
  HeapLaws cmp (ListHeap A).
Proof.
  split; simpl.
  - done.
  - intros x h. by rewrite Permutation_app_comm.
  - by intros [|x l].
  - intros [|y l] x h'; [done|]. intros [= Heq].
    pose proof (extractMin_perm cmp y l) as Hp.
    pose proof (extractMin_least cmp y l) as Hl.
    rewrite Heq in Hp, Hl. done.
  - by intros [|x l].
Qed.

#[export] Instance byFrom_comparator : Comparator byFrom.
Proof. split; unfold byFrom; intros; lia. Qed.

(** ** Range arithmetic *)

Lemma contains_true r h :
  contains r h = true ↔
  from r <= h ∧ match to r with Some e => h <= e | None => True end.
Proof.
  unfold contains. rewrite andb_true_iff, Z.leb_le.
  destruct (to r); [rewrite Z.leb_le|]; tauto.
Qed.

Lemma contains_wf r h : contains r h = true → range_wf r.
Proof.
  rewrite contains_true. unfold range_wf. destruct (to r); [lia|done].
Qed.

Lemma rangeIntersection_Some a b i :
  rangeIntersection a b = Some i →
  from i = Z.max (from a) (from b) ∧ to i = min_end (to a) (to b) ∧
  range_wf i.
Proof.
  unfold rangeIntersection, range_wf.
  destruct (min_end (to a) (to b)) as [e|] eqn:He.
  - destruct (Z.ltb_spec e (Z.max (from a) (from b))); [done|].
    intros [= <-]; simpl. done.
  - intros [= <-]; simpl. done.
Qed.

Lemma rangeIntersection_None a b :
  rangeIntersection a b = None →
  ∃ e, min_end (to a) (to b) = Some e ∧ e < Z.max (from a) (from b).
Proof.
  unfold rangeIntersection.
  destruct (min_end (to a) (to b)) as [e|] eqn:He; [|done].
  destruct (Z.ltb_spec e (Z.max (from a) (from b))); [|done].
  eauto.
Qed.

Lemma contains_intersection a b i h :
  rangeIntersection a b = Some i →
  contains i h = contains a h && contains b h.
Proof.
  intros Hi. destruct (rangeIntersection_Some _ _ _ Hi) as (Hf & Ht & Hwf).
  unfold contains. rewrite Hf, Ht.
  destruct (to a) as [ea|], (to b) as [eb|]; simpl;
    repeat match goal with
           | |- context [?x <=? ?y] => destruct (Z.leb_spec x y)
           end; simpl; try done; lia.
Qed.

Lemma disjoint_intersection a b h :
  rangeIntersection a b = None →
  ¬ (contains a h = true ∧ contains b h = true).
Proof.
  intros (e & He & Hlt)%rangeIntersection_None.
  rewrite !contains_true.
  destruct (to a) as [ea|], (to b) as [eb|]; simpl in *;
    simplify_eq; lia.
Qed.

(** Two well-formed ranges that do not intersect, the first starting no
    later than the second: the first ends below the second. *)
Lemma disjoint_before a b :
  range_wf a → range_wf b → from a <= from b →
  rangeIntersection a b = None → before a b.
Proof.
  unfold range_wf, before.
  intros Ha Hb Hle (e & He & Hlt)%rangeIntersection_None.
  destruct (to a) as [ea|], (to b) as [eb|]; simpl in *;
    simplify_eq; lia.
Qed.

Lemma before_disjoint a b :
  before a b → rangeIntersection a b = None.
Proof.
  unfold before, rangeIntersection.
  destruct (to a) as [ea|]; [|done]. intros Hlt.
  destruct (to b) as [eb|]; simpl.
  - destruct (Z.ltb_spec (Z.min ea eb) (Z.max (from a) (from b))); [done|lia].
  - destruct (Z.ltb_spec ea (Z.max (from a) (from b))); [done|lia].
Qed.

(** The overlap of [a] with anything is its own overlap with [a]. *)
Lemma rangeIntersection_absorb_l a b i :
  rangeIntersection a b = Some i → rangeIntersection a i = Some i.
Proof.
  intros Hi. destruct (rangeIntersection_Some _ _ _ Hi) as (Hf & Ht & Hwf).
  unfold rangeIntersection, range_wf in *. destruct i as [fi ti].
  simpl in *. subst.
  replace (Z.max (from a) (Z.max (from a) (from b)))
    with (Z.max (from a) (from b)) by lia.
  assert (min_end (to a) (min_end (to a) (to b)) = min_end (to a) (to b))
    as ->; [|done].
  destruct (to a) as [ea|], (to b) as [eb|]; simpl; try done; f_equal; lia.
Qed.

Lemma rangeIntersection_comm a b :
  rangeIntersection a b = rangeIntersection b a.
Proof.
  unfold rangeIntersection.
  rewrite (Z.max_comm (from a)).
  assert (min_end (to a) (to b) = min_end (to b) (to a)) as ->; [|done].
  destruct (to a), (to b); simpl; try done. by rewrite Z.min_comm.
Qed.

Lemma rangeIntersection_absorb_r a b i :
  rangeIntersection a b = Some i → rangeIntersection b i = Some i.
Proof.
  rewrite rangeIntersection_comm. apply rangeIntersection_absorb_l.
Qed.

(** ** Merging handler registries *)

(** What the two loops of [mergeMaps] compute, key by key. *)
Lemma lookup_mergeMaps {T} (a b : gmap string T) (f : T → T → T) key :
  mergeMaps a b f !! key =
  match a !! key, b !! key with
  | Some va, Some vb => Some (f va vb)
  | Some va, None => Some va
  | None, Some vb => Some vb
  | None, None => None
  end.
Proof.
  unfold mergeMaps.
  set (first := map_fold _ ∅ a).
  assert (first !! key =
          match a !! key with
          | Some va => Some (match b !! key with
                             | Some vb => f va vb
                             | None => va
                             end)
          | None => None
          end) as Hfirst.
  { subst first. revert key.
    apply (map_fold_weak_ind (λ (r : gmap string T) (m : gmap string T),
      ∀ key, r !! key =
             match m !! key with
             | Some va => Some (match b !! key with
                                | Some vb => f va vb
                                | None => va
                                end)
             | None => None
             end)).
    - intros key. by rewrite !lookup_empty.
    - intros i x m r Hi IH key.
      destruct (decide (i = key)) as [->|Hne].
      + rewrite lookup_insert_eq.
        destruct (b !! key); by rewrite lookup_insert_eq.
      + rewrite (lookup_insert_ne m) by done. rewrite <- IH.
        destruct (b !! i); by rewrite lookup_insert_ne. }
  assert (∀ r0 : gmap string T,
    map_fold (λ key vb (result : gmap string T),
                match result !! key with
                | None => <[key := vb]> result
                | Some _ => result
                end) r0 b !! key =
    match r0 !! key with Some v => Some v | None => b !! key end) as Hsecond.
  { intros r0. clear Hfirst. revert key.
    apply (map_fold_weak_ind (λ (r : gmap string T) (m : gmap string T),
      ∀ key, r !! key =
             match r0 !! key with Some v => Some v | None => m !! key end)).
    - intros key. rewrite lookup_empty. by destruct (r0 !! key).
    - intros i x m r Hi IH key.
      destruct (decide (i = key)) as [->|Hne].
      + rewrite lookup_insert_eq. pose proof (IH key) as IHk.
        destruct (r !! key) eqn:Hr.
        * rewrite Hr. destruct (r0 !! key); [done|]. congruence.
        * rewrite lookup_insert_eq. destruct (r0 !! key); [done|]. done.
      + rewrite (lookup_insert_ne m) by done. rewrite <- IH.
        destruct (r !! i); [done|]. by rewrite lookup_insert_ne. }
  rewrite Hsecond, Hfirst.
  by destruct (a !! key), (b !! key).
Qed.

(** Seen slot by slot, merging is concatenation. *)
Lemma slot_mergeDataHandlers a b s :
  slot (mergeDataHandlers a b) s = slot a s ++ slot b s.
Proof.
  destruct s as [| |name|event extrinsic|address]; simpl.
  - by rewrite fmap_app.
  - by rewrite fmap_app.
  - rewrite lookup_mergeMaps, <- fmap_app. f_equal.
    destruct (events a !! name), (events b !! name); simpl;
      by rewrite ?app_nil_r.
  - rewrite lookup_mergeMaps, <- fmap_app. f_equal.
    destruct (extrinsics a !! event) as [ea|],
             (extrinsics b !! event) as [eb|]; simpl;
      rewrite ?app_nil_r; try done.
    rewrite lookup_mergeMaps.
    destruct (ea !! extrinsic), (eb !! extrinsic); simpl;
      by rewrite ?app_nil_r.
  - rewrite lookup_mergeMaps, <- fmap_app. f_equal.
    destruct (evmLogs a !! address), (evmLogs b !! address); simpl;
      by rewrite ?app_nil_r.
Qed.

(** ** The pieces [rangeDifference] leaves *)

Lemma intersection_within M a b i :
  within M a → within M b → rangeIntersection a b = Some i → within M i.
Proof.
  intros Ha Hb Hi.
  destruct (rangeIntersection_Some _ _ _ Hi) as (Hf & Ht & Hwf).
  unfold within, range_wf in *. rewrite Hf, Ht in *.
  destruct (to a), (to b); simpl in *; lia.
Qed.

Lemma within_wf M r : within M r → range_wf r.
Proof. unfold within, range_wf. destruct (to r); [lia|done]. Qed.

Lemma span_pos M r : within M r → (0 < span M r)%nat.
Proof. unfold within, span. destruct (to r); simpl; lia. Qed.

(** For [i] an overlap of [a] with some range: the pieces of [a] outside
    [i] are well-formed, start no earlier than [a], make up the span of
    [a] together with [i], and a height of [a] outside [i] lies in exactly
    one of them. *)
Lemma difference_pieces M a i :
  rangeIntersection a i = Some i → within M a → within M i →
  Forall (within M) (rangeDifference a i) ∧
  Forall (λ p, from a <= from p) (rangeDifference a i) ∧
  (sum_list_with (span M) (rangeDifference a i) + span M i = span M a)%nat ∧
  ∀ h {X} (x : list X),
    rangeDifference a i ≫= (λ p, if contains p h then x else []) =
    if contains a h && negb (contains i h) then x else [].
Proof.
  intros Hi Ha Hin.
  destruct (rangeIntersection_Some _ _ _ Hi) as (Hf & Ht & Hwf).
  unfold rangeDifference. rewrite Hi. clear Hi.
  unfold within, range_wf, span, contains in *.
  destruct a as [fa ta], i as [fi ti]; simpl in *.
  destruct (Z.ltb_spec fa fi) as [Hlt|Hge];
    destruct ti as [e|], ta as [ea|]; simpl in *; simplify_eq;
    try (destruct (Z.ltb_spec e ea)); simpl;
    rewrite ?Forall_cons, ?Forall_nil; simpl;
    repeat split; try lia;
    (intros h X x; simpl;
    repeat match goal with
           | |- context [?u <=? ?v] => destruct (Z.leb_spec u v)
           end; simpl; rewrite ?app_nil_r; try done; lia).
Qed.

(** ** Heights covered and handlers active *)

Lemma activeAt_app h s l1 l2 :
  activeAt h s (l1 ++ l2) = activeAt h s l1 ++ activeAt h s l2.
Proof. unfold activeAt. apply bind_app. Qed.

Lemma activeAt_cons h s b l :
  activeAt h s (b :: l) =
  (if contains (range b) h then slot (handlers b) s else [])
  ++ activeAt h s l.
Proof. done. Qed.

#[export] Instance activeAt_perm h s :
  Proper ((≡ₚ) ==> (≡ₚ)) (activeAt h s).
Proof. intros l1 l2 Hl. unfold activeAt. by rewrite Hl. Qed.

Lemma coveredAt_app h l1 l2 :
  coveredAt h (l1 ++ l2) ↔ coveredAt h l1 ∨ coveredAt h l2.
Proof.
  unfold coveredAt. split.
  - intros (b & [Hb|Hb]%elem_of_app & Hc); eauto.
  - intros [(b & Hb & Hc)|(b & Hb & Hc)]; exists b;
      rewrite elem_of_app; eauto.
Qed.

Lemma coveredAt_cons h b l :
  coveredAt h (b :: l) ↔ contains (range b) h = true ∨ coveredAt h l.
Proof.
  unfold coveredAt. split.
  - intros (b' & [->|Hb]%elem_of_cons & Hc); eauto.
  - intros [Hc|(b' & Hb & Hc)]; [exists b|exists b'];
      rewrite elem_of_cons; eauto.
Qed.

Lemma coveredAt_nil h : coveredAt h [] ↔ False.
Proof.
  unfold coveredAt. split; [|done].
  intros (b & Hb & _). by apply elem_of_nil in Hb.
Qed.

#[export] Instance coveredAt_perm h :
  Proper ((≡ₚ) ==> iff) (coveredAt h).
Proof.
  intros l1 l2 Hl. unfold coveredAt.
  by setoid_rewrite Hl.
Qed.

(** The pieces of a batch outside an overlap, as batches. *)
Lemma activeAt_pieces M a i hs h s :
  rangeIntersection a i = Some i → within M a → within M i →
  activeAt h s ((λ p, mkBatch p hs) <$> rangeDifference a i) =
  if contains a h && negb (contains i h) then slot hs s else [].
Proof.
  intros Hi Ha Hin.
  destruct (difference_pieces M a i Hi Ha Hin) as (_ & _ & _ & Hh).
  rewrite <- (Hh h _ (slot hs s)).
  unfold activeAt. generalize (rangeDifference a i).
  induction l as [|p l IH]; simpl; [done|]. by f_equal.
Qed.

Lemma coveredAt_pieces M a i hs h :
  rangeIntersection a i = Some i → within M a → within M i →
  coveredAt h ((λ p, mkBatch p hs) <$> rangeDifference a i) ↔
  contains a h = true ∧ contains i h = false.
Proof.
  intros Hi Ha Hin.
  destruct (difference_pieces M a i Hi Ha Hin) as (_ & _ & _ & Hh).
  specialize (Hh h _ [()]).
  assert (coveredAt h ((λ p, mkBatch p hs) <$> rangeDifference a i) ↔
          rangeDifference a i ≫= (λ p, if contains p h then [()] else [])
          ≠ []) as ->.
  { clear Hh. generalize (rangeDifference a i).
    induction l as [|p l IH]; simpl.
    - rewrite coveredAt_nil. tauto.
    - rewrite coveredAt_cons, IH. simpl.
      destruct (contains p h); simpl; intuition congruence. }
  rewrite Hh.
  destruct (contains a h), (contains i h); simpl; intuition congruence.
Qed.

(** ** Ordered batch lists *)

Lemma StronglySorted_lookup {A} (R : relation A) l : ∀ i j a b,
  StronglySorted R l → (i < j)%nat →
  l !! i = Some a → l !! j = Some b → R a b.
Proof.
  induction l as [|x l IH]; intros i j a b Hs Hij Hi Hj; [done|].
  apply StronglySorted_cons in Hs as [Hx Hl].
  destruct j as [|j]; [lia|]. simpl in Hj.
  destruct i as [|i]; simpl in Hi.
  - simplify_eq. apply (proj1 (Forall_forall _ _) Hx).
    by eapply list_elem_of_lookup_2.
  - apply (IH i j); [done|lia|done|done].
Qed.

Lemma before_apart a b h :
  before a b → ¬ (contains a h = true ∧ contains b h = true).
Proof.
  unfold before. rewrite !contains_true.
  destruct (to a); [lia|tauto].
Qed.

Lemma ordered_sortedByFrom bs :
  Forall (λ b, range_wf (range b)) bs → ordered bs → sortedByFrom bs.
Proof.
  unfold ordered, sortedByFrom.
  induction 1 as [|x l Hx Hl IH]; intros Hs; [constructor|].
  apply StronglySorted_cons in Hs as [Hbx Hsl].
  constructor; [by apply IH|].
  destruct l as [|y l]; constructor.
  apply Forall_cons in Hbx as [Hxy _].
  unfold before, range_wf in *. destruct (to (range x)); [lia|done].
Qed.

Lemma ordered_nonOverlapping bs : ordered bs → nonOverlapping bs.
Proof.
  intros Hs i j a b h Hij Hi Hj.
  apply before_apart.
  apply (StronglySorted_lookup _ bs i j a b Hs Hij Hi Hj).
Qed.

(** In an ordered list a height lies in at most one batch. *)
Lemma ordered_unique bs a b h :
  ordered bs → a ∈ bs → b ∈ bs →
  contains (range a) h = true → contains (range b) h = true → a = b.
Proof.
  intros Hs [i Hi]%list_elem_of_lookup [j Hj]%list_elem_of_lookup Ha Hb.
  destruct (Nat.lt_trichotomy i j) as [Hlt|[->|Hgt]].
  - by destruct (ordered_nonOverlapping bs Hs i j a b h).
  - congruence.
  - by destruct (ordered_nonOverlapping bs Hs j i b a h).
Qed.

(** Sorted by [from], pairwise non-overlapping and well-formed is
    ordered. *)
Lemma normalized_ordered bs :
  sortedByFrom bs → nonOverlapping bs →
  Forall (λ b, range_wf (range b)) bs → ordered bs.
Proof.
  unfold sortedByFrom, ordered.
  induction bs as [|x l IH]; intros Hs Hno Hwf; [constructor|].
  apply Forall_cons in Hwf as [Hx Hl].
  assert (StronglySorted (λ a b, from (range a) <= from (range b)) (x :: l))
    as Hss.
  { apply Sorted_StronglySorted; [|done]. intros a b c. lia. }
  apply StronglySorted_cons in Hss as [Hfrom _].
  constructor.
  - apply IH; [by inversion Hs| |done].
    intros i j a b h Hij Hi Hj. apply (Hno (S i) (S j)); [lia|done|done].
  - apply Forall_forall. intros y Hy.
    pose proof (proj1 (Forall_forall _ _) Hfrom y Hy) as Hle.
    pose proof (proj1 (Forall_forall _ _) Hl y Hy) as Hwy.
    apply list_elem_of_lookup in Hy as [j Hj].
    pose proof (Hno 0%nat (S j) x y (from (range y))) as Hapart.
    rewrite !contains_true in Hapart.
    unfold before, range_wf in *.
    destruct (to (range x)) as [e|], (to (range y)) as [e'|];
      try destruct (decide (e < from (range y))); try done;
      exfalso; apply Hapart; try done; simpl; lia.
Qed.

(** ** The batches of the registrations *)

Lemma getRange_contains br hr r h :
  getRange br hr = Some r → contains r h = applies br hr h.
Proof.
  unfold getRange, applies, requested, inRun.
  destruct br as [br|].
  - apply contains_intersection.
  - intros [= <-]. by rewrite andb_true_r.
Qed.

Lemma getRange_None br hr h :
  getRange br hr = None → applies br hr h = false.
Proof.
  unfold getRange, applies, requested, inRun.
  destruct br as [br|]; [|done]. intros Hi.
  apply (disjoint_intersection _ _ h) in Hi.
  destruct (contains (default (mkRange 0 None) hr) h), (contains br h);
    simpl; try done. by destruct Hi.
Qed.

Lemma getRange_wf br hr r :
  range_wf (requested hr) → getRange br hr = Some r → range_wf r.
Proof.
  unfold getRange, requested. destruct br as [br|].
  - intros _ Hi. by destruct (rangeIntersection_Some _ _ _ Hi) as (_ & _ & ?).
  - by intros ? [= <-].
Qed.

Section registrations.
Context {K : Type} (rng : K → option Range) (hs : K → DataHandlers).
Context (br : option Range).

Lemma activeAt_batchOf h s (l : list K) :
  activeAt h s (l ≫= (λ k, batchOf br (rng k) (hs k))) =
  l ≫= (λ k, if applies br (rng k) h then slot (hs k) s else []).
Proof.
  unfold activeAt. induction l as [|k l IH]; [done|].
  rewrite !bind_cons, bind_app, IH. f_equal.
  unfold batchOf. destruct (getRange br (rng k)) as [r|] eqn:Hr; simpl.
  - rewrite (getRange_contains _ _ _ h Hr). apply app_nil_r.
  - by rewrite (getRange_None _ _ h Hr).
Qed.

Lemma coveredAt_batchOf h (l : list K) :
  coveredAt h (l ≫= (λ k, batchOf br (rng k) (hs k))) ↔
  (∃ r, r ∈ (requested ∘ rng <$> l) ∧ contains r h = true) ∧
  inRun br h = true.
Proof.
  induction l as [|k l IH].
  - simpl. rewrite coveredAt_nil. split; [done|].
    intros [(r & Hr & _) _]. by apply elem_of_nil in Hr.
  - rewrite bind_cons, fmap_cons, coveredAt_app, IH. clear IH.
    assert (coveredAt h (batchOf br (rng k) (hs k)) ↔
            applies br (rng k) h = true) as ->.
    { unfold batchOf. destruct (getRange br (rng k)) as [r|] eqn:Hr.
      - rewrite coveredAt_cons, coveredAt_nil. simpl.
        rewrite (getRange_contains _ _ _ h Hr). tauto.
      - rewrite coveredAt_nil, (getRange_None _ _ h Hr). done. }
    unfold applies. rewrite andb_true_iff. split.
    + intros [[Hc Hrun]|[(r & Hr & Hc) Hrun]]; (split; [|done]).
      * exists (requested (rng k)). split; [left|done].
      * exists r. split; [by right|done].
    + intros [(r & [->|Hr]%elem_of_cons & Hc) Hrun]; [by left|].
      right. eauto.
Qed.

Lemma batchOf_wf (l : list K) :
  Forall range_wf (requested ∘ rng <$> l) →
  Forall (λ b, range_wf (range b)) (l ≫= (λ k, batchOf br (rng k) (hs k))).
Proof.
  induction l as [|k l IH]; [constructor|].
  rewrite bind_cons, fmap_cons.
  intros [Hk Hl]%Forall_cons. apply Forall_app; split; [|by apply IH].
  unfold batchOf. destruct (getRange br (rng k)) as [r|] eqn:Hr;
    [|constructor].
  repeat constructor. simpl. by eapply getRange_wf.
Qed.

End registrations.

Lemma bind_if_nil {K X} (l : list K) (c : K → bool) :
  l ≫= (λ k, if c k then @nil X else []) = [].
Proof.
  induction l as [|k l IH]; [done|]. rewrite bind_cons, IH.
  by destruct (c k).
Qed.

Lemma bind_if_ext {K X} (l : list K) (c c' : K → bool) (f f' : K → list X) :
  (∀ k, (if c k then f k else []) = (if c' k then f' k else [])) →
  l ≫= (λ k, if c k then f k else []) =
  l ≫= (λ k, if c' k then f' k else []).
Proof.
  intros H. induction l as [|k l IH]; [done|].
  by rewrite !bind_cons, H, IH.
Qed.

(** Collecting handlers from the batches of the registrations is scanning
    the registrations. *)
Lemma activeAt_registered hooks br h s :
  activeAt h s (registeredBatches hooks br) = registeredAt hooks br h s.
Proof.
  unfold registeredBatches, preBatch, postBatch, eventBatch,
    extrinsicBatch, evmLogBatch.
  rewrite !activeAt_app, !activeAt_batchOf.
  destruct s as [| |name|event extrinsic|address]; simpl;
    rewrite ?lookup_empty; simpl; rewrite ?bind_if_nil, ?app_nil_r;
    try done.
  - apply bind_if_ext. intros k.
    destruct (applies br (event_range k) h); simpl; [|done].
    case_bool_decide as Hk.
    + subst. by rewrite lookup_singleton_eq.
    + by rewrite lookup_singleton_ne.
  - apply bind_if_ext. intros k.
    destruct (applies br (extrinsic_range k) h); simpl; [|done].
    case_bool_decide as Hk; simpl.
    + subst. rewrite lookup_singleton_eq. simpl.
      case_bool_decide as Hx.
      * subst. by rewrite lookup_singleton_eq.
      * by rewrite lookup_singleton_ne.
    + by rewrite lookup_singleton_ne.
  - apply bind_if_ext. intros k.
    destruct (applies br (evmLog_range k) h); simpl; [|done].
    case_bool_decide as Hk.
    + subst. by rewrite lookup_singleton_eq.
    + by rewrite lookup_singleton_ne.
Qed.

Lemma coveredAt_registered hooks br h :
  coveredAt h (registeredBatches hooks br) ↔
  (∃ r, r ∈ requestedRanges hooks ∧ contains r h = true) ∧
  inRun br h = true.
Proof.
  unfold registeredBatches, requestedRanges, preBatch, postBatch,
    eventBatch, extrinsicBatch, evmLogBatch.
  rewrite !coveredAt_app, !coveredAt_batchOf.
  setoid_rewrite elem_of_app. setoid_rewrite elem_of_app.
  setoid_rewrite elem_of_app. setoid_rewrite elem_of_app.
  split.
  - intros [H|[H|[H|[H|H]]]]; destruct H as [(r & Hr & Hc) Hrun];
      (split; [exists r; split; [tauto|done]|done]).
  - intros [(r & [Hr|[Hr|[Hr|[Hr|Hr]]]] & Hc) Hrun]; eauto 10.
Qed.

Lemma registered_wf hooks br :
  Forall range_wf (requestedRanges hooks) →
  Forall (λ b, range_wf (range b)) (registeredBatches hooks br).
Proof.
  unfold registeredBatches, requestedRanges, preBatch, postBatch,
    eventBatch, extrinsicBatch, evmLogBatch.
  rewrite !Forall_app. intros (H1 & H2 & H3 & H4 & H5).
  repeat split; by apply batchOf_wf.
Qed.

(** ** The sweep of [mergeBatches] *)

Section sweep.
Context `{!HeapOps Batch} `{!HeapLaws byFrom HeapOps0}.

Lemma heap_items_pushPieces r i hs hp :
  heap_items (pushPieces r i hs hp) ≡ₚ
  ((λ p, mkBatch p hs) <$> rangeDifference r i) ++ heap_items hp.
Proof.
  unfold pushPieces. generalize (rangeDifference r i). intros l.
  revert hp. induction l as [|p l IH]; intros hp; simpl; [done|].
  rewrite IH, heap_items_push. by rewrite Permutation_middle.
Qed.

Lemma heap_peek_Some hp b :
  heap_peek byFrom hp = Some b → ∃ hp', heap_pop byFrom hp = Some (b, hp').
Proof.
  rewrite heap_peek_pop.
  destruct (heap_pop byFrom hp) as [[x hp']|]; simpl; [|done].
  intros [= ->]. eauto.
Qed.

Lemma heap_peek_None hp :
  heap_peek byFrom hp = None → heap_items hp = [].
Proof.
  rewrite heap_peek_pop. intros Hp. apply heap_pop_None.
  by destruct (heap_pop byFrom hp).
Qed.

Lemma heap_pop_nonempty hp b l :
  heap_items hp ≡ₚ b :: l → ∃ top hp', heap_pop byFrom hp = Some (top, hp').
Proof.
  intros Hp. destruct (heap_pop byFrom hp) as [[top hp']|] eqn:Hpop; [eauto|].
  apply heap_pop_None in Hpop. rewrite Hpop in Hp.
  by apply Permutation_nil_cons in Hp.
Qed.

Lemma ordered_snoc union top :
  ordered union → Forall (λ u, before (range u) (range top)) union →
  ordered (union ++ [top]).
Proof.
  intros Hord Hbef. apply StronglySorted_app_2; [|done|repeat constructor].
  intros u t Hu ->%list_elem_of_singleton.
  by apply (proj1 (Forall_forall _ _) Hbef).
Qed.

Lemma before_le a b c : before a b → from b <= from c → before a c.
Proof. unfold before. destruct (to a); [lia|done]. Qed.

(** One overlap resolved: the three kinds of batches pushed back hold the
    same handlers, height by height, as the two batches taken out. *)
Lemma split_activeAt M a b i h s :
  within M (range a) → within M (range b) →
  rangeIntersection (range a) (range b) = Some i →
  activeAt h s
    (mkBatch i (mergeDataHandlers (handlers a) (handlers b))
     :: ((λ p, mkBatch p (handlers b)) <$> rangeDifference (range b) i)
     ++ ((λ p, mkBatch p (handlers a)) <$> rangeDifference (range a) i))
  ≡ₚ activeAt h s [a; b].
Proof.
  intros Ha Hb Hi.
  pose proof (intersection_within _ _ _ _ Ha Hb Hi) as Hin.
  rewrite !activeAt_cons, activeAt_app.
  rewrite (activeAt_pieces M) by eauto using rangeIntersection_absorb_r.
  rewrite (activeAt_pieces M) by eauto using rangeIntersection_absorb_l.
  cbn [range handlers].
  rewrite slot_mergeDataHandlers, (contains_intersection _ _ _ h Hi).
  unfold activeAt at 1. simpl.
  destruct (contains (range a) h), (contains (range b) h); simpl;
    by rewrite ?app_nil_r.
Qed.

Lemma split_coveredAt M a b i h :
  within M (range a) → within M (range b) →
  rangeIntersection (range a) (range b) = Some i →
  coveredAt h
    (mkBatch i (mergeDataHandlers (handlers a) (handlers b))
     :: ((λ p, mkBatch p (handlers b)) <$> rangeDifference (range b) i)
     ++ ((λ p, mkBatch p (handlers a)) <$> rangeDifference (range a) i))
  ↔ coveredAt h [a; b].
Proof.
  intros Ha Hb Hi.
  pose proof (intersection_within _ _ _ _ Ha Hb Hi) as Hin.
  rewrite !coveredAt_cons, coveredAt_app, coveredAt_nil.
  rewrite (coveredAt_pieces M) by eauto using rangeIntersection_absorb_r.
  rewrite (coveredAt_pieces M) by eauto using rangeIntersection_absorb_l.
  cbn [range handlers].
  rewrite (contains_intersection _ _ _ h Hi).
  destruct (contains (range a) h), (contains (range b) h); simpl;
    intuition congruence.
Qed.

#[export] Instance weight_perm M : Proper ((≡ₚ) ==> (=)) (weight M).
Proof. intros l1 l2 Hl. unfold weight. by rewrite Hl. Qed.

Lemma weight_cons M b l :
  weight M (b :: l) = (span M (range b) + weight M l)%nat.
Proof. done. Qed.

Lemma weight_app M l1 l2 :
  weight M (l1 ++ l2) = (weight M l1 + weight M l2)%nat.
Proof. apply sum_list_with_app. Qed.

Lemma weight_pieces M a i hs :
  rangeIntersection a i = Some i → within M a → within M i →
  (weight M ((λ p, mkBatch p hs) <$> rangeDifference a i) + span M i
   = span M a)%nat.
Proof.
  intros Hi Ha Hin.
  destruct (difference_pieces M a i Hi Ha Hin) as (_ & _ & <- & _).
  f_equal. unfold weight. generalize (rangeDifference a i).
  induction l as [|p l IH]; simpl; [done|]. by f_equal.
Qed.

Lemma Forall_pieces (P : Range → Prop) a i hs :
  Forall P (rangeDifference a i) →
  Forall (λ b, P (range b)) ((λ p, mkBatch p hs) <$> rangeDifference a i).
Proof. by rewrite Forall_fmap. Qed.

(** The loop, from any state that satisfies its invariant and with fuel
    above the state's weight, returns; what it returns is ordered and
    holds, height by height, what the state held. *)
Lemma mergeLoop_sound M fuel : ∀ union top hp,
  Forall (λ b, within M (range b)) (top :: heap_items hp) →
  Forall (λ b, from (range top) <= from (range b)) (heap_items hp) →
  ordered union →
  Forall (λ u, before (range u) (range top)) union →
  Forall (λ b, range_wf (range b)) union →
  (weight M (top :: heap_items hp) < fuel)%nat →
  ∃ out, mergeLoop fuel union top hp = Done out ∧
    ordered out ∧
    Forall (λ b, range_wf (range b)) out ∧
    (∀ h, coveredAt h out ↔ coveredAt h (union ++ top :: heap_items hp)) ∧
    (∀ h s, activeAt h s out ≡ₚ
            activeAt h s (union ++ top :: heap_items hp)).
Proof.
  induction fuel as [|fuel IH];
    intros union top hp Hin Hmin Hord Hbef Hwf Hfuel; [lia|].
  simpl. destruct (heap_peek byFrom hp) as [batch|] eqn:Hpeek.
  2: { apply heap_peek_None in Hpeek. rewrite Hpeek in *.
       eexists; split; [done|]. split; [by apply ordered_snoc|].
       split; [|done].
       apply Forall_app; split; [done|]. repeat constructor.
       apply Forall_cons in Hin as [Htop _]. by eapply within_wf. }
  destruct (heap_peek_Some _ _ Hpeek) as [hp' Hpop]. rewrite Hpop.
  destruct (heap_pop_Some _ _ _ Hpop) as [Hitems Hleast].
  rewrite Hitems in Hin, Hmin, Hfuel.
  apply Forall_cons in Hin as [Htop Hin].
  apply Forall_cons in Hin as [Hbatch Hin'].
  apply Forall_cons in Hmin as [Hle Hmin'].
  rewrite !weight_cons in Hfuel.
  destruct (rangeIntersection (range top) (range batch)) as [i|] eqn:Hi.
  - (* the two overlap in [i] *)
    pose proof (intersection_within _ _ _ _ Htop Hbatch Hi) as Hiin.
    pose proof (rangeIntersection_absorb_l _ _ _ Hi) as Hil.
    pose proof (rangeIntersection_absorb_r _ _ _ Hi) as Hir.
    set (merged := mkBatch i (mergeDataHandlers (handlers top) (handlers batch))).
    set (hp4 := heap_push byFrom merged _).
    assert (heap_items hp4 ≡ₚ
            (merged
             :: ((λ p, mkBatch p (handlers batch)) <$> rangeDifference (range batch) i)
             ++ ((λ p, mkBatch p (handlers top)) <$> rangeDifference (range top) i))
            ++ heap_items hp') as Hitems4.
    { subst hp4. rewrite heap_items_push, !heap_items_pushPieces.
      simpl. by rewrite <- app_assoc. }
    destruct (heap_pop_nonempty hp4 _ _ Hitems4) as (top' & hp'' & Hpop4).
    rewrite Hpop4.
    destruct (heap_pop_Some _ _ _ Hpop4) as [Hperm Hleast4].
    assert (top' :: heap_items hp'' ≡ₚ
            (merged
             :: ((λ p, mkBatch p (handlers batch)) <$> rangeDifference (range batch) i)
             ++ ((λ p, mkBatch p (handlers top)) <$> rangeDifference (range top) i))
            ++ heap_items hp') as Hstate by (by rewrite <- Hperm).
    destruct (difference_pieces M _ _ Hil Htop Hiin) as (HwA & HfA & _ & _).
    destruct (difference_pieces M _ _ Hir Hbatch Hiin) as (HwB & HfB & _ & _).
    destruct (rangeIntersection_Some _ _ _ Hi) as (Hfi & _ & _).
    assert (Forall (λ b, from (range top) <= from (range b))
                   (top' :: heap_items hp'')) as Hfrom.
    { rewrite Hstate. apply Forall_app; split; [|done].
      constructor; [simpl; lia|]. apply Forall_app; split.
      - apply (Forall_pieces (λ p, from (range top) <= from p)).
        eapply Forall_impl; [exact HfB|]. simpl. lia.
      - by apply (Forall_pieces (λ p, from (range top) <= from p)). }
    apply Forall_cons in Hfrom as [Hfrom _].
    destruct (IH union top' hp'') as (out & Hout & Hoord & Howf & Hcov & Hact).
    + rewrite Hstate. apply Forall_app; split; [|done].
      constructor; [done|]. apply Forall_app; split.
      * by apply (Forall_pieces (within M)).
      * by apply (Forall_pieces (within M)).
    + eapply Forall_impl; [exact Hleast4|]. unfold byFrom. simpl. lia.
    + done.
    + eapply Forall_impl; [exact Hbef|]. simpl. intros u Hu.
      by eapply before_le.
    + done.
    + rewrite Hstate, weight_app, weight_cons, weight_app.
      pose proof (weight_pieces M _ _ (handlers top) Hil Htop Hiin) as HA.
      pose proof (weight_pieces M _ _ (handlers batch) Hir Hbatch Hiin) as HB.
      pose proof (span_pos M i Hiin). subst merged. simpl. lia.
    + exists out. split; [done|]. split; [done|]. split; [done|].
      subst merged. split.
      * intros h. rewrite Hcov.
        rewrite !coveredAt_app, Hstate, Hitems, coveredAt_app.
        rewrite (split_coveredAt M) by done.
        rewrite !coveredAt_cons, coveredAt_nil. tauto.
      * intros h s. rewrite Hact.
        rewrite !activeAt_app, Hstate, Hitems, activeAt_app.
        rewrite (split_activeAt M) by done.
        rewrite !activeAt_cons. simpl. by rewrite <- !app_assoc.
  - (* [top] ends below everything left *)
    pose proof (disjoint_before _ _ (within_wf _ _ Htop)
                  (within_wf _ _ Hbatch) Hle Hi) as Hbb.
    destruct (IH (union ++ [top]) batch hp')
      as (out & Hout & Hoord & Howf & Hcov & Hact).
    + by constructor.
    + eapply Forall_impl; [exact Hleast|]. unfold byFrom. simpl. lia.
    + by apply ordered_snoc.
    + apply Forall_app; split; [|by repeat constructor].
      eapply Forall_impl; [exact Hbef|]. simpl. intros u Hu.
      by eapply before_le.
    + apply Forall_app; split; [done|]. repeat constructor.
      by eapply within_wf.
    + pose proof (span_pos M _ Htop). rewrite weight_cons. lia.
    + exists out. split; [done|]. split; [done|]. split; [done|]. split.
      * intros h. rewrite Hcov, Hitems. by rewrite <- app_assoc.
      * intros h s. rewrite Hact, Hitems. by rewrite <- app_assoc.
Qed.

(** More fuel does not change what the loop returns. *)
Lemma mergeLoop_fuel fuel : ∀ fuel' union top hp out,
  mergeLoop fuel union top hp = Done out → (fuel <= fuel')%nat →
  mergeLoop fuel' union top hp = Done out.
Proof.
  induction fuel as [|fuel IH]; intros fuel' union top hp out; [done|].
  intros Hrun Hle. destruct fuel' as [|fuel']; [lia|].
  simpl in *. destruct (heap_peek byFrom hp) as [batch|]; [|done].
  destruct (rangeIntersection (range top) (range batch)) as [i|].
  - match goal with
    | H : match ?p with _ => _ end = _ |- _ =>
        destruct p as [[top' hp']|]; [|done]
    end.
    apply IH; [done|lia].
  - destruct (heap_pop byFrom hp) as [[top' hp']|]; [|done].
    apply IH; [done|lia].
Qed.

Lemma within_horizon bs :
  Forall (λ b, range_wf (range b)) bs →
  Forall (λ b, within (horizon bs) (range b)) bs.
Proof.
  intros Hwf.
  assert (∀ M, horizon bs <= M →
               Forall (λ b, within M (range b)) bs) as H; [|by apply H].
  unfold horizon. induction Hwf as [|b bs Hb Hbs IH]; intros M HM;
    [constructor|].
  simpl in HM. constructor; [|apply IH; lia].
  unfold within, range_wf in *. destruct (to (range b)); simpl in *; lia.
Qed.

(** [mergeBatches] on well-formed ranges returns, whatever heap it is
    given, and what it returns is ordered and holds, height by height,
    the handlers of the batches it was given. *)
Lemma mergeBatches_sound batches :
  Forall (λ b, range_wf (range b)) batches →
  ∃ out,
    (∀ fuel, (sweepFuel batches <= fuel)%nat →
             mergeBatches fuel batches = Done out) ∧
    ((length batches <= 1)%nat → out = batches) ∧
    ordered out ∧
    Forall (λ b, range_wf (range b)) out ∧
    (∀ h, coveredAt h out ↔ coveredAt h batches) ∧
    (∀ h s, activeAt h s out ≡ₚ activeAt h s batches).
Proof.
  intros Hwf. unfold mergeBatches.
  destruct (Nat.leb_spec (length batches) 1) as [Hshort|Hlong].
  { exists batches. split; [done|]. split; [done|]. split; [|done].
    destruct batches as [|b [|b' bs]]; simpl in Hshort; try lia;
      repeat constructor. }
  pose proof (heap_items_init (cmp := byFrom) batches) as Hinit.
  destruct batches as [|b0 bs0] eqn:Hbs; [simpl in Hlong; lia|].
  rewrite <- Hbs in *. clear Hbs b0 bs0.
  assert (∃ b l, heap_items (heap_init byFrom batches) ≡ₚ b :: l)
    as (b & l & Hne).
  { destruct batches as [|b l]; [simpl in Hlong; lia|]. eauto. }
  destruct (heap_pop_nonempty _ _ _ Hne) as (top & hp & Hpop).
  rewrite Hpop.
  destruct (heap_pop_Some _ _ _ Hpop) as [Hitems Hleast].
  rewrite Hinit in Hitems. clear Hne b l.
  pose proof (within_horizon _ Hwf) as Hin. rewrite Hitems in Hin.
  destruct (mergeLoop_sound (horizon batches) (sweepFuel batches) [] top hp)
    as (out & Hout & Hord & Howf & Hcov & Hact).
  - done.
  - eapply Forall_impl; [exact Hleast|]. unfold byFrom. simpl. lia.
  - constructor.
  - constructor.
  - constructor.
  - unfold sweepFuel.
    rewrite <- (weight_perm (horizon batches) _ _ Hitems). lia.
  - exists out. split; [|split; [lia|]].
    + intros fuel Hfuel. by eapply mergeLoop_fuel.
    + split; [done|]. split; [done|]. split.
      * intros h. rewrite Hcov. simpl. by rewrite Hitems.
      * intros h s. rewrite Hact. simpl. by rewrite Hitems.
Qed.

(** With an ordered list in the heap, [pop] yields its head. *)
Lemma heap_pop_ordered hp x l y hp' :
  ordered (x :: l) → Forall (λ b, range_wf (range b)) (x :: l) →
  heap_items hp ≡ₚ x :: l → heap_pop byFrom hp = Some (y, hp') →
  y = x ∧ heap_items hp' ≡ₚ l.
Proof.
  intros Hord Hwf Hitems Hpop.
  destruct (heap_pop_Some _ _ _ Hpop) as [Hperm Hleast].
  apply StronglySorted_cons in Hord as [Hbx _].
  apply Forall_cons in Hwf as [Hx _].
  assert (y = x) as ->.
  { assert (x ∈ y :: heap_items hp') as Hxin.
    { rewrite <- Hperm, Hitems. left. }
    apply elem_of_cons in Hxin as [->|Hxin]; [done|].
    assert (y ∈ x :: l) as Hyin.
    { rewrite <- Hitems, Hperm. left. }
    apply elem_of_cons in Hyin as [->|Hyin]; [done|].
    pose proof (proj1 (Forall_forall _ _) Hleast x Hxin) as Hle.
    pose proof (proj1 (Forall_forall _ _) Hbx y Hyin) as Hb.
    unfold byFrom, before, range_wf in *.
    destruct (to (range x)); [lia|done]. }
  split; [done|].
  rewrite Hitems in Hperm. by apply Permutation_cons_inv in Hperm.
Qed.

(** On an ordered list the loop hands every batch over unchanged. *)
Lemma mergeLoop_ordered l : ∀ fuel union top hp,
  ordered (top :: l) → Forall (λ b, range_wf (range b)) (top :: l) →
  heap_items hp ≡ₚ l → (length l < fuel)%nat →
  mergeLoop fuel union top hp = Done (union ++ top :: l).
Proof.
  induction l as [|x l IH]; intros fuel union top hp Hord Hwf Hitems Hfuel;
    (destruct fuel as [|fuel]; [simpl in Hfuel; lia|]); simpl.
  - rewrite heap_peek_pop.
    destruct (heap_pop byFrom hp) as [[y hp']|] eqn:Hpop; [|done].
    destruct (heap_pop_Some _ _ _ Hpop) as [Hperm _].
    rewrite Hitems in Hperm. by apply Permutation_nil_cons in Hperm.
  - destruct (heap_pop_nonempty _ _ _ Hitems) as (y & hp' & Hpop).
    rewrite heap_peek_pop, Hpop. simpl.
    pose proof Hord as Hord'.
    apply StronglySorted_cons in Hord' as [Hbt Hordl].
    pose proof Hwf as Hwf'. apply Forall_cons in Hwf' as [_ Hwfl].
    destruct (heap_pop_ordered _ _ _ _ _ Hordl Hwfl Hitems Hpop) as [-> Hl].
    apply Forall_cons in Hbt as [Hbx _].
    rewrite (before_disjoint _ _ Hbx).
    rewrite (IH fuel (union ++ [top]) x hp'); [|done|done|done|simpl in *; lia].
    by rewrite <- app_assoc.
Qed.

(** C8: [mergeBatches] leaves a normalized batch list as it is: a list
    of well-formed ranges that is sorted by ascending [from] and pairwise
    non-overlapping comes back unchanged, ranges and handlers alike,
    whatever the heap; and a list of zero or one batches is returned as
    it is. *)
Theorem mergeBatches_idempotent (batches : list Batch) :
  (sortedByFrom batches → nonOverlapping batches →
   Forall (λ b, range_wf (range b)) batches →
   ∀ fuel, (length batches <= fuel)%nat →
           mergeBatches fuel batches = Done batches)
  ∧ ((length batches <= 1)%nat →
     ∀ fuel, mergeBatches fuel batches = Done batches).
Proof.
  split.
  - intros Hs Hno Hwf fuel Hfuel.
    pose proof (normalized_ordered _ Hs Hno Hwf) as Hord.
    unfold mergeBatches.
    destruct (Nat.leb_spec (length batches) 1) as [Hshort|Hlong]; [done|].
    destruct batches as [|x l]; [simpl in Hlong; lia|].
    pose proof (heap_items_init (cmp := byFrom) (x :: l)) as Hinit.
    destruct (heap_pop_nonempty _ _ _ Hinit) as (y & hp & Hpop).
    rewrite Hpop.
    destruct (heap_pop_ordered _ _ _ _ _ Hord Hwf Hinit Hpop) as [-> Hl].
    rewrite (mergeLoop_ordered l fuel [] x hp); [done|done|done|done|].
    simpl in Hfuel. lia.
  - intros Hshort fuel. unfold mergeBatches.
    by destruct (Nat.leb_spec (length batches) 1) as [_|Hlong]; [|lia].
Qed.

Lemma activeAt_outside h s l :
  Forall (λ b, contains (range b) h = false) l → activeAt h s l = [].
Proof.
  induction 1 as [|x l Hx Hl IH]; [done|].
  by rewrite activeAt_cons, Hx, IH.
Qed.

(** In an ordered list the handlers active at a height are those of the
    one batch that contains it. *)
Lemma activeAt_ordered h s out b :
  ordered out → b ∈ out → contains (range b) h = true →
  activeAt h s out = slot (handlers b) s.
Proof.
  intros Hord Hb Hc. induction Hord as [|x l Hl IH Hx]; [by inversion Hb|].
  rewrite activeAt_cons.
  apply elem_of_cons in Hb as [->|Hb].
  - rewrite Hc, activeAt_outside; [apply app_nil_r|].
    eapply Forall_impl; [exact Hx|]. simpl. intros y Hy.
    pose proof (before_apart _ _ h Hy).
    destruct (contains (range y) h); [tauto|done].
  - rewrite IH by done.
    pose proof (before_apart _ _ h (proj1 (Forall_forall _ _) Hx b Hb)).
    destruct (contains (range x) h); [tauto|done].
Qed.

(** C1: for well-formed registration ranges and an optional run range,
    [createBatches] returns, whatever the heap, a batch list that is
    sorted by ascending [range.from] and pairwise non-overlapping; a
    height lies in one of its ranges exactly when it lies in the range
    some registration asks for and in the run range; and every range in
    it is non-empty, so that a registration whose clipped range is empty
    contributes nothing. *)
Theorem createBatches_partition (hooks : Hooks) (blockRange : option Range) :
  Forall range_wf (requestedRanges hooks) →
  ∃ out,
    (∀ fuel, (sweepFuel (registeredBatches hooks blockRange) <= fuel)%nat →
             createBatches fuel hooks blockRange = Done out) ∧
    sortedByFrom out ∧
    nonOverlapping out ∧
    (∀ h, coveredAt h out ↔
          (∃ r, r ∈ requestedRanges hooks ∧ contains r h = true) ∧
          inRun blockRange h = true) ∧
    Forall (λ b, range_wf (range b)) out.
Proof.
  intros Hwf.
  destruct (mergeBatches_sound (registeredBatches hooks blockRange))
    as (out & Hrun & _ & Hord & Howf & Hcov & _);
    [by apply registered_wf|].
  exists out. split; [done|].
  split; [by apply ordered_sortedByFrom|].
  split; [by apply ordered_nonOverlapping|].
  split; [|done].
  intros h. rewrite Hcov. apply coveredAt_registered.
Qed.

(** C2, as amended: for well-formed registration ranges, a height [h]
    lies in at most one scheduled batch, and the handlers of that batch
    are, slot by slot and key by key, the handlers of exactly the
    registrations that apply at [h], each as often as it was registered;
    their order in the batch need not be the order of registration. *)
Theorem createBatches_active (hooks : Hooks) (blockRange : option Range) :
  Forall range_wf (requestedRanges hooks) →
  ∃ out,
    (∀ fuel, (sweepFuel (registeredBatches hooks blockRange) <= fuel)%nat →
             createBatches fuel hooks blockRange = Done out) ∧
    ∀ h b, b ∈ out → contains (range b) h = true →
      (∀ b', b' ∈ out → contains (range b') h = true → b' = b) ∧
      (∀ s, slot (handlers b) s ≡ₚ registeredAt hooks blockRange h s).
Proof.
  intros Hwf.
  destruct (mergeBatches_sound (registeredBatches hooks blockRange))
    as (out & Hrun & _ & Hord & _ & _ & Hact);
    [by apply registered_wf|].
  exists out. split; [done|]. intros h b Hb Hc. split.
  - intros b' Hb' Hc'. by apply (ordered_unique out b' b h).
  - intros s. rewrite <- activeAt_registered, <- Hact.
    by rewrite (activeAt_ordered h s out b).
Qed.

End sweep.

(** ** Counting blocks ([getBlocksCount]) *)

Lemma filter_none {A} (P : A → Prop) `{!∀ x, Decision (P x)} (l : list A) :
  Forall (λ x, ¬ P x) l → base.filter P l = [].
Proof.
  induction 1 as [|x l Hx Hl IH]; [done|].
  by rewrite filter_cons_False.
Qed.

Lemma filter_all {A} (P : A → Prop) `{!∀ x, Decision (P x)} (l : list A) :
  Forall P l → base.filter P l = l.
Proof.
  induction 1 as [|x l Hx Hl IH]; [done|].
  by rewrite filter_cons_True, IH.
Qed.

(** Counting over two properties that exclude each other. *)
Lemma length_filter_either {A} (P Q R : A → Prop)
    `{!∀ x, Decision (P x)} `{!∀ x, Decision (Q x)} `{!∀ x, Decision (R x)}
    (l : list A) :
  Forall (λ x, (R x ↔ P x ∨ Q x) ∧ ¬ (P x ∧ Q x)) l →
  length (base.filter R l)
  = (length (base.filter P l) + length (base.filter Q l))%nat.
Proof.
  induction 1 as [|x l [Hx Hno] Hl IH]; [done|].
  rewrite !filter_cons.
  destruct (decide (R x)), (decide (P x)), (decide (Q x)); simpl;
    rewrite IH; try lia; tauto.
Qed.

(** Among the heights from [lo] to [hi] there are [b - a + 1] between [a]
    and [b]. *)
Lemma length_filter_interval (P : Z → Prop) `{!∀ x, Decision (P x)}
    lo hi a b :
  lo <= a → a <= b → b <= hi →
  (∀ h, lo <= h <= hi → (P h ↔ a <= h <= b)) →
  Z.of_nat (length (base.filter P (seqZ lo (hi - lo + 1)))) = b - a + 1.
Proof.
  intros Hlo Hab Hhi HP.
  replace (hi - lo + 1) with ((a - lo) + ((b - a + 1) + (hi - b))) by lia.
  rewrite (seqZ_app lo (a - lo)), (seqZ_app _ (b - a + 1) (hi - b)) by lia.
  rewrite !filter_app.
  rewrite (filter_none P (seqZ lo _)),
    (filter_none P (seqZ (lo + (a - lo) + _) _)).
  - rewrite filter_all.
    + rewrite app_nil_r, app_nil_l, length_seqZ. lia.
    + apply Forall_seqZ. intros h Hh. apply HP; lia.
  - apply Forall_seqZ. intros h Hh. rewrite HP; lia.
  - apply Forall_seqZ. intros h Hh. rewrite HP; lia.
Qed.

(** The loop adds to [count] the number of covered heights. *)
Lemma countBlocks_covered lo chainHeight bs :
  ordered bs → Forall (λ b, range_wf (range b)) bs →
  Forall (λ b, lo <= from (range b)) bs →
  ∀ count, countBlocks bs chainHeight count
           = count + Z.of_nat (length (coveredHeights lo chainHeight bs)).
Proof.
  unfold coveredHeights.
  induction bs as [|b rest IH]; intros Hord Hwf Hlo count; simpl.
  { rewrite filter_none; [simpl; lia|].
    apply Forall_forall. intros h _ Hc. by apply coveredAt_nil in Hc. }
  apply StronglySorted_cons in Hord as [Hbef Hord].
  apply Forall_cons in Hwf as [Hb Hwf].
  apply Forall_cons in Hlo as [Hlob Hlo].
  destruct (Z.ltb_spec chainHeight (from (range b))) as [Hbelow|Hreach].
  - rewrite filter_none; [simpl; lia|].
    apply Forall_seqZ. intros h Hh. rewrite coveredAt_cons, contains_true.
    intros [Hc|(b' & Hb' & Hc)]; [lia|].
    pose proof (proj1 (Forall_forall _ _) Hbef b' Hb') as Hbb.
    apply contains_true in Hc. unfold before, range_wf in *.
    destruct (to (range b)); [lia|done].
  - rewrite IH by done.
    rewrite (length_filter_either (λ h, contains (range b) h = true)
               (λ h, coveredAt h rest) (λ h, coveredAt h (b :: rest))).
    2: { apply Forall_forall. intros h _. split; [apply coveredAt_cons|].
         intros [Hc (b' & Hb' & Hc')].
         pose proof (proj1 (Forall_forall _ _) Hbef b' Hb') as Hbb.
         by apply (before_apart _ _ h Hbb). }
    rewrite Nat2Z.inj_add.
    rewrite (length_filter_interval (λ h, contains (range b) h = true)
               lo chainHeight (from (range b))
               (match to (range b) with
                | Some e => Z.min chainHeight e
                | None => chainHeight
                end)); [lia|done| | |].
    + unfold range_wf in Hb. destruct (to (range b)); lia.
    + destruct (to (range b)); lia.
    + intros h Hh. rewrite contains_true. destruct (to (range b)); lia.
Qed.

(** X1: on a batch list that is sorted by ascending [from], pairwise
    non-overlapping and well-formed, as [createBatches] returns it,
    [getBlocksCount] is the number of heights up to [chainHeight] that lie
    in a range of the list: the heights are counted from any [lo] at or
    below the start of every range; a range without upper end counts up to
    [chainHeight], and a range that starts above [chainHeight] counts
    nothing. *)
Theorem getBlocksCount_covered (batches : list Batch) (lo chainHeight : Z) :
  sortedByFrom batches → nonOverlapping batches →
  Forall (λ b, range_wf (range b)) batches →
  Forall (λ b, lo <= from (range b)) batches →
  getBlocksCount batches chainHeight
  = Z.of_nat (length (coveredHeights lo chainHeight batches)).
Proof.
  intros Hs Hno Hwf Hlo. unfold getBlocksCount.
  rewrite (countBlocks_covered lo) by auto using normalized_ordered. lia.
Qed.

Lemma countBlocks_ge chainHeight bs :
  Forall (λ b, range_wf (range b)) bs →
  ∀ count, count <= countBlocks bs chainHeight count.
Proof.
  induction 1 as [|b rest Hb Hrest IH]; intros count; simpl; [lia|].
  destruct (Z.ltb_spec chainHeight (from (range b))); [lia|].
  etrans; [|apply IH].
  unfold range_wf in Hb. destruct (to (range b)); lia.
Qed.

Lemma countBlocks_mono lower higher bs :
  Forall (λ b, range_wf (range b)) bs → lower <= higher →
  ∀ count count', count <= count' →
    countBlocks bs lower count <= countBlocks bs higher count'.
Proof.
  intros Hwf Hle.
  induction Hwf as [|b rest Hb Hrest IH]; intros count count' Hc; simpl;
    [done|].
  destruct (Z.ltb_spec lower (from (range b))) as [Hlow|Hlow],
           (Z.ltb_spec higher (from (range b))) as [Hhigh|Hhigh];
    try lia.
  - etrans; [|by apply countBlocks_ge].
    unfold range_wf in Hb. destruct (to (range b)); lia.
  - apply IH. destruct (to (range b)); lia.
Qed.

(** X2: for well-formed ranges, in whatever order, [getBlocksCount] is
    never negative and does not go down when the chain height goes up. *)
Theorem getBlocksCount_monotone (batches : list Batch) (lower higher : Z) :
  Forall (λ b, range_wf (range b)) batches → lower <= higher →
  0 <= getBlocksCount batches lower
  ∧ getBlocksCount batches lower <= getBlocksCount batches higher.
Proof.
  intros Hwf Hle. unfold getBlocksCount. split.
  - by apply countBlocks_ge.
  - by apply countBlocks_mono.
Qed.

(** ** The algebra of [mergeDataHandlers] *)

Lemma mergeMaps_assoc {T} (f : T → T → T) (a b c : gmap string T) :
  (∀ x y z, f (f x y) z = f x (f y z)) →
  mergeMaps (mergeMaps a b f) c f = mergeMaps a (mergeMaps b c f) f.
Proof.
  intros Hf. apply map_eq. intros key. rewrite !lookup_mergeMaps.
  destruct (a !! key), (b !! key), (c !! key); by rewrite ?Hf.
Qed.

Lemma mergeMaps_empty_r {T} (f : T → T → T) (a : gmap string T) :
  mergeMaps a ∅ f = a.
Proof.
  apply map_eq. intros key. rewrite lookup_mergeMaps, lookup_empty.
  by destruct (a !! key).
Qed.

Lemma mergeMaps_empty_l {T} (f : T → T → T) (a : gmap string T) :
  mergeMaps ∅ a f = a.
Proof.
  apply map_eq. intros key. rewrite lookup_mergeMaps, lookup_empty.
  by destruct (a !! key).
Qed.

(** X3: [mergeDataHandlers] is associative, and the handler set without
    handlers is its unit on both sides: merging three handler sets gives
    the same lists and the same dictionaries whichever two are merged
    first, and merging with the empty set changes nothing. *)
Theorem mergeDataHandlers_monoid (a b c : DataHandlers) :
  mergeDataHandlers (mergeDataHandlers a b) c
  = mergeDataHandlers a (mergeDataHandlers b c)
  ∧ mergeDataHandlers a noHandlers = a
  ∧ mergeDataHandlers noHandlers a = a.
Proof.
  unfold mergeDataHandlers. destruct a, b, c; simpl. repeat split.
  - f_equal; try (symmetry; apply app_assoc).
    + apply mergeMaps_assoc. intros. by rewrite app_assoc.
    + apply mergeMaps_assoc. intros x y z.
      apply mergeMaps_assoc. intros. by rewrite app_assoc.
    + apply mergeMaps_assoc. intros. by rewrite app_assoc.
  - by rewrite !app_nil_r, !mergeMaps_empty_r.
  - by rewrite !mergeMaps_empty_l.
Qed.

(** ** [mergeBatches] on any batch list *)

Section schedule.
Context `{!HeapOps Batch} `{!HeapLaws byFrom HeapOps0}.

(** Given the batches of an ordered list in any order, [mergeBatches]
    returns the ordered list. *)
Lemma mergeBatches_ordered batches sorted fuel :
  batches ≡ₚ sorted → ordered sorted →
  Forall (λ b, range_wf (range b)) sorted →
  (length batches <= fuel)%nat →
  mergeBatches fuel batches = Done sorted.
Proof.
  intros Hperm Hord Hwf Hfuel. unfold mergeBatches.
  destruct (Nat.leb_spec (length batches) 1) as [Hshort|Hlong].
  { destruct batches as [|b [|b' bs]]; simpl in Hshort; try lia.
    - by apply Permutation_nil_l in Hperm as ->.
    - by apply Permutation_singleton_l in Hperm as ->. }
  destruct sorted as [|x l].
  { apply Permutation_nil_r in Hperm as ->. simpl in Hlong. lia. }
  assert (heap_items (heap_init byFrom batches) ≡ₚ x :: l) as Hinit.
  { by rewrite heap_items_init. }
  destruct (heap_pop_nonempty _ _ _ Hinit) as (y & hp & Hpop).
  rewrite Hpop.
  destruct (heap_pop_ordered _ _ _ _ _ Hord Hwf Hinit Hpop) as [-> Hl].
  rewrite (mergeLoop_ordered l fuel [] x hp); [done|done|done|done|].
  apply Permutation_length in Hperm. simpl in Hperm. lia.
Qed.

(** X4: for any list of batches with well-formed ranges, whether or not
    it comes from registrations, [mergeBatches] returns, whatever the
    heap, a list that is sorted by ascending [from], pairwise
    non-overlapping and well-formed, that covers the heights the input
    covers and no others, and in which the batch that holds a height has,
    slot by slot and key by key, the handlers of all input batches that
    hold that height, each as often as the input has it. *)
Theorem mergeBatches_partition (batches : list Batch) :
  Forall (λ b, range_wf (range b)) batches →
  ∃ out,
    (∀ fuel, (sweepFuel batches <= fuel)%nat →
             mergeBatches fuel batches = Done out) ∧
    sortedByFrom out ∧
    nonOverlapping out ∧
    Forall (λ b, range_wf (range b)) out ∧
    (∀ h, coveredAt h out ↔ coveredAt h batches) ∧
    (∀ h b, b ∈ out → contains (range b) h = true →
       ∀ s, slot (handlers b) s ≡ₚ activeAt h s batches).
Proof.
  intros Hwf.
  destruct (mergeBatches_sound batches Hwf)
    as (out & Hrun & _ & Hord & Howf & Hcov & Hact).
  exists out. split; [done|].
  split; [by apply ordered_sortedByFrom|].
  split; [by apply ordered_nonOverlapping|].
  split; [done|]. split; [done|].
  intros h b Hb Hc s. rewrite <- Hact.
  by rewrite (activeAt_ordered h s out b).
Qed.

(** X5: [mergeBatches] sorts batches that do not overlap: given, in any
    order, the batches of a list that is sorted by ascending [from],
    pairwise non-overlapping and well-formed, it returns that list, every
    batch with its range and handlers as they were, whatever the heap. *)
Theorem mergeBatches_sorts (batches sorted : list Batch) :
  batches ≡ₚ sorted →
  sortedByFrom sorted → nonOverlapping sorted →
  Forall (λ b, range_wf (range b)) sorted →
  ∀ fuel, (length batches <= fuel)%nat →
          mergeBatches fuel batches = Done sorted.
Proof.
  intros Hperm Hs Hno Hwf fuel Hfuel.
  apply mergeBatches_ordered; auto using normalized_ordered.
Qed.

(** X6: what [mergeBatches] returns for well-formed ranges is a fixed
    point of [mergeBatches]: merging the result again returns it
    unchanged. *)
Theorem mergeBatches_fixed_point (batches : list Batch) :
  Forall (λ b, range_wf (range b)) batches →
  ∃ out,
    (∀ fuel, (sweepFuel batches <= fuel)%nat →
             mergeBatches fuel batches = Done out) ∧
    (∀ fuel, (length out <= fuel)%nat → mergeBatches fuel out = Done out).
Proof.
  intros Hwf.
  destruct (mergeBatches_sound batches Hwf)
    as (out & Hrun & _ & Hord & Howf & _ & _).
  exists out. split; [done|]. intros fuel Hfuel.
  by apply mergeBatches_ordered.
Qed.

(** X7: [getBlocksCount] of the schedule [createBatches] returns is the
    number of heights up to [chainHeight] that some registration asks for
    and that lie in the run range; the heights are counted from any [lo]
    at or below the start of every requested range. *)
Theorem getBlocksCount_scheduled (hooks : Hooks) (blockRange : option Range)
    (lo : Z) :
  Forall range_wf (requestedRanges hooks) →
  Forall (λ r, lo <= from r) (requestedRanges hooks) →
  ∃ out,
    (∀ fuel, (sweepFuel (registeredBatches hooks blockRange) <= fuel)%nat →
             createBatches fuel hooks blockRange = Done out) ∧
    ∀ chainHeight,
      getBlocksCount out chainHeight
      = Z.of_nat (length (requestedHeights hooks blockRange lo chainHeight)).
Proof.
  intros Hwf Hlo.
  destruct (mergeBatches_sound (registeredBatches hooks blockRange))
    as (out & Hrun & _ & Hord & Howf & Hcov & _);
    [by apply registered_wf|].
  exists out. split; [done|]. intros chainHeight.
  unfold getBlocksCount. rewrite (countBlocks_covered lo); [|done|done|].
  - unfold coveredHeights, requestedHeights. rewrite Z.add_0_l.
    do 2 f_equal. apply list_filter_iff. intros h.
    rewrite Hcov, coveredAt_registered, Exists_exists. done.
  - apply Forall_forall. intros b Hb.
    assert (coveredAt (from (range b)) out) as Hc.
    { exists b. split; [done|]. apply contains_true.
      pose proof (proj1 (Forall_forall _ _) Howf b Hb) as Hwb.
      unfold range_wf in Hwb. destruct (to (range b)); lia. }
    apply Hcov, coveredAt_registered in Hc as [(r & Hr & Hc) _].
    pose proof (proj1 (Forall_forall _ _) Hlo r Hr) as Hlr. simpl in Hlr.
    apply contains_true in Hc as [Hc _]. lia.
Qed.

End schedule.

(** ** Merging on objects with identity *)

Lemma keeps_refl σ : keeps σ σ.
Proof. by intros i o. Qed.

Lemma keeps_trans σ1 σ2 σ3 : keeps σ1 σ2 → keeps σ2 σ3 → keeps σ1 σ3.
Proof. intros H12 H23 i o Hi. by apply H23, H12. Qed.

Lemma keeps_app σ δ : keeps σ (σ ++ δ).
Proof. intros i o Hi. by apply lookup_app_l_Some. Qed.

Lemma keeps_prefix σ σ' : keeps σ σ' → σ `prefix_of` σ'.
Proof.
  revert σ'. induction σ as [|o σ IH]; intros σ' Hk; [apply prefix_nil|].
  destruct σ' as [|o' σ']; [by specialize (Hk 0%nat o eq_refl)|].
  pose proof (Hk 0%nat o eq_refl) as [= ->].
  apply prefix_cons, IH. intros i x Hi. by apply (Hk (S i)).
Qed.

Lemma keeps_keepsBut res σ σ' : keeps σ σ' → keepsBut res σ σ'.
Proof. intros Hk i o _. apply Hk. Qed.

Lemma keepsBut_insert res σ o : keepsBut res σ (<[res := o]> σ).
Proof. intros i x Hne Hi. by rewrite list_lookup_insert_ne. Qed.

Lemma option_Forall2_mono {A B} (R R' : A → B → Prop) mx my :
  (∀ x y, R x y → R' x y) →
  option_Forall2 R mx my → option_Forall2 R' mx my.
Proof. intros HR [x y Hxy|]; constructor. by apply HR. Qed.

#[export] Instance arrayOf_denotation {T} (inj : T → Entry) :
  Denotation (arrayOf inj).
Proof.
  split; unfold arrayOf.
  - intros σ σ' v t Hk. apply Hk.
  - intros res σ σ' v t Hk _ Hne. by apply Hk.
  - intros σ v t. apply lookup_lt_Some.
Qed.

#[export] Instance dictOf_arrayOf_denotation {T} (inj : T → Entry) :
  Denotation (dictOf (arrayOf inj)).
Proof.
  split; unfold dictOf.
  - intros σ σ' v g Hk (props & Hv & Hprops). exists props.
    split; [by apply Hk|]. intros key.
    eapply option_Forall2_mono; [|apply Hprops]. intros w l. apply Hk.
  - intros res σ σ' v g Hk Hres Hne (props & Hv & Hprops). exists props.
    split; [by apply Hk|]. intros key.
    eapply option_Forall2_mono; [|apply Hprops]. unfold arrayOf.
    intros w l Hw. apply Hk; [|done]. intros ->. by apply Hres in Hw.
  - intros σ v g (props & Hv & _). by apply lookup_lt_Some in Hv.
Qed.

Lemma dictOf_keeps {T} (R : Memory → Ref → T → Prop) `{!Denotation R}
    σ σ' v g :
  keeps σ σ' → dictOf R σ v g → dictOf R σ' v g.
Proof.
  intros Hk (props & Hv & Hprops). exists props.
  split; [by apply Hk|]. intros key.
  eapply option_Forall2_mono; [|apply Hprops]. intros w t.
  by apply denotation_keeps.
Qed.

(** [concat] allocates the concatenation and touches nothing else. *)
Lemma concat_spec {T} (inj : T → Entry) σ a b la lb :
  arrayOf inj σ a la → arrayOf inj σ b lb →
  ∃ v σ', concat a b σ = Some (v, σ') ∧ keeps σ σ' ∧
          (length σ <= v)%nat ∧ arrayOf inj σ' v (la ++ lb).
Proof.
  unfold arrayOf, concat, mbind, js_bind, getArray, alloc.
  intros -> ->. eexists _, _. split; [done|].
  split; [apply keeps_app|]. split; [done|].
  rewrite lookup_app_r, Nat.sub_diag by done. simpl. by rewrite fmap_app.
Qed.

(** *** [mergeMapsJs] *)

Section mergeMapsJs.
Context {T : Type} (R : Memory → Ref → T → Prop) `{!Denotation R}.
Context (f : T → T → T) (mergeItems : Ref → Ref → Js Ref).
Hypothesis mergeItems_spec : ∀ σ x y tx ty,
  R σ x tx → R σ y ty →
  ∃ v σ', mergeItems x y σ = Some (v, σ') ∧ keeps σ σ' ∧
          (length σ <= v)%nat ∧ R σ' v (f tx ty).

(** The memory at the call, the two dictionaries and what they stand
    for. *)
Context (σ0 : Memory) (a b : Ref) (pa pb : gmap string Ref)
        (ga gb : gmap string T).
Hypothesis a_dict : σ0 !! a = Some (DictObj pa).
Hypothesis b_dict : σ0 !! b = Some (DictObj pb).
Hypothesis a_props : ∀ key, option_Forall2 (R σ0) (pa !! key) (ga !! key).
Hypothesis b_props : ∀ key, option_Forall2 (R σ0) (pb !! key) (gb !! key).

(** The loops' invariant: the memory of the call is kept, and [result],
    allocated right behind it, stands for [g]. *)
Definition resultIs (σ : Memory) (g : gmap string T) : Prop :=
  keeps σ0 σ ∧
  ∃ pr, σ !! length σ0 = Some (DictObj pr) ∧
        (∀ key, option_Forall2 (R σ) (pr !! key) (g !! key)) ∧
        (∀ key v, pr !! key = Some v → v ≠ length σ0).

Lemma resultIs_keeps σ σ' g : resultIs σ g → keeps σ σ' → resultIs σ' g.
Proof.
  intros (Hk & pr & Hres & Hprops & Hfresh) Hk'. split.
  - by eapply keeps_trans.
  - exists pr. split; [by apply Hk'|]. split; [|done].
    intros key. eapply option_Forall2_mono; [|apply Hprops].
    intros v t. by apply denotation_keeps.
Qed.

Lemma resultIs_setProp σ g key v t :
  resultIs σ g → R σ v t → v ≠ length σ0 →
  ∃ σ', setProp (length σ0) key v σ = Some (tt, σ') ∧
        resultIs σ' (<[key := t]> g).
Proof.
  intros (Hk & pr & Hres & Hprops & Hfresh) Hv Hne.
  exists (<[length σ0 := DictObj (<[key := v]> pr)]> σ).
  split; [unfold setProp; cbv beta; by rewrite Hres|].
  pose proof (lookup_lt_Some _ _ _ Hres) as Hlt.
  assert (keepsBut (length σ0) σ
            (<[length σ0 := DictObj (<[key := v]> pr)]> σ)) as Hbut
    by apply keepsBut_insert.
  assert (notArray σ (length σ0)) as Hna.
  { intros elems. by rewrite Hres. }
  split.
  - intros i o Hi. apply Hbut; [|by apply Hk].
    apply lookup_lt_Some in Hi. lia.
  - exists (<[key := v]> pr). split; [by apply list_lookup_insert_eq|].
    split.
    + intros key'. destruct (decide (key = key')) as [<-|Hkey].
      * rewrite !lookup_insert_eq. constructor.
        by apply (denotation_keepsBut (length σ0) σ).
      * rewrite !lookup_insert_ne by done.
        specialize (Hprops key'). specialize (Hfresh key').
        destruct Hprops as [w t' Hw|]; constructor.
        apply (denotation_keepsBut (length σ0) σ); eauto.
    + intros key' w. destruct (decide (key = key')) as [<-|Hkey].
      * rewrite lookup_insert_eq. by intros [= <-].
      * rewrite lookup_insert_ne by done. apply Hfresh.
Qed.

Lemma resultIs_getDict_b σ g : resultIs σ g → getDict b σ = Some (pb, σ).
Proof.
  intros (Hk & _). unfold getDict. by rewrite (Hk _ _ b_dict).
Qed.

(** What the first loop stores under a key of [a]. *)
Definition firstLoop (key : string) : option T :=
  (λ x, match gb !! key with Some y => f x y | None => x end) <$> ga !! key.

Definition step1 (g : gmap string T) (key : string) : gmap string T :=
  match firstLoop key with Some t => <[key := t]> g | None => g end.

Definition step2 (g : gmap string T) (key : string) : gmap string T :=
  match g !! key with
  | Some _ => g
  | None => match gb !! key with Some y => <[key := y]> g | None => g end
  end.

Lemma step1_insert g key x :
  ga !! key = Some x →
  step1 g key
  = <[key := match gb !! key with Some y => f x y | None => x end]> g.
Proof. intros Hx. unfold step1, firstLoop. by rewrite Hx. Qed.

Lemma loop1 l : ∀ σ g,
  (∀ key v, (key, v) ∈ l → pa !! key = Some v) →
  resultIs σ g →
  ∃ σ',
    forIn l (λ key va,
      pb ← getDict b;
      match pb !! key with
      | None => setProp (length σ0) key va
      | Some vb => v ← mergeItems va vb; setProp (length σ0) key v
      end) σ = Some (tt, σ') ∧
    resultIs σ' (foldl step1 g l.*1).
Proof.
  induction l as [|[key va] l IH]; intros σ g Hl Hinv; simpl.
  { eexists. split; [done|done]. }
  assert (∀ key' v', (key', v') ∈ l → pa !! key' = Some v') as Hl'.
  { intros key' v' Hin. apply Hl. by right. }
  assert (pa !! key = Some va) as Hva by (apply Hl; left).
  pose proof (a_props key) as Hka. rewrite Hva in Hka.
  destruct (ga !! key) as [x|] eqn:Hga; [|by inversion Hka].
  assert (R σ0 va x) as Hx by (by inversion Hka).
  assert (R σ va x) as Hx'.
  { destruct Hinv as (Hk & _). by eapply denotation_keeps. }
  pose proof (denotation_valid _ _ _ Hx) as Hvalid.
  rewrite (step1_insert g key x Hga).
  unfold mbind at 1, js_bind. unfold mbind at 1, js_bind.
  rewrite (resultIs_getDict_b _ _ Hinv).
  pose proof (b_props key) as Hkb.
  destruct (pb !! key) as [vb|] eqn:Hvb;
    destruct (gb !! key) as [y|] eqn:Hgb; try (by inversion Hkb).
  - assert (R σ0 vb y) as Hy by (by inversion Hkb).
    assert (R σ vb y) as Hy'.
    { destruct Hinv as (Hk & _). by eapply denotation_keeps. }
    destruct (mergeItems_spec σ va vb x y Hx' Hy')
      as (v & σm & Hrun & Hkm & Hfresh & Hv).
    unfold mbind at 1, js_bind. rewrite Hrun.
    assert (v ≠ length σ0) as Hne.
    { destruct Hinv as (_ & pr & Hres & _).
      apply lookup_lt_Some in Hres. lia. }
    destruct (resultIs_setProp σm g key v (f x y)
                (resultIs_keeps _ _ _ Hinv Hkm) Hv Hne)
      as (σ1 & Hset & Hinv1).
    rewrite Hset. by apply IH.
  - destruct (resultIs_setProp σ g key va x Hinv Hx') as (σ1 & Hset & Hinv1);
      [lia|].
    rewrite Hset. by apply IH.
Qed.

Lemma loop2 l : ∀ σ g,
  (∀ key v, (key, v) ∈ l → pb !! key = Some v) →
  resultIs σ g →
  ∃ σ',
    forIn l (λ key vb,
      pr ← getDict (length σ0);
      match pr !! key with
      | None => setProp (length σ0) key vb
      | Some _ => mret tt
      end) σ = Some (tt, σ') ∧
    resultIs σ' (foldl step2 g l.*1).
Proof.
  induction l as [|[key vb] l IH]; intros σ g Hl Hinv; simpl.
  { eexists. split; [done|done]. }
  assert (∀ key' v', (key', v') ∈ l → pb !! key' = Some v') as Hl'.
  { intros key' v' Hin. apply Hl. by right. }
  assert (pb !! key = Some vb) as Hvb by (apply Hl; left).
  pose proof (b_props key) as Hkb. rewrite Hvb in Hkb.
  destruct (gb !! key) as [y|] eqn:Hgb; [|by inversion Hkb].
  assert (R σ0 vb y) as Hy by (by inversion Hkb).
  assert (R σ vb y) as Hy'.
  { destruct Hinv as (Hk & _). by eapply denotation_keeps. }
  pose proof (denotation_valid _ _ _ Hy) as Hvalid.
  pose proof Hinv as (Hk & pr & Hres & Hprops & Hfresh).
  unfold mbind at 1, js_bind. unfold mbind at 1, js_bind.
  unfold getDict at 1. rewrite Hres.
  unfold step2 at 2. rewrite Hgb.
  specialize (Hprops key).
  destruct (pr !! key) as [w|] eqn:Hw;
    destruct (g !! key) as [t|] eqn:Hg; try (by inversion Hprops).
  - simpl. by apply IH.
  - destruct (resultIs_setProp σ g key vb y Hinv Hy') as (σ1 & Hset & Hinv1);
      [lia|].
    rewrite Hset. by apply IH.
Qed.

Lemma foldl_step1_lookup l : ∀ g key,
  (∀ k, k ∈ l → is_Some (ga !! k)) →
  foldl step1 g l !! key
  = if decide (key ∈ l) then firstLoop key else g !! key.
Proof.
  induction l as [|k l IH]; intros g key Hl; cbn [foldl].
  { by rewrite decide_False by apply not_elem_of_nil. }
  rewrite IH by (intros k' Hk'; apply Hl; by right).
  destruct (Hl k) as [x Hx]; [left|].
  rewrite (step1_insert g k x Hx).
  destruct (decide (key ∈ l)) as [Hin|Hnin].
  - rewrite decide_True; [done|by right].
  - destruct (decide (key = k)) as [->|Hne].
    + rewrite decide_True by left. rewrite lookup_insert_eq.
      unfold firstLoop. by rewrite Hx.
    + rewrite lookup_insert_ne by done. rewrite decide_False; [done|].
      by intros [?|?]%elem_of_cons.
Qed.

Lemma foldl_step2_lookup l : ∀ g key,
  foldl step2 g l !! key
  = match g !! key with
    | Some t => Some t
    | None => if decide (key ∈ l) then gb !! key else None
    end.
Proof.
  induction l as [|k l IH]; intros g key; cbn [foldl].
  { rewrite decide_False by apply not_elem_of_nil. by destruct (g !! key). }
  rewrite IH. unfold step2.
  destruct (decide (key = k)) as [->|Hne].
  - rewrite (decide_True (P := k ∈ k :: l)) by left.
    destruct (g !! k) as [t|] eqn:Hg; [by rewrite Hg|].
    destruct (gb !! k) as [y|] eqn:Hgb.
    + by rewrite lookup_insert_eq.
    + rewrite Hg. by destruct (decide (k ∈ l)).
  - assert (match g !! k with
            | Some _ => g
            | None => match gb !! k with
                      | Some y => <[k := y]> g
                      | None => g
                      end
            end !! key = g !! key) as ->.
    { destruct (g !! k); [done|].
      destruct (gb !! k); [|done]. by rewrite lookup_insert_ne. }
    destruct (g !! key); [done|].
    destruct (decide (key ∈ l)) as [Hin|Hnin].
    + rewrite decide_True; [done|by right].
    + rewrite decide_False; [done|]. by intros [?|?]%elem_of_cons.
Qed.

Lemma elem_of_keys (p : gmap string Ref) key :
  key ∈ (map_to_list p).*1 ↔ is_Some (p !! key).
Proof.
  rewrite list_elem_of_fmap. split.
  - intros ([k v] & -> & Hin). apply elem_of_map_to_list in Hin. eauto.
  - intros [v Hv]. exists (key, v). split; [done|].
    by apply elem_of_map_to_list.
Qed.

(** [mergeMapsJs] returns a new dictionary that stands for the merge,
    and keeps everything the memory held. *)
Lemma mergeMapsJs_sound :
  ∃ r σ', mergeMapsJs a b mergeItems σ0 = Some (r, σ') ∧ keeps σ0 σ' ∧
          (length σ0 <= r)%nat ∧ dictOf R σ' r (mergeMaps ga gb f).
Proof.
  assert (resultIs (σ0 ++ [DictObj ∅]) ∅) as Hinv0.
  { split; [apply keeps_app|]. exists ∅.
    split; [by rewrite lookup_app_r, Nat.sub_diag|].
    split; [|by intros key v; rewrite lookup_empty].
    intros key. rewrite !lookup_empty. constructor. }
  destruct (loop1 (map_to_list pa) (σ0 ++ [DictObj ∅]) ∅)
    as (σ1 & Hrun1 & Hinv1); [|done|].
  { intros key v. apply elem_of_map_to_list. }
  destruct (loop2 (map_to_list pb) σ1
              (foldl step1 ∅ (map_to_list pa).*1))
    as (σ2 & Hrun2 & Hinv2); [|exact Hinv1|].
  { intros key v. apply elem_of_map_to_list. }
  exists (length σ0), σ2. split.
  { unfold mergeMapsJs, mbind, js_bind, alloc.
    unfold getDict at 1. rewrite (lookup_app_l_Some _ _ _ _ a_dict).
    fold (@mbind Js _). unfold mbind, js_bind in Hrun1. rewrite Hrun1.
    rewrite (resultIs_getDict_b _ _ Hinv1).
    unfold mbind, js_bind in Hrun2. by rewrite Hrun2. }
  destruct Hinv2 as (Hk & pr & Hres & Hprops & _).
  split; [done|]. split; [done|].
  exists pr. split; [done|]. intros key.
  specialize (Hprops key).
  rewrite foldl_step2_lookup, foldl_step1_lookup, lookup_empty in Hprops.
  2: { intros k Hk'. apply elem_of_keys in Hk' as [v Hv].
       pose proof (a_props k) as Hka. rewrite Hv in Hka.
       inversion Hka. eauto. }
  rewrite lookup_mergeMaps.
  replace (match ga !! key, gb !! key with
           | Some va, Some vb => Some (f va vb)
           | Some va, None => Some va
           | None, Some vb => Some vb
           | None, None => None
           end)
    with (match (if decide (key ∈ (map_to_list pa).*1)
                 then firstLoop key else None) with
          | Some t => Some t
          | None => if decide (key ∈ (map_to_list pb).*1)
                    then gb !! key else None
          end); [done|].
  pose proof (a_props key) as Hka. pose proof (b_props key) as Hkb.
  unfold firstLoop.
  destruct (decide (key ∈ (map_to_list pa).*1)) as [Ha|Ha];
    destruct (decide (key ∈ (map_to_list pb).*1)) as [Hb|Hb];
    rewrite elem_of_keys in Ha, Hb.
  - destruct Ha as [va Hva], Hb as [vb Hvb]. rewrite Hva in Hka.
    rewrite Hvb in Hkb. inversion Hka; inversion Hkb; done.
  - destruct Ha as [va Hva]. rewrite Hva in Hka.
    apply eq_None_not_Some in Hb. rewrite Hb in Hkb.
    inversion Hka; inversion Hkb; done.
  - destruct Hb as [vb Hvb]. rewrite Hvb in Hkb.
    apply eq_None_not_Some in Ha. rewrite Ha in Hka.
    inversion Hka; inversion Hkb; done.
  - apply eq_None_not_Some in Ha. apply eq_None_not_Some in Hb.
    rewrite Ha in Hka. rewrite Hb in Hkb.
    inversion Hka; inversion Hkb; done.
Qed.

End mergeMapsJs.

Lemma mergeMapsJs_dictOf {T} (R : Memory → Ref → T → Prop) `{!Denotation R}
    (f : T → T → T) (mergeItems : Ref → Ref → Js Ref) :
  (∀ σ x y tx ty,
     R σ x tx → R σ y ty →
     ∃ v σ', mergeItems x y σ = Some (v, σ') ∧ keeps σ σ' ∧
             (length σ <= v)%nat ∧ R σ' v (f tx ty)) →
  ∀ σ a b ga gb,
    dictOf R σ a ga → dictOf R σ b gb →
    ∃ r σ', mergeMapsJs a b mergeItems σ = Some (r, σ') ∧ keeps σ σ' ∧
            (length σ <= r)%nat ∧ dictOf R σ' r (mergeMaps ga gb f).
Proof.
  intros Hspec σ a b ga gb (pa & Ha & Hpa) (pb & Hb & Hpb).
  by eapply mergeMapsJs_sound.
Qed.

Lemma mergeMapsJs_arrays {T} (inj : T → Entry) σ a b ga gb :
  dictOf (arrayOf inj) σ a ga → dictOf (arrayOf inj) σ b gb →
  ∃ r σ', mergeMapsJs a b concat σ = Some (r, σ') ∧ keeps σ σ' ∧
          (length σ <= r)%nat ∧
          dictOf (arrayOf inj) σ' r (mergeMaps ga gb (λ ha hb, ha ++ hb)).
Proof.
  apply (mergeMapsJs_dictOf (arrayOf inj)). intros σ0 x y tx ty.
  apply concat_spec.
Qed.

Lemma mergeMapsJs_nested {T} (inj : T → Entry) σ a b ga gb :
  dictOf (dictOf (arrayOf inj)) σ a ga →
  dictOf (dictOf (arrayOf inj)) σ b gb →
  ∃ r σ',
    mergeMapsJs a b (λ ea eb, mergeMapsJs ea eb concat) σ = Some (r, σ') ∧
    keeps σ σ' ∧ (length σ <= r)%nat ∧
    dictOf (dictOf (arrayOf inj)) σ' r
      (mergeMaps ga gb (λ ea eb, mergeMaps ea eb (λ ha hb, ha ++ hb))).
Proof.
  apply (mergeMapsJs_dictOf (dictOf (arrayOf inj))). intros σ0 x y tx ty.
  apply mergeMapsJs_arrays.
Qed.

Lemma handlersOf_keeps σ σ' r d :
  keeps σ σ' → handlersOf σ r d → handlersOf σ' r d.
Proof.
  intros Hk (p & q & e & x & v & Hr & Hp & Hq & He & Hx & Hv).
  exists p, q, e, x, v. split; [by apply Hk|].
  split; [by eapply (denotation_keeps (R := arrayOf Plain))|].
  split; [by eapply (denotation_keeps (R := arrayOf Plain))|].
  split; [by eapply (dictOf_keeps (arrayOf Plain))|].
  split; [by eapply (dictOf_keeps (dictOf (arrayOf Plain)))|].
  by eapply (dictOf_keeps (arrayOf Filtered)).
Qed.

Lemma keywise_lookup {T} (a b : gmap string T) (f : T → T → T) key :
  mergeMaps a b f !! key = keywise f (a !! key) (b !! key).
Proof. apply lookup_mergeMaps. Qed.

(** C7: [mergeDataHandlers] concatenates [pre] and [post], [a]'s entries
    first, and merges every keyed slot key by key: a key of one input
    only keeps that input's value, a key of both gets [a]'s list followed
    by [b]'s.  Run on objects in memory, it returns a new object that
    stands for that merge; every object that existed before is still as
    it was, and the two inputs stand for what they stood for. *)
Theorem mergeDataHandlers_keywise (σ : Memory) (a b : Ref)
    (da db : DataHandlers) :
  handlersOf σ a da → handlersOf σ b db →
  (∃ r σ',
     mergeDataHandlersJs a b σ = Some (r, σ') ∧
     σ `prefix_of` σ' ∧
     handlersOf σ' a da ∧ handlersOf σ' b db ∧
     handlersOf σ' r (mergeDataHandlers da db))
  ∧ pre (mergeDataHandlers da db) = pre da ++ pre db
  ∧ post (mergeDataHandlers da db) = post da ++ post db
  ∧ (∀ key, events (mergeDataHandlers da db) !! key
            = keywise (λ ha hb, ha ++ hb)
                (events da !! key) (events db !! key))
  ∧ (∀ key, extrinsics (mergeDataHandlers da db) !! key
            = keywise (λ ea eb, mergeMaps ea eb (λ ha hb, ha ++ hb))
                (extrinsics da !! key) (extrinsics db !! key))
  ∧ (∀ (ea eb : gmap string (list Handler)) key,
       mergeMaps ea eb (λ ha hb, ha ++ hb) !! key
       = keywise (λ ha hb, ha ++ hb) (ea !! key) (eb !! key))
  ∧ (∀ key, evmLogs (mergeDataHandlers da db) !! key
            = keywise (λ ha hb, ha ++ hb)
                (evmLogs da !! key) (evmLogs db !! key)).
Proof.
  intros Ha Hb. split; [|by repeat split; intros; apply keywise_lookup].
  pose proof Ha as (ap & aq & ae & ax & av & Har & Hap & Haq & Hae & Hax & Hav).
  pose proof Hb as (bp & bq & be & bx & bv & Hbr & Hbp & Hbq & Hbe & Hbx & Hbv).
  destruct (concat_spec Plain σ ap bp _ _ Hap Hbp)
    as (p & σ1 & Hrun1 & K1 & _ & Hp).
  destruct (concat_spec Plain σ1 aq bq (post da) (post db))
    as (q & σ2 & Hrun2 & K2 & _ & Hq);
    [by eapply (denotation_keeps (R := arrayOf Plain))..|].
  destruct (mergeMapsJs_arrays Plain σ2 ae be (events da) (events db))
    as (e & σ3 & Hrun3 & K3 & _ & He);
    [eapply (dictOf_keeps (arrayOf Plain)); [|done];
     by eapply keeps_trans..|].
  destruct (mergeMapsJs_nested Plain σ3 ax bx (extrinsics da) (extrinsics db))
    as (x & σ4 & Hrun4 & K4 & _ & Hx);
    [eapply (dictOf_keeps (dictOf (arrayOf Plain))); [|done];
     eauto using keeps_trans..|].
  destruct (mergeMapsJs_arrays Filtered σ4 av bv (evmLogs da) (evmLogs db))
    as (v & σ5 & Hrun5 & K5 & _ & Hv);
    [eapply (dictOf_keeps (arrayOf Filtered)); [|done];
     eauto using keeps_trans..|].
  assert (keeps σ σ5) as K by eauto using keeps_trans.
  exists (length σ5), (σ5 ++ [HandlersObj p q e x v]).
  split.
  { unfold mergeDataHandlersJs, mbind, js_bind.
    unfold getHandlers. rewrite Har, Hbr.
    fold (@mbind Js _). unfold mbind, js_bind.
    by rewrite Hrun1, Hrun2, Hrun3, Hrun4, Hrun5. }
  assert (keeps σ (σ5 ++ [HandlersObj p q e x v])) as K'.
  { eapply keeps_trans; [exact K|apply keeps_app]. }
  split; [by apply keeps_prefix|].
  split; [by eapply handlersOf_keeps|].
  split; [by eapply handlersOf_keeps|].
  exists p, q, e, x, v.
  split; [by rewrite lookup_app_r, Nat.sub_diag|].
  split.
  { eapply (denotation_keeps (R := arrayOf Plain)); [|exact Hp].
    eauto using keeps_trans, keeps_app. }
  split.
  { eapply (denotation_keeps (R := arrayOf Plain)); [|exact Hq].
    eauto using keeps_trans, keeps_app. }
  split.
  { eapply (dictOf_keeps (arrayOf Plain)); [|exact He].
    eauto using keeps_trans, keeps_app. }
  split.
  { eapply (dictOf_keeps (dictOf (arrayOf Plain))); [|exact Hx].
    eauto using keeps_trans, keeps_app. }
  eapply (dictOf_keeps (arrayOf Filtered)); [|exact Hv].
  apply keeps_app.
Qed.

(** ** The theorems at sample registrations *)

Ltac ranges_wf :=
  unfold requestedRanges; simpl;
  repeat constructor; unfold range_wf; simpl; lia.

Lemma staggeredHooks_wf : Forall range_wf (requestedRanges staggeredHooks).
Proof. ranges_wf. Qed.

Lemma createBatches_partition_witness :
  ∃ out,
    (∀ fuel, (sweepFuel (registeredBatches transferHooks None) <= fuel)%nat →
             runCreateBatches fuel transferHooks None = Done out) ∧
    sortedByFrom out ∧
    nonOverlapping out ∧
    (∀ h, coveredAt h out ↔
          (∃ r, r ∈ requestedRanges transferHooks ∧ contains r h = true) ∧
          inRun None h = true) ∧
    Forall (λ b, range_wf (range b)) out.
Proof.
  apply (createBatches_partition (HeapOps0 := ListHeap Batch)
           transferHooks None).
  ranges_wf.
Defined.

Lemma createBatches_active_witness :
  ∃ out,
    (∀ fuel, (sweepFuel (registeredBatches staggeredHooks None) <= fuel)%nat →
             runCreateBatches fuel staggeredHooks None = Done out) ∧
    ∀ h b, b ∈ out → contains (range b) h = true →
      (∀ b', b' ∈ out → contains (range b') h = true → b' = b) ∧
      (∀ s, slot (handlers b) s ≡ₚ registeredAt staggeredHooks None h s).
Proof.
  apply (createBatches_active (HeapOps0 := ListHeap Batch)
           staggeredHooks None).
  ranges_wf.
Defined.

(** C2, as stated, fails: the three pre-block hooks of [staggeredHooks]
    are registered in the order 1, 2, 3, all three apply at height 10, and
    the batch scheduled for height 10 lists them in the order 1, 3, 2.
    No two ranges the sweep meets start at the same height, so the heap
    has no choice to make. *)
Lemma createBatches_order_counterexample :
  Forall range_wf (requestedRanges staggeredHooks) ∧
  ∃ out b,
    runCreateBatches 49 staggeredHooks None = Done out ∧
    b ∈ out ∧ contains (range b) 10 = true ∧
    registeredAt staggeredHooks None 10 SlotPre
      = [Plain 1%nat; Plain 2%nat; Plain 3%nat] ∧
    slot (handlers b) SlotPre = [Plain 1%nat; Plain 3%nat; Plain 2%nat] ∧
    slot (handlers b) SlotPre ≠ registeredAt staggeredHooks None 10 SlotPre.
Proof.
  split; [apply staggeredHooks_wf|].
  exists [mkBatch (mkRange 0 (Some 4))
            (mkDataHandlers [1%nat] [] ∅ ∅ ∅);
          mkBatch (mkRange 5 (Some 9))
            (mkDataHandlers [1%nat; 3%nat] [] ∅ ∅ ∅);
          mkBatch (mkRange 10 (Some 20))
            (mkDataHandlers [1%nat; 3%nat; 2%nat] [] ∅ ∅ ∅)].
  exists (mkBatch (mkRange 10 (Some 20))
            (mkDataHandlers [1%nat; 3%nat; 2%nat] [] ∅ ∅ ∅)).
  split; [by vm_compute|].
  split; [set_solver|].
  repeat split; done.
Qed.

Lemma settledBatches_nonOverlapping : nonOverlapping settledBatches.
Proof.
  intros i j a b h Hij Hi Hj. rewrite !contains_true.
  destruct i as [|[|[|i]]], j as [|[|[|j]]];
    simpl in *; simplify_eq; simpl; lia.
Qed.

Lemma mergeBatches_idempotent_witness :
  runMergeBatches 3 settledBatches = Done settledBatches.
Proof.
  apply (proj1 (mergeBatches_idempotent (HeapOps0 := ListHeap Batch)
                  settledBatches)).
  - repeat constructor; simpl; lia.
  - apply settledBatches_nonOverlapping.
  - repeat constructor; unfold range_wf; simpl; try lia; done.
  - simpl. lia.
Defined.

Lemma dictOf_empty {T} (R : Memory → Ref → T → Prop) σ r :
  σ !! r = Some (DictObj ∅) → dictOf R σ r ∅.
Proof.
  intros Hr. exists ∅. split; [done|]. intros key.
  rewrite !lookup_empty. constructor.
Qed.

Lemma dictOf_singleton {T} (R : Memory → Ref → T → Prop) σ r key v t :
  σ !! r = Some (DictObj {[ key := v ]}) → R σ v t →
  dictOf R σ r {[ key := t ]}.
Proof.
  intros Hr Hv. exists {[ key := v ]}. split; [done|]. intros key'.
  destruct (decide (key = key')) as [<-|Hne].
  - rewrite !lookup_singleton_eq. by constructor.
  - rewrite !lookup_singleton_ne by done. constructor.
Qed.

Lemma sampleLeft_in_memory : handlersOf sampleMemory 5%nat sampleLeft.
Proof.
  exists 0%nat, 1%nat, 3%nat, 4%nat, 4%nat.
  repeat split; try done.
  - by apply (dictOf_singleton _ _ _ _ 2%nat).
  - by apply dictOf_empty.
  - by apply dictOf_empty.
Qed.

Lemma sampleRight_in_memory : handlersOf sampleMemory 11%nat sampleRight.
Proof.
  exists 6%nat, 7%nat, 9%nat, 10%nat, 10%nat.
  repeat split; try done.
  - by apply (dictOf_singleton _ _ _ _ 8%nat).
  - by apply dictOf_empty.
  - by apply dictOf_empty.
Qed.

Lemma mergeDataHandlers_keywise_witness :
  ∃ r σ',
    mergeDataHandlersJs 5%nat 11%nat sampleMemory = Some (r, σ') ∧
    sampleMemory `prefix_of` σ' ∧
    handlersOf σ' 5%nat sampleLeft ∧ handlersOf σ' 11%nat sampleRight ∧
    handlersOf σ' r (mergeDataHandlers sampleLeft sampleRight).
Proof.
  apply (proj1 (mergeDataHandlers_keywise sampleMemory 5%nat 11%nat
                  sampleLeft sampleRight
                  sampleLeft_in_memory sampleRight_in_memory)).
Defined.

(** Both inputs handle [Balances.Transfer]: the merge has handler 2 of
    the first before handler 3 of the second. *)
Example merged_transfer_handlers :
  events (mergeDataHandlers sampleLeft sampleRight) !! "Balances.Transfer"
  = Some [2%nat; 3%nat].
Proof. by vm_compute. Qed.

(** The schedule of [transferHooks]: [0,49] with the first handler,
    [50,99] with both in registration order, [100,150] with the
    second. *)
Example transferHooks_schedule :
  runCreateBatches 252 transferHooks None
  = Done
      [mkBatch (mkRange 0 (Some 49))
         (mkDataHandlers [] [] {[ "Balances.Transfer" := [1%nat] ]} ∅ ∅);
       mkBatch (mkRange 50 (Some 99))
         (mkDataHandlers [] []
            {[ "Balances.Transfer" := [1%nat; 2%nat] ]} ∅ ∅);
       mkBatch (mkRange 100 (Some 150))
         (mkDataHandlers [] [] {[ "Balances.Transfer" := [2%nat] ]} ∅ ∅)].
Proof. by vm_compute. Qed.

Lemma settledBatches_sorted : sortedByFrom settledBatches.
Proof. repeat constructor; simpl; lia. Qed.

Lemma settledBatches_wf : Forall (λ b, range_wf (range b)) settledBatches.
Proof. repeat constructor; unfold range_wf; simpl; try lia; done. Qed.

Lemma getBlocksCount_covered_witness :
  getBlocksCount settledBatches 120
  = Z.of_nat (length (coveredHeights 0 120 settledBatches)).
Proof.
  apply (getBlocksCount_covered settledBatches 0 120).
  - apply settledBatches_sorted.
  - apply settledBatches_nonOverlapping.
  - apply settledBatches_wf.
  - repeat constructor; simpl; lia.
Defined.

(** Up to height 120 the three batches [0,49], [50,99] and [100,∞) hold
    121 blocks; below the first batch there is nothing to count. *)
Example settledBatches_count :
  getBlocksCount settledBatches 120 = 121
  ∧ getBlocksCount settledBatches (-1) = 0.
Proof. done. Qed.

Lemma getBlocksCount_monotone_witness :
  0 <= getBlocksCount settledBatches 60
  ∧ getBlocksCount settledBatches 60 <= getBlocksCount settledBatches 120.
Proof.
  apply (getBlocksCount_monotone settledBatches 60 120).
  - apply settledBatches_wf.
  - lia.
Defined.

Lemma mergeBatches_partition_witness :
  ∃ out,
    (∀ fuel,
       (sweepFuel (registeredBatches staggeredHooks None) <= fuel)%nat →
       runMergeBatches fuel (registeredBatches staggeredHooks None)
       = Done out) ∧
    sortedByFrom out ∧
    nonOverlapping out ∧
    Forall (λ b, range_wf (range b)) out ∧
    (∀ h, coveredAt h out
          ↔ coveredAt h (registeredBatches staggeredHooks None)) ∧
    (∀ h b, b ∈ out → contains (range b) h = true →
       ∀ s, slot (handlers b) s
            ≡ₚ activeAt h s (registeredBatches staggeredHooks None)).
Proof.
  apply (mergeBatches_partition (HeapOps0 := ListHeap Batch)
           (registeredBatches staggeredHooks None)).
  apply registered_wf, staggeredHooks_wf.
Defined.

Lemma mergeBatches_sorts_witness :
  runMergeBatches 3 (reverse settledBatches) = Done settledBatches.
Proof.
  apply (mergeBatches_sorts (HeapOps0 := ListHeap Batch)
           (reverse settledBatches) settledBatches).
  - apply reverse_Permutation.
  - apply settledBatches_sorted.
  - apply settledBatches_nonOverlapping.
  - apply settledBatches_wf.
  - rewrite length_reverse. simpl. lia.
Defined.

Lemma mergeBatches_fixed_point_witness :
  ∃ out,
    (∀ fuel,
       (sweepFuel (registeredBatches transferHooks None) <= fuel)%nat →
       runMergeBatches fuel (registeredBatches transferHooks None)
       = Done out) ∧
    (∀ fuel, (length out <= fuel)%nat → runMergeBatches fuel out = Done out).
Proof.
  apply (mergeBatches_fixed_point (HeapOps0 := ListHeap Batch)
           (registeredBatches transferHooks None)).
  apply registered_wf. ranges_wf.
Defined.

Lemma getBlocksCount_scheduled_witness :
  ∃ out,
    (∀ fuel, (sweepFuel (registeredBatches transferHooks None) <= fuel)%nat →
             runCreateBatches fuel transferHooks None = Done out) ∧
    ∀ chainHeight,
      getBlocksCount out chainHeight
      = Z.of_nat (length (requestedHeights transferHooks None 0 chainHeight)).
Proof.
  apply (getBlocksCount_scheduled (HeapOps0 := ListHeap Batch)
           transferHooks None 0).
  - ranges_wf.
  - unfold requestedRanges; simpl; repeat constructor; simpl; lia.
Defined.

End SchedulerTheory.

(** * The processor front end and the dispatch engine: theorems *)

Module ProcessorTheory.
Import Processor.

(** ** Configuration after the start *)

Section configuration.
Variable getOldTypesBundle : string → option OldTypesBundle.
Variable readOldTypesBundle : string → option OldTypesBundle.

Lemma running_run p : running (run p) = true.
Proof. unfold run. by destruct (running p) eqn:Hr. Qed.

(** A method that starts with [assertNotRunning] throws at once when the
    processor runs, and leaves it as it is. *)
Lemma assertNotRunning_locked {A} (k : Method A) p :
  running p = true →
  (assertNotRunning;; k) p = (Err SettingsLocked, p).
Proof.
  intros Hr. unfold mbind, method_bind, assertNotRunning. by rewrite Hr.
Qed.

Lemma configure_locked c p :
  running p = true →
  configure getOldTypesBundle readOldTypesBundle c p
  = (Err SettingsLocked, p).
Proof. intros Hr. destruct c; by apply assertNotRunning_locked. Qed.

(** C9: once [run] has been called, every configuration operation throws
    the settings error at once and leaves the processor as it is; so does
    every one of a sequence of such calls, the state after all of them
    being the state [run] left. *)
Theorem configure_after_run (p : SubstrateProcessor) :
  (∀ c, configure getOldTypesBundle readOldTypesBundle c (run p)
        = (Err SettingsLocked, run p))
  ∧ (∀ cs, configureAll getOldTypesBundle readOldTypesBundle cs (run p)
           = (replicate (length cs) (Err SettingsLocked), run p)).
Proof.
  split.
  - intros c. apply configure_locked, running_run.
  - induction cs as [|c cs IH]; simpl; [done|].
    rewrite configure_locked by apply running_run. by rewrite IH.
Qed.

End configuration.

(** ** The calls a computation makes *)

Section dispatch.
Context {Store : Type} (behaviour : Invocation → Store → Result Store).

Local Abbreviation Run := (Run Store).

Lemma makesCalls_ret {A} (a : A) : makesCalls (mret a : Run A) [].
Proof.
  intros w res w' [= <- <-]. exists []. by rewrite app_nil_r.
Qed.

(** A computation that throws at once is a beginning of any order. *)
Lemma makesCalls_raise {A} e expected :
  makesCalls (raise e : Run A) expected.
Proof.
  intros w res w' [= <- <-]. exists [].
  rewrite app_nil_r. split; [done|]. split; [apply prefix_nil|done].
Qed.

Lemma makesCalls_invoke i : makesCalls (invoke behaviour i) [i].
Proof.
  intros w res w'. unfold invoke.
  destruct (behaviour i (store w)); intros [= <- <-]; exists [i];
    simpl; done.
Qed.

Lemma makesCalls_bind {A B} (m : Run A) (k : A → Run B) e1 e2 :
  makesCalls m e1 → (∀ a, makesCalls (k a) e2) →
  makesCalls (m ≫= k) (e1 ++ e2).
Proof.
  intros Hm Hk w res w'. unfold mbind, run_bind.
  destruct (m w) as [[a|e] w1] eqn:Hmw.
  - intros Hkw. destruct (Hm _ _ _ Hmw) as (p1 & Ht1 & _ & Hfull).
    destruct (Hk a _ _ _ Hkw) as (p2 & Ht2 & Hp2 & Hfull2).
    rewrite (Hfull a eq_refl) in Ht1.
    exists (e1 ++ p2). rewrite Ht2, Ht1, app_assoc. split; [done|].
    split; [by apply prefix_app|].
    intros b Hb. by rewrite (Hfull2 b Hb).
  - intros [= <- <-]. destruct (Hm _ _ _ Hmw) as (p1 & Ht1 & Hp1 & _).
    exists p1. split; [done|]. split; [|done].
    by apply prefix_app_r.
Qed.

(** After a fallible pure step, the continuation matters only for the
    value the step returns. *)
Lemma makesCalls_lift {A B} (r : Result A) (k : A → Run B) expected :
  (∀ a, r = Ok a → makesCalls (k a) expected) →
  makesCalls (lift r ≫= k) expected.
Proof.
  intros Hk. destruct r as [a|e]; simpl.
  - intros w res w'. unfold mbind, run_bind. simpl. by apply Hk.
  - intros w res w'. unfold mbind, run_bind. simpl.
    apply (makesCalls_raise e expected w).
Qed.

Lemma makesCalls_forEach {A} (l : list A) (body : A → Run unit)
    (f : A → list Invocation) :
  (∀ x, makesCalls (body x) (f x)) →
  makesCalls (forEach l body) (l ≫= f).
Proof.
  intros Hbody. induction l as [|x l IH].
  - apply makesCalls_ret.
  - rewrite bind_cons. cbn [forEach]. by apply makesCalls_bind.
Qed.

Lemma makesCalls_forEach_invoke {A} (l : list A) (f : A → Invocation) :
  makesCalls (forEach l (λ x, invoke behaviour (f x)))
             (f <$> l).
Proof.
  replace (f <$> l) with (l ≫= (λ x, [f x])).
  - apply makesCalls_forEach. intros x. apply makesCalls_invoke.
  - induction l as [|x l IH]; [done|]. by rewrite bind_cons, IH.
Qed.

(** ** Topic filters *)

Lemma matchesFrom_spec sets topics : ∀ i,
  matchesFrom i sets topics = true ↔
  ∀ j set, sets !! j = Some set →
           spec_entryMatches set (topics !! (i + j)%nat).
Proof.
  induction sets as [|set rest IH]; intros i; simpl.
  - split; [|done]. by intros _ j set' ?.
  - rewrite andb_true_iff, bool_decide_eq_true, IH. split.
    + intros [Hset Hrest] [|j] set' Hj; simpl in Hj.
      * simplify_eq. by rewrite Nat.add_0_r.
      * rewrite <- Nat.add_succ_comm. by apply Hrest.
    + intros Hall. split.
      * specialize (Hall 0%nat set eq_refl). by rewrite Nat.add_0_r in Hall.
      * intros j set' Hj. rewrite Nat.add_succ_comm. by apply (Hall (S j)).
Qed.

Lemma filterMatches_spec flt topics :
  filterMatches flt topics = true ↔ spec_filterMatches flt topics.
Proof.
  destruct flt as [sets|]; simpl; [|done]. apply matchesFrom_spec.
Qed.

Lemma includes_spec set topic :
  includes set topic = bool_decide (spec_entryMatches (TopicOneOf set) topic).
Proof.
  destruct topic as [t|]; cbn [includes].
  - apply bool_decide_ext. split; [simpl; eauto|].
    by intros (t' & [= <-] & ?).
  - symmetry. apply bool_decide_eq_false_2. by intros (t' & [=] & _).
Qed.

(** With the topics at hand, the loop of [evmHandlerMatches] returns
    what the filter says. *)
Lemma topicsMatch_topics sets log topics : ∀ i,
  args_topics (event_args log) = Some topics →
  topicsMatch i sets log = Ok (matchesFrom i sets topics).
Proof.
  intros i Ht. revert i.
  induction sets as [|set rest IH]; intros i; simpl; [done|].
  destruct set as [|t|set]; rewrite ?Ht.
  - rewrite IH. by rewrite (bool_decide_eq_true_2 True I).
  - simpl. destruct (bool_decide (topics !! i = Some t)); simpl; [apply IH|done].
  - rewrite includes_spec.
    destruct (bool_decide (spec_entryMatches (TopicOneOf set) (topics !! i)));
      simpl; [apply IH|done].
Qed.

(** Whenever the loop returns, it returns what the filter says of the
    topics the log reports. *)
Lemma topicsMatch_Ok sets log b : ∀ i,
  topicsMatch i sets log = Ok b →
  b = matchesFrom i sets (reportedTopics log).
Proof.
  unfold reportedTopics.
  destruct (args_topics (event_args log)) as [topics|] eqn:Ht.
  - intros i. rewrite (topicsMatch_topics _ _ topics) by done.
    by intros [= <-].
  - simpl. induction sets as [|set rest IH]; intros i; simpl.
    + by intros [= <-].
    + destruct set as [|t|set]; rewrite ?Ht; [|done..].
      intros Hr. rewrite <- (IH _ Hr).
      by rewrite (bool_decide_eq_true_2 True I).
Qed.

Lemma evmHandlerMatches_Ok h log b :
  evmHandlerMatches h log = Ok b →
  b = filterMatches (log_filter h) (reportedTopics log).
Proof.
  unfold evmHandlerMatches, filterMatches.
  destruct (log_filter h) as [sets|]; [apply topicsMatch_Ok|].
  by intros [= <-].
Qed.

(** The EVM log handlers a loop over [getEvmLogHandlers] runs. *)
Lemma makesCalls_forEvmLogHandlers evmLogs e :
  makesCalls
    (forEvmLogHandlers evmLogs e (λ h, invoke behaviour (EvmLogCall h e)))
    (if bool_decide (event_name e = "EVM.Log") then
       match reportedAddress e ≫= (evmLogs !!.) with
       | Some entries =>
           entries ≫= (λ h,
             if filterMatches (log_filter h) (reportedTopics e)
             then [EvmLogCall (log_handler h) e] else [])
       | None => []
       end
     else []).
Proof.
  unfold forEvmLogHandlers, reportedAddress.
  case_bool_decide as Hname; [|apply makesCalls_ret].
  apply makesCalls_lift. intros a ->. simpl.
  destruct (evmLogs !! a) as [entries|]; [|apply makesCalls_ret].
  apply makesCalls_forEach. intros h.
  apply makesCalls_lift. intros b ->%evmHandlerMatches_Ok.
  destruct (filterMatches _ _); [apply makesCalls_invoke|apply makesCalls_ret].
Qed.

(** A log without [args.topics]: the first entry of a filter that asks
    for a topic makes the match throw. *)
Lemma topicsMatch_missing_topics sets log : ∀ i,
  args_topics (event_args log) = None →
  (∃ set, set ∈ sets ∧ set ≠ TopicAny) →
  topicsMatch i sets log = Err TypeError.
Proof.
  intros i Ht. revert i.
  induction sets as [|set rest IH]; intros i (set' & Hin & Hne).
  { by apply elem_of_nil in Hin. }
  simpl. destruct set as [|t|ts]; rewrite ?Ht; [|done..].
  apply IH. exists set'. split; [|done].
  by apply elem_of_cons in Hin as [->|Hin].
Qed.

(** For an EVM log that carries its topics at [args.topics],
    [evmHandlerMatches] returns, and returns true exactly when the handler
    has no filter or every entry of its filter accepts the log's topic at
    its position: an undefined entry any topic, a literal the equal topic,
    a list a topic it contains.  For such an [EVM.Log] event at a contract
    address, the handlers run are those registered under that address
    whose filter matches, in the order of the list. *)
Lemma evmHandlerMatches_filter (h : EvmLogEntry) (log : SubstrateEvent)
    (topics : list string) :
  args_topics (event_args log) = Some topics →
  (∃ b, evmHandlerMatches h log = Ok b ∧
        (b = true ↔ spec_filterMatches (log_filter h) topics))
  ∧ (log_filter h = None → evmHandlerMatches h log = Ok true)
  ∧ ∀ evmLogs address entries,
      event_name log = "EVM.Log" →
      evmContractAddress log = Ok address →
      evmLogs !! address = Some entries →
      makesCalls
        (forEvmLogHandlers evmLogs log
           (λ h, invoke behaviour (EvmLogCall h log)))
        (entries ≫= (λ h,
           match evmHandlerMatches h log with
           | Ok true => [EvmLogCall (log_handler h) log]
           | _ => []
           end)).
Proof.
  intros Ht. split; [|split].
  - exists (filterMatches (log_filter h) topics). split.
    + unfold evmHandlerMatches, filterMatches.
      destruct (log_filter h) as [sets|]; [|done].
      by apply topicsMatch_topics.
    + apply filterMatches_spec.
  - unfold evmHandlerMatches. by intros ->.
  - intros evmLogs address entries Hname Haddr Hentries.
    pose proof (makesCalls_forEvmLogHandlers evmLogs log) as Hcalls.
    rewrite bool_decide_eq_true_2 in Hcalls by done.
    unfold reportedAddress, reportedTopics in Hcalls.
    rewrite Haddr, Ht in Hcalls. simpl in Hcalls. rewrite Hentries in Hcalls.
    replace (entries ≫= _) with
      (entries ≫= (λ h,
         if filterMatches (log_filter h) topics
         then [EvmLogCall (log_handler h) log] else [])); [done|].
    clear -Ht. induction entries as [|x l IH]; [done|].
    rewrite !bind_cons, IH. f_equal.
    assert (evmHandlerMatches x log
            = Ok (filterMatches (log_filter x) topics)) as ->.
    { unfold evmHandlerMatches, filterMatches.
      destruct (log_filter x) as [sets|]; [|done].
      by apply topicsMatch_topics. }
    by destruct (filterMatches _ _).
Qed.

(** C6: the claim fails for EVM logs that keep their data under
    [args.log].  [getEvmLogHandlers] accepts such a log, reading its
    address from [args.log.address]; [evmHandlerMatches] reads the topics
    from [args.topics] only, which such a log does not have: for a handler
    whose filter has an entry that is not undefined the match throws a
    type error, whatever topics the log carries, and the loop over the
    handlers of the address throws it before the handler is called. *)
Theorem evmHandlerMatches_log_shape (h : EvmLogEntry) (log : SubstrateEvent)
    (address : string) (sets : list EvmTopicSet) :
  event_name log = "EVM.Log" →
  args_address (event_args log) = None →
  args_log (event_args log) = Some (mkEvmLogInner (Some address)) →
  args_topics (event_args log) = None →
  log_filter h = Some sets →
  (∃ set, set ∈ sets ∧ set ≠ TopicAny) →
  evmContractAddress log = Ok address
  ∧ evmHandlerMatches h log = Err TypeError
  ∧ ∀ evmLogs rest (body : Handler → Run unit) w,
      evmLogs !! address = Some (h :: rest) →
      forEvmLogHandlers evmLogs log body w = (Err TypeError, w).
Proof.
  intros Hname Haddr Hlog Htopics Hfilter Hasks.
  assert (evmContractAddress log = Ok address) as Hread.
  { unfold evmContractAddress. by rewrite Haddr, Hlog. }
  assert (evmHandlerMatches h log = Err TypeError) as Hthrows.
  { unfold evmHandlerMatches. rewrite Hfilter.
    by apply topicsMatch_missing_topics. }
  split; [done|]. split; [done|].
  intros evmLogs rest body w Hentries. unfold forEvmLogHandlers.
  rewrite bool_decide_eq_true_2 by done.
  unfold mbind, run_bind. rewrite Hread. simpl. rewrite Hentries.
  cbn [forEach]. unfold mbind, run_bind. by rewrite Hthrows.
Qed.

(** ** The order of dispatch *)

Lemma bind_if_filter {A B} (c : A → bool) (f : A → B) (l : list A) :
  l ≫= (λ x, if c x then [f x] else []) = f <$> filter (λ x, c x = true) l.
Proof.
  induction l as [|x l IH]; [done|].
  rewrite bind_cons, IH, filter_cons.
  by destruct (c x).
Qed.

Lemma makesCalls_call hs c :
  makesCalls (processItem behaviour hs (CallItem c))
    ((λ h, CallCall (handler h) c)
       <$> filter (λ h, triggers c h = true) (getCallHandlers hs c)).
Proof.
  rewrite <- bind_if_filter. simpl.
  apply makesCalls_forEach. intros h.
  destruct (triggers c h); [apply makesCalls_invoke|apply makesCalls_ret].
Qed.

Lemma makesCalls_processItem hs item :
  makesCalls (processItem behaviour hs item) (spec_itemOrder hs item).
Proof.
  destruct item as [e|c|].
  - cbn [processItem spec_itemOrder].
    rewrite app_assoc, <- fmap_app.
    apply makesCalls_bind; [apply makesCalls_forEach_invoke|intros _].
    apply makesCalls_bind; [apply makesCalls_forEvmLogHandlers|intros _].
    apply makesCalls_bind; [apply makesCalls_forEach_invoke|intros _].
    apply makesCalls_bind; [apply makesCalls_forEach_invoke|intros _].
    apply makesCalls_lift. intros sent ->.
    apply makesCalls_forEach_invoke.
  - apply makesCalls_call.
  - apply makesCalls_raise.
Qed.

(** ** Taking the steps of the plan *)

Lemma runPlan_app p1 p2 w :
  runPlan behaviour (p1 ++ p2) w =
  match runPlan behaviour p1 w with
  | (Ok _, w1) => runPlan behaviour p2 w1
  | (Err e, w1) => (Err e, w1)
  end.
Proof.
  revert w. induction p1 as [|[i|e] p1 IH]; intros w; simpl; [done| |done].
  destruct (behaviour i (store w)); [apply IH|done].
Qed.

Lemma follows_ret : follows behaviour (mret tt) [].
Proof. by intros w. Qed.

Lemma follows_raise e : follows behaviour (raise e) [GiveUp e].
Proof. by intros w. Qed.

Lemma follows_invoke i : follows behaviour (invoke behaviour i) [Call i].
Proof.
  intros w. unfold invoke. simpl. by destruct (behaviour i (store w)).
Qed.

Lemma follows_bind (m : Run unit) (k : unit → Run unit) p1 p2 :
  follows behaviour m p1 → follows behaviour (k tt) p2 →
  follows behaviour (m ≫= k) (p1 ++ p2).
Proof.
  intros Hm Hk w. rewrite runPlan_app, <- Hm.
  unfold mbind, run_bind. destruct (m w) as [[[]|e] w1]; [apply Hk|done].
Qed.

Lemma follows_forEach {A} (l : list A) (body : A → Run unit)
    (f : A → list Step) :
  (∀ x, follows behaviour (body x) (f x)) →
  follows behaviour (forEach l body) (l ≫= f).
Proof.
  intros Hbody. induction l as [|x l IH]; [apply follows_ret|].
  rewrite bind_cons. cbn [forEach]. by apply follows_bind.
Qed.

Lemma follows_forEach_invoke {A} (l : list A) (f : A → Invocation) :
  follows behaviour (forEach l (λ x, invoke behaviour (f x)))
          ((λ x, Call (f x)) <$> l).
Proof.
  replace ((λ x, Call (f x)) <$> l) with (l ≫= (λ x, [Call (f x)])).
  - apply follows_forEach. intros x. apply follows_invoke.
  - induction l as [|x l IH]; [done|]. by rewrite bind_cons, IH.
Qed.

Lemma handlersAt_registered {H} (m : gmap string (Handlers H)) key :
  handlersAt m key = spec_registered m key.
Proof. unfold handlersAt, spec_registered. by destruct (m !! key). Qed.

Lemma keyOf_key k : keyOf k = spec_key k.
Proof. by destruct k. Qed.

Lemma evmContractAddress_logAddress e :
  evmContractAddress e =
  match spec_logAddress e with inl err => Err err | inr a => Ok a end.
Proof.
  unfold evmContractAddress, spec_logAddress.
  destruct (args_address (event_args e)) as [[|c a]|];
    destruct (args_log (event_args e)) as [[[a'|]]|]; done.
Qed.

(** Without [args.topics] the loop of [evmHandlerMatches] passes over the
    undefined entries and throws at the first other one. *)
Lemma topicsMatch_no_topics sets log : ∀ i,
  args_topics (event_args log) = None →
  topicsMatch i sets log
  = if forallb isAny sets then Ok true else Err TypeError.
Proof.
  intros i Ht. revert i.
  induction sets as [|set rest IH]; intros i; simpl; [done|].
  destruct set as [|t|ts]; rewrite ?Ht; simpl; [apply IH|done..].
Qed.

Lemma follows_logEntry e h :
  follows behaviour
    (matches ← lift (evmHandlerMatches h e);
     if matches : bool then invoke behaviour (EvmLogCall (log_handler h) e)
     else mret tt)
    (spec_logStep e h).
Proof.
  unfold evmHandlerMatches, spec_logStep.
  destruct (log_filter h) as [sets|]; [|apply follows_invoke].
  destruct (args_topics (event_args e)) as [topics|] eqn:Ht.
  - rewrite (topicsMatch_topics _ _ topics) by done.
    destruct (matchesFrom 0 sets topics);
      [apply follows_invoke|apply follows_ret].
  - rewrite topicsMatch_no_topics by done.
    destruct (forallb isAny sets);
      [apply follows_invoke|apply follows_raise].
Qed.

Lemma follows_lift {A} (r : Result A) (k : A → Run unit) p :
  (∀ a, r = Ok a → follows behaviour (k a) p) →
  (∀ e, r = Err e → p = [GiveUp e]) →
  follows behaviour (lift r ≫= k) p.
Proof.
  intros Hok Herr. destruct r as [a|e].
  - intros w. unfold mbind, run_bind. simpl. by apply Hok.
  - rewrite (Herr e eq_refl). by intros w.
Qed.

Lemma follows_forEvmLogHandlers evmLogs e :
  follows behaviour
    (forEvmLogHandlers evmLogs e (λ h, invoke behaviour (EvmLogCall h e)))
    (if bool_decide (event_name e = "EVM.Log") then
       match spec_logAddress e with
       | inl err => [GiveUp err]
       | inr address => default [] (evmLogs !! address) ≫= spec_logStep e
       end
     else []).
Proof.
  unfold forEvmLogHandlers. case_bool_decide as Hname; [|apply follows_ret].
  rewrite evmContractAddress_logAddress.
  destruct (spec_logAddress e) as [err|a].
  - apply follows_lift; [done|]. by intros e' [= <-].
  - apply follows_lift; [|done]. intros a' [= <-].
    destruct (evmLogs !! a) as [entries|]; [|apply follows_ret].
    apply follows_forEach. intros h. apply follows_logEntry.
Qed.

(** The loop over the call handlers takes the steps of those that
    trigger. *)
Lemma follows_calls (c : SubstrateCall) (l : list CallHandlerEntry) :
  follows behaviour
    (forEach l (λ h,
       if triggers c h then invoke behaviour (CallCall (handler h) c)
       else mret tt))
    ((λ h, Call (CallCall (handler h) c))
       <$> filter (λ h, call_success c = true
                        ∨ triggerForFailedCalls h = Some true) l).
Proof.
  replace ((λ h, Call (CallCall (handler h) c)) <$> filter _ l) with
    (l ≫= (λ h, if triggers c h
                then [Call (CallCall (handler h) c)] else [])).
  - apply follows_forEach. intros h.
    destruct (triggers c h); [apply follows_invoke|apply follows_ret].
  - rewrite (bind_if_filter (triggers c)
               (λ h, Call (CallCall (handler h) c))).
    f_equal. apply list_filter_iff. intros h. unfold triggers.
    rewrite orb_true_iff.
    destruct (triggerForFailedCalls h) as [[|]|]; simpl;
      intuition congruence.
Qed.

Lemma follows_processItem hs item :
  follows behaviour (processItem behaviour hs item) (spec_itemPlan hs item).
Proof.
  destruct item as [e|c|].
  - cbn [processItem spec_itemPlan]. rewrite app_assoc, <- fmap_app.
    apply follows_bind.
    { unfold getEventHandlers. rewrite !handlersAt_registered.
      apply follows_forEach_invoke. }
    apply follows_bind; [apply follows_forEvmLogHandlers|].
    apply follows_bind.
    { unfold getContractEmittedHandlers.
      rewrite handlersAt_registered, keyOf_key.
      case_bool_decide; [apply follows_forEach_invoke|apply follows_ret]. }
    apply follows_bind.
    { unfold getGearMessageEnqueuedHandlers.
      rewrite handlersAt_registered, keyOf_key.
      case_bool_decide; [apply follows_forEach_invoke|apply follows_ret]. }
    unfold getGearUserMessageSentHandlers.
    case_bool_decide.
    + destruct (args_message (event_args e)) as [m|].
      * apply follows_lift; [|done]. intros sent [= <-].
        rewrite handlersAt_registered, keyOf_key.
        apply follows_forEach_invoke.
      * apply follows_lift; [done|]. by intros e' [= <-].
    + apply follows_lift; [|done]. intros sent [= <-]. apply follows_ret.
  - cbn [processItem spec_itemPlan]. unfold getCallHandlers.
    rewrite !handlersAt_registered. apply follows_calls.
  - apply follows_raise.
Qed.


(** C5: for a call item, from any state, [processItem] calls exactly the
    call handlers registered under [*] and under the call's name, in that
    order, for which the call succeeded or the handler's own failed-call
    flag is set, each on the store the one before left, up to the first
    that throws: on a failed call a handler without the flag is passed
    over and one with the flag is called. *)
Theorem call_handlers_triggered (hs : DataHandlers) (c : SubstrateCall)
    (w : World Store) :
  processItem behaviour hs (CallItem c) w
  = runPlan behaviour
      ((λ h, Call (CallCall (handler h) c))
         <$> filter (λ h, call_success c = true
                          ∨ triggerForFailedCalls h = Some true)
               (spec_registered (dh_calls hs) "*"
                ++ spec_registered (dh_calls hs) (call_name c)))
      w.
Proof.
  revert w. cbn [processItem]. unfold getCallHandlers.
  rewrite !handlersAt_registered. apply follows_calls.
Qed.

(** ** Blocks, transactions and the watermark *)

Lemma processBatch_app hs done rest r r1 :
  processBatch behaviour hs done r = (Ok tt, r1) →
  processBatch behaviour hs (done ++ rest) r
  = processBatch behaviour hs rest r1.
Proof.
  revert r. induction done as [|b done IH]; intros r; simpl.
  - by intros [= <-].
  - destruct (lastBlock r <? height (header b)); [|done].
    destruct (transact _ _ _ r) as [[u|e] r']; [|done].
    apply IH.
Qed.

(** C3: with the blocks [done] processed and committed, the next block
    is handled as follows.  If the watermark is not below its height, the
    assertion fails before anything else happens.  Otherwise its
    processing runs in a transaction keyed by its height twice; if the
    processing throws, the error is thrown again with the block's height
    and hash attached, the transaction is not committed, the store holds
    what the blocks before it committed and the watermark keeps its
    value; if it completes, the transaction commits and the watermark
    becomes the block's height. *)
Theorem processBatch_block (hs : DataHandlers)
    (done : list BlockData) (block : BlockData) (rest : list BlockData)
    (r r1 : Runner Store) :
  processBatch behaviour hs done r = (Ok tt, r1) →
  (¬ lastBlock r1 < height (header block) →
   processBatch behaviour hs (done ++ block :: rest) r
   = (Err AssertionFailed, r1))
  ∧ (lastBlock r1 < height (header block) →
     ∀ e w,
       processBlock behaviour hs block (mkWorld (committed r1) (calls r1))
       = (Err e, w) →
       processBatch behaviour hs (done ++ block :: rest) r
       = (Err (WithContext e (height (header block)) (hash (header block))),
          mkRunner (lastBlock r1) (committed r1)
            (transactions r1
             ++ [mkTransaction (height (header block))
                   (height (header block)) false])
            (trace w)))
  ∧ (lastBlock r1 < height (header block) →
     ∀ u w,
       processBlock behaviour hs block (mkWorld (committed r1) (calls r1))
       = (Ok u, w) →
       processBatch behaviour hs (done ++ [block]) r
       = (Ok tt,
          mkRunner (height (header block)) (store w)
            (transactions r1
             ++ [mkTransaction (height (header block))
                   (height (header block)) true])
            (trace w))).
Proof.
  intros Hdone. repeat split.
  - intros Hnot. rewrite (processBatch_app _ _ _ _ _ Hdone). simpl.
    by destruct (Z.ltb_spec (lastBlock r1) (height (header block))).
  - intros Hlt e w Hrun. rewrite (processBatch_app _ _ _ _ _ Hdone). simpl.
    destruct (Z.ltb_spec (lastBlock r1) (height (header block))); [|lia].
    unfold transact. by rewrite Hrun.
  - intros Hlt u w Hrun. rewrite (processBatch_app _ _ _ _ _ Hdone). simpl.
    destruct (Z.ltb_spec (lastBlock r1) (height (header block))); [|lia].
    unfold transact. by rewrite Hrun.
Qed.

End dispatch.

(** ** Contract addresses *)

Lemma lowerAscii_idemp c : lowerAscii (lowerAscii c) = lowerAscii c.
Proof. by destruct c as [[] [] [] [] [] [] [] []]. Qed.

Lemma toLowerCase_idemp s : toLowerCase (toLowerCase s) = toLowerCase s.
Proof.
  induction s as [|c s IH]; simpl; [done|].
  by rewrite lowerAscii_idemp, IH.
Qed.

(** C10: [addEvmLogHandler] and [addContractsContractEmittedHandler]
    record the registration under the lower-cased contract address, so
    that two spellings of an address that differ in letter case give the
    same registration; the dispatch engine looks up the address an event
    reports as it is, so that the registered handler runs only for events
    whose reported address is the lower-cased one, and does run for them
    (an EVM log handler when it has no topic filter). *)
Theorem contract_address_lowercased {Store : Type}
    (behaviour : Invocation → Store → Result Store) (s : string) :
  (∀ args p fn o,
     running p = false →
     resolve (mkEvmLogOptions None None None) args p = (Ok (fn, o), p) →
     ∃ p', addEvmLogHandler s args p = (Ok tt, p') ∧
           evmLog (hooks p')
           = evmLog (hooks p) ++ [mkEvmLogHook fn (toLowerCase s) o])
  ∧ (∀ args p fn o,
     running p = false →
     resolve noRangeOptions args p = (Ok (fn, o), p) →
     ∃ p', addContractsContractEmittedHandler s args p = (Ok tt, p') ∧
           contractsContractEmitted (hooks p')
           = contractsContractEmitted (hooks p)
             ++ [mkContractHook fn (toLowerCase s) o])
  ∧ (∀ s', toLowerCase s' = toLowerCase s →
           addEvmLogHandler s' = addEvmLogHandler s ∧
           addContractsContractEmittedHandler s'
           = addContractsContractEmittedHandler s)
  ∧ (∀ fn o e w res w',
       forEvmLogHandlers
         (dh_evmLogs (evmLogRequest (mkEvmLogHook fn (toLowerCase s) o))) e
         (λ h, invoke behaviour (EvmLogCall h e)) w = (res, w') →
       (trace w' ≠ trace w →
        event_name e = "EVM.Log" ∧
        evmContractAddress e = Ok (toLowerCase s))
       ∧ (event_name e = "EVM.Log" →
          evmContractAddress e = Ok (toLowerCase s) →
          evm_filter o = None →
          trace w' = trace w ++ [EvmLogCall fn e]))
  ∧ (∀ fn o e,
       getContractEmittedHandlers
         (contractEmittedRequest (mkContractHook fn (toLowerCase s) o)) e
       = if bool_decide (event_name e = "Contracts.ContractEmitted")
            && bool_decide (keyOf (args_contract (event_args e))
                            = toLowerCase s)
         then [fn] else []).
Proof.
  repeat split.
  - intros args p fn o Hrun Hres. eexists. split.
    + unfold addEvmLogHandler, mbind, method_bind, assertNotRunning.
      rewrite Hrun, Hres. reflexivity.
    + done.
  - intros args p fn o Hrun Hres. eexists. split.
    + unfold addContractsContractEmittedHandler, mbind, method_bind,
        assertNotRunning.
      rewrite Hrun, Hres. reflexivity.
    + done.
  - unfold addEvmLogHandler. by rewrite H.
  - unfold addContractsContractEmittedHandler. by rewrite H.
  - revert H. unfold forEvmLogHandlers.
    case_bool_decide as Hname; [|by intros [= <- <-]]. done.
  - revert H H0. unfold forEvmLogHandlers.
    case_bool_decide as Hname; [|by intros [= <- <-]].
    unfold mbind, run_bind.
    destruct (evmContractAddress e) as [a|err]; simpl; [|by intros [= <- <-]].
    destruct (decide (a = toLowerCase s)) as [->|Hne]; [done|].
    rewrite lookup_singleton_ne by done. by intros [= <- <-].
  - intros Hname Haddr Hnone. revert H. unfold forEvmLogHandlers.
    rewrite bool_decide_eq_true_2 by done.
    unfold mbind, run_bind. rewrite Haddr. simpl.
    rewrite lookup_singleton_eq. simpl.
    unfold evmHandlerMatches. simpl. rewrite Hnone. simpl.
    unfold invoke, mbind, run_bind.
    destruct (behaviour (EvmLogCall fn e) (store w)); by intros [= <- <-].
  - intros fn o e. unfold getContractEmittedHandlers, handlersAt. simpl.
    case_bool_decide as Hname; simpl; [|done].
    case_bool_decide as Hkey.
    + by rewrite Hkey, lookup_singleton_eq.
    + by rewrite lookup_singleton_ne.
Qed.

(** ** What configuration calls keep *)

Section settings.
Variable getOldTypesBundle : string → option OldTypesBundle.
Variable readOldTypesBundle : string → option OldTypesBundle.

Local Abbreviation configure :=
  (configure getOldTypesBundle readOldTypesBundle).
Local Abbreviation configureAll :=
  (configureAll getOldTypesBundle readOldTypesBundle).
Local Abbreviation reachable :=
  (reachable getOldTypesBundle readOldTypesBundle).

(** The outcomes of a configuration call, method by method. *)
Ltac config_cases c p :=
  destruct c as [s|[name|b]|r|size|port|args|args|ev args|cn args
                 |addr args|addr args|pid args|pid args];
  unfold Processor.configure, setDataSource, setTypesBundle, setBlockRange,
    setBatchSize, setPrometheusPort, addPreHook, addPostHook,
    addEventHandler, addCallHandler, addEvmLogHandler,
    addContractsContractEmittedHandler, addGearMessageEnqueuedHandler,
    addGearUserMessageSentHandler, resolve, setHooks, modify, throw,
    mbind, method_bind, mret, method_ret, assertNotRunning;
  destruct (running p) eqn:Hrun;
  try (destruct args as [fn|o [fn|]]);
  try (destruct (getOldTypesBundle name);
       [|destruct (readOldTypesBundle name)]);
  try (destruct (Z.ltb_spec 0 size));
  cbn [fst snd].

(** X8: a configuration call that throws, for whatever reason (the
    processor runs, the batch size is not positive, the callback is
    missing, the types bundle cannot be found), leaves the processor as it
    was: no setting is changed and no handler registered. *)
Theorem configure_failure_atomic (c : ConfigCall) (p : SubstrateProcessor)
    (e : Error) (p' : SubstrateProcessor) :
  configure c p = (Err e, p') → p' = p.
Proof. config_cases c p; congruence. Qed.

Lemma hooksExtend_refl h : hooksExtend h h.
Proof. by repeat split. Qed.

Lemma hooksExtend_trans h1 h2 h3 :
  hooksExtend h1 h2 → hooksExtend h2 h3 → hooksExtend h1 h3.
Proof.
  intros (?&?&?&?&?&?&?&?) (?&?&?&?&?&?&?&?).
  repeat split; by etrans.
Qed.

Lemma configure_extends c p :
  hooksExtend (hooks p) (hooks (configure c p).2)
  ∧ running (configure c p).2 = running p.
Proof.
  config_cases c p; (split; [|done]);
    repeat split; simpl; try done; apply prefix_app_r; done.
Qed.

(** X9: configuration calls only add registrations, and only at the end:
    after any sequence of calls, whatever their outcomes, each of the
    eight hook lists begins with the list as it was before, in the same
    order; and no configuration call starts or stops the processor. *)
Theorem configureAll_append_only (cs : list ConfigCall)
    (p : SubstrateProcessor) :
  hooksExtend (hooks p) (hooks (configureAll cs p).2)
  ∧ running (configureAll cs p).2 = running p.
Proof.
  revert p. induction cs as [|c cs IH]; intros p; simpl.
  - split; [apply hooksExtend_refl|done].
  - destruct (configure_extends c p) as [Hext Hrun].
    destruct (configure c p) as [r p1]. simpl in *.
    destruct (IH p1) as [Hext' Hrun'].
    destruct (configureAll cs p1) as [rs p2]. simpl in *.
    split; [by eapply hooksExtend_trans|congruence].
Qed.

Lemma configure_batchSize c p :
  0 < batchSize p → 0 < batchSize (configure c p).2.
Proof. config_cases c p; simpl; lia. Qed.

(** X10: the batch size of a processor is positive in every state the
    object can reach from its construction by configuration calls and
    [run]: [setBatchSize] is the only method that writes it, and it
    refuses a size that is not positive. *)
Theorem batchSize_positive (p : SubstrateProcessor) :
  reachable p → 0 < batchSize p.
Proof.
  induction 1 as [|c p Hp IH|p Hp IH].
  - simpl. lia.
  - by apply configure_batchSize.
  - unfold run. by destruct (running p).
Qed.

Lemma configure_lowerCased c p :
  lowerCased (hooks p) → lowerCased (hooks (configure c p).2).
Proof.
  unfold lowerCased.
  config_cases c p; simpl; try done; intros [H1 H2];
    (split; [try done|try done]);
    (apply Forall_app; split; [done|]); repeat constructor; simpl;
    apply toLowerCase_idemp.
Qed.

Lemma reachable_lowerCased p : reachable p → lowerCased (hooks p).
Proof.
  induction 1 as [|c p Hp IH|p Hp IH].
  - by split.
  - by apply configure_lowerCased.
  - unfold run. by destruct (running p).
Qed.

(** X11: in every state a processor can reach, the contract addresses
    of all EVM log and contract-emitted registrations are in lower case.
    The dispatch engine looks up the address an event reports as it is:
    so an event whose reported address has an upper-case letter runs no
    handler of such a registration, whatever address the handler was
    registered for. *)
Theorem mixed_case_address_unmatched {Store : Type}
    (p : SubstrateProcessor) :
  reachable p →
  lowerCased (hooks p)
  ∧ (∀ hook (e : SubstrateEvent) a (body : Handler → Run Store unit) w,
       hook ∈ evmLog (hooks p) →
       evmContractAddress e = Ok a → toLowerCase a ≠ a →
       forEvmLogHandlers (dh_evmLogs (evmLogRequest hook)) e body w
       = (Ok tt, w))
  ∧ (∀ hook (e : SubstrateEvent) a,
       hook ∈ contractsContractEmitted (hooks p) →
       args_contract (event_args e) = Some a → toLowerCase a ≠ a →
       getContractEmittedHandlers (contractEmittedRequest hook) e = []).
Proof.
  intros Hp. pose proof (reachable_lowerCased _ Hp) as [Hevm Hcon].
  split; [done|]. split.
  - intros hook e a body w Hin Ha Hmixed.
    pose proof (proj1 (Forall_forall _ _) Hevm hook Hin) as Hlow.
    unfold forEvmLogHandlers. case_bool_decide; [|done].
    unfold mbind, run_bind. rewrite Ha. simpl.
    rewrite lookup_singleton_ne; [done|]. congruence.
  - intros hook e a Hin Ha Hmixed.
    pose proof (proj1 (Forall_forall _ _) Hcon hook Hin) as Hlow.
    unfold getContractEmittedHandlers, handlersAt. case_bool_decide; [|done].
    rewrite Ha. simpl. rewrite lookup_singleton_ne; [done|]. congruence.
Qed.

(** X12: on a processor that does not run, the data source in force
    after a sequence of configuration calls is the one of the last
    [setDataSource] among them, whatever the other calls are and whether
    they throw: [getArchiveEndpoint] returns its archive url and
    [getChainEndpoint] its chain endpoint, throwing when it has none; with
    no [setDataSource] among the calls both return or throw as before. *)
Theorem dataSource_last_wins (cs : list ConfigCall) (p : SubstrateProcessor) :
  running p = false →
  let p' := (configureAll cs p).2 in
  src p' = match lastDataSource cs with Some s => Some s | None => src p end
  ∧ getArchiveEndpoint p'
    = match lastDataSource cs with
      | Some s => Some (archive s)
      | None => getArchiveEndpoint p
      end
  ∧ getChainEndpoint p'
    = match lastDataSource cs with
      | Some s => chain s
      | None => getChainEndpoint p
      end.
Proof.
  intros Hidle. cbv zeta.
  assert (src (configureAll cs p).2
          = match lastDataSource cs with Some s => Some s | None => src p end)
    as Hsrc.
  { revert p Hidle. induction cs as [|c cs IH]; intros p Hidle; simpl; [done|].
    pose proof (configure_extends c p) as [_ Hrun].
    assert (src (configure c p).2
            = match c with SetDataSource s => Some s | _ => src p end) as Hc.
    { clear IH Hrun. config_cases c p; try done; congruence. }
    destruct (configure c p) as [r p1]. simpl in *.
    specialize (IH p1). rewrite Hrun in IH. specialize (IH Hidle).
    destruct (configureAll cs p1) as [rs p2]. simpl in *.
    rewrite IH. destruct (lastDataSource cs); [done|].
    rewrite Hc. by destruct c. }
  split; [done|].
  unfold getArchiveEndpoint, getChainEndpoint. rewrite Hsrc.
  by destruct (lastDataSource cs).
Qed.

(** X13: after a [setTypesBundle] that returns, [getTypesBundle] returns
    the configured bundle for every spec name and version, the built-in
    bundle of the spec's chain being consulted no more.  The configured
    bundle is the object given, or for a name the built-in bundle of that
    name, or else what the file of that name holds. *)
Theorem typesBundle_round_trip (bundle : string + OldTypesBundle)
    (p p' : SubstrateProcessor) :
  setTypesBundle getOldTypesBundle readOldTypesBundle bundle p = (Ok tt, p') →
  ∃ b,
    (∀ specName specVersion,
       getTypesBundle getOldTypesBundle specName specVersion p' = Some b)
    ∧ match bundle with
      | inr given => b = given
      | inl name =>
          getOldTypesBundle name = Some b
          ∨ (getOldTypesBundle name = None ∧ readOldTypesBundle name = Some b)
      end.
Proof.
  unfold setTypesBundle, getTypesBundle, modify, throw, mbind, method_bind,
    mret, method_ret, assertNotRunning.
  destruct (running p); [done|].
  destruct bundle as [name|given].
  - destruct (getOldTypesBundle name) as [b|] eqn:Hget.
    + intros [= <-]. exists b. simpl. auto.
    + destruct (readOldTypesBundle name) as [b|] eqn:Hread; [|done].
      intros [= <-]. exists b. simpl. auto.
  - intros [= <-]. by exists given.
Qed.

End settings.

Section engine.
Context {Store : Type} (behaviour : Invocation → Store → Result Store).

Local Abbreviation Run := (Run Store).

(** ** From registration to dispatch *)

(** The handlers a request with one key holds under a key. *)
Lemma handlersAt_singleton {H} (name key : string) (hs : Handlers H) :
  handlersAt ({[ name := hs ]} : gmap string (Handlers H)) key
  = if bool_decide (name = key) then handlers hs else [].
Proof.
  unfold handlersAt. case_bool_decide as Hk.
  - subst. by rewrite lookup_singleton_eq.
  - by rewrite lookup_singleton_ne.
Qed.

Lemma registered_singleton {H} (name key : string) (hs : Handlers H) :
  spec_registered ({[ name := hs ]} : gmap string (Handlers H)) key
  = if bool_decide (name = key) then handlers hs else [].
Proof.
  unfold spec_registered. case_bool_decide as Hk.
  - subst. by rewrite lookup_singleton_eq.
  - by rewrite lookup_singleton_ne.
Qed.

Lemma registered_empty {H} (key : string) :
  spec_registered (∅ : gmap string (Handlers H)) key = [].
Proof. unfold spec_registered. by rewrite lookup_empty. Qed.

(** X14: a call handler registered with options on a processor that does
    not run is appended to the call hooks with the options as given;
    [createBatches] builds one request for it, with the range of the
    options or [{from: 0}]; and against that request the processing of a
    call item, from any state, is exactly this: the handler is called once
    if it was registered under [*], once more if it was registered under
    the call's name (the second call only if the first returned), and in
    either case only if the call succeeded or the options have
    [triggerForFailedCalls] set; nothing else is called and nothing else
    throws. *)
Theorem call_registration_dispatch (callName : string) (fn : Handler)
    (o : CallOptions) (p : SubstrateProcessor) (c : SubstrateCall) :
  running p = false →
  ∃ p',
    addCallHandler callName (WithOptions o (Some fn)) p = (Ok tt, p') ∧
    call (hooks p') = call (hooks p) ++ [mkCallHook callName fn o] ∧
    (getRange (call_range o), callRequest (mkCallHook callName fn o))
      ∈ requestBatches (hooks p') ∧
    ∀ w,
      processItem behaviour (callRequest (mkCallHook callName fn o))
        (CallItem c) w
      = runPlan behaviour
          (if call_success c
              || bool_decide (call_triggerForFailedCalls o = Some true)
           then (if bool_decide (callName = "*")
                 then [Call (CallCall fn c)] else [])
                ++ (if bool_decide (callName = call_name c)
                    then [Call (CallCall fn c)] else [])
           else [])
          w.
Proof.
  intros Hidle. eexists. split; [|split; [|split]].
  - unfold addCallHandler, resolve, setHooks, modify, mbind, method_bind,
      mret, method_ret, assertNotRunning. rewrite Hidle. reflexivity.
  - done.
  - unfold requestBatches. cbn [hooks call]. rewrite !elem_of_app.
    do 3 right. left. rewrite fmap_app, elem_of_app. right.
    apply list_elem_of_singleton. done.
  - intros w.
    rewrite (follows_processItem behaviour
               (callRequest (mkCallHook callName fn o)) (CallItem c) w).
    f_equal. unfold spec_itemPlan, callRequest.
    cbn [dh_calls ch_call ch_handler ch_options].
    rewrite !registered_singleton. cbn [handlers].
    rewrite filter_app, fmap_app.
    assert (∀ (cond : bool),
      (λ h, Call (CallCall (handler h) c))
        <$> filter (λ h, call_success c = true
                         ∨ triggerForFailedCalls h = Some true)
              (if cond
               then [mkCallHandlerEntry fn (call_triggerForFailedCalls o)]
               else [])
      = if call_success c
           || bool_decide (call_triggerForFailedCalls o = Some true)
        then (if cond then [Call (CallCall fn c)] else [])
        else []) as Hside.
    { intros [|]; [|by destruct (_ || _)].
      rewrite filter_cons, filter_nil. cbn [triggerForFailedCalls].
      destruct (decide _) as [Hyes|Hno].
      - destruct Hyes as [Hyes | Hyes]; rewrite Hyes; [done|]. by rewrite orb_true_r.
      - destruct (call_success c); [tauto|]. simpl.
        case_bool_decide; [tauto|done]. }
    rewrite !Hside. by destruct (_ || _).
Qed.

(** X15: an event handler registered with options on a processor that
    does not run is appended to the event hooks; [createBatches] builds
    one request for it, with the range of the options or [{from: 0}]; and
    against that request the processing of an event item the engine can
    take apart, from any state, is exactly this: the handler is called
    once if it was registered under [*] and once more if it was
    registered under the event's name (the second call only if the first
    returned); nothing else is called and nothing else throws.  For any
    event item the calls made are a beginning of these calls. *)
Theorem event_registration_dispatch (eventName : string) (fn : Handler)
    (o : RangeOptions) (p : SubstrateProcessor) (e : SubstrateEvent) :
  running p = false →
  ∃ p',
    addEventHandler eventName (WithOptions o (Some fn)) p = (Ok tt, p') ∧
    event (hooks p') = event (hooks p) ++ [mkEventHook eventName fn o] ∧
    (getRange (range o), eventRequest (mkEventHook eventName fn o))
      ∈ requestBatches (hooks p') ∧
    (¬ unreadable (EventItem e) →
     ∀ w,
       processItem behaviour (eventRequest (mkEventHook eventName fn o))
         (EventItem e) w
       = runPlan behaviour
           ((if bool_decide (eventName = "*")
             then [Call (EventCall fn e)] else [])
            ++ (if bool_decide (eventName = event_name e)
                then [Call (EventCall fn e)] else []))
           w) ∧
    makesCalls
      (processItem behaviour (eventRequest (mkEventHook eventName fn o))
         (EventItem e))
      ((if bool_decide (eventName = "*") then [EventCall fn e] else [])
       ++ (if bool_decide (eventName = event_name e)
           then [EventCall fn e] else [])).
Proof.
  intros Hidle. eexists. split; [|split; [|split; [|split]]].
  - unfold addEventHandler, resolve, setHooks, modify, mbind, method_bind,
      mret, method_ret, assertNotRunning. rewrite Hidle. reflexivity.
  - done.
  - unfold requestBatches. cbn [hooks event]. rewrite !elem_of_app.
    do 2 right. left. rewrite fmap_app, elem_of_app. right.
    apply list_elem_of_singleton. done.
  - intros Hreadable w.
    rewrite (follows_processItem behaviour
               (eventRequest (mkEventHook eventName fn o)) (EventItem e) w).
    f_equal. unfold spec_itemPlan, eventRequest, newDataHandlers.
    cbn [dh_events dh_evmLogs dh_contractsContractEmitted
         dh_gearMessageEnqueued dh_gearUserMessageSent
         eh_event eh_handler eh_options].
    rewrite !registered_singleton, !registered_empty. cbn [handlers].
    cbn [unreadable] in Hreadable.
    assert ((if bool_decide (event_name e = "EVM.Log") then
               match spec_logAddress e with
               | inl err => [GiveUp err]
               | inr address =>
                   default [] ((∅ : gmap string (list EvmLogEntry)) !! address)
                   ≫= spec_logStep e
               end
             else []) = []) as ->.
    { case_bool_decide as Hname; [|done].
      pose proof (evmContractAddress_logAddress e) as Haddr.
      destruct (spec_logAddress e) as [err|a].
      - exfalso. apply Hreadable. left. eauto.
      - by rewrite lookup_empty. }
    assert ((if bool_decide (event_name e = "Gear.UserMessageSent") then
               match args_message (event_args e) with
               | Some m =>
                   (λ h, Call (GearUserMessageSentCall h e))
                     <$> spec_registered
                           (∅ : gmap string (Handlers Handler))
                           (spec_key (message_source m))
               | None => [GiveUp TypeError]
               end
             else []) = []) as ->.
    { case_bool_decide as Hname; [|done].
      destruct (args_message (event_args e)) as [m|] eqn:Hm.
      - by rewrite registered_empty.
      - exfalso. apply Hreadable. by right. }
    repeat case_bool_decide; simpl; done.
  - pose proof (makesCalls_processItem behaviour
                  (eventRequest (mkEventHook eventName fn o)) (EventItem e))
      as Hcalls.
    replace (_ ++ _) with
      (spec_itemOrder (eventRequest (mkEventHook eventName fn o))
         (EventItem e)); [done|].
    unfold spec_itemOrder, getContractEmittedHandlers,
      getGearMessageEnqueuedHandlers, getGearUserMessageSentHandlers,
      eventRequest, newDataHandlers.
    cbn [dh_events dh_evmLogs dh_contractsContractEmitted
         dh_gearMessageEnqueued dh_gearUserMessageSent
         eh_event eh_handler eh_options].
    rewrite !handlersAt_singleton. cbn [handlers].
    assert (∀ key, handlersAt (∅ : gmap string (Handlers Handler)) key = [])
      as Hnone.
    { intros key. unfold handlersAt. by rewrite lookup_empty. }
    rewrite !Hnone.
    assert ((if bool_decide (event_name e = "EVM.Log") then
               match reportedAddress e
                     ≫= (λ a, (∅ : gmap string (list EvmLogEntry)) !! a) with
               | Some entries =>
                   entries ≫= (λ h,
                     if filterMatches (log_filter h) (reportedTopics e)
                     then [EvmLogCall (log_handler h) e] else [])
               | None => []
               end
             else []) = []) as ->.
    { case_bool_decide; [|done].
      destruct (reportedAddress e) as [a|]; simpl; [|done].
      by rewrite lookup_empty. }
    assert ((λ h, GearUserMessageSentCall h e)
              <$> match (if bool_decide (event_name e = "Gear.UserMessageSent")
                         then match args_message (event_args e) with
                              | Some m =>
                                  Ok (handlersAt
                                        (∅ : gmap string (Handlers Handler))
                                        (keyOf (message_source m)))
                              | None => Err TypeError
                              end
                         else Ok []) with
                  | Ok sent => sent
                  | Err _ => []
                  end = []) as ->.
    { case_bool_decide; [|done].
      destruct (args_message (event_args e)); [|done]. by rewrite Hnone. }
    repeat case_bool_decide; simpl; done.
Qed.

(** X16: a Gear handler is registered under the program id as given,
    letter case included, and the dispatch engine looks up the id an event
    carries as it is: a [Gear.MessageEnqueued] handler runs exactly for the
    events of that name whose [args.destination] is the registered id, a
    [Gear.UserMessageSent] handler exactly for the events of that name
    whose [args.message.source] is; a [Gear.UserMessageSent] event without
    [args.message] makes the lookup throw. *)
Theorem gear_program_id_verbatim (programId : string) (fn : Handler)
    (o : RangeOptions) (p : SubstrateProcessor) (e : SubstrateEvent) :
  running p = false →
  (∃ p',
     addGearMessageEnqueuedHandler programId (WithOptions o (Some fn)) p
     = (Ok tt, p') ∧
     gearMessageEnqueued (hooks p')
     = gearMessageEnqueued (hooks p) ++ [mkGearHook fn programId o] ∧
     (getRange (range o),
      gearMessageEnqueuedRequest (mkGearHook fn programId o))
       ∈ requestBatches (hooks p'))
  ∧ (∃ p',
       addGearUserMessageSentHandler programId (WithOptions o (Some fn)) p
       = (Ok tt, p') ∧
       gearUserMessageSent (hooks p')
       = gearUserMessageSent (hooks p) ++ [mkGearHook fn programId o] ∧
       (getRange (range o),
        gearUserMessageSentRequest (mkGearHook fn programId o))
         ∈ requestBatches (hooks p'))
  ∧ getGearMessageEnqueuedHandlers
      (gearMessageEnqueuedRequest (mkGearHook fn programId o)) e
    = (if bool_decide (event_name e = "Gear.MessageEnqueued")
          && bool_decide (keyOf (args_destination (event_args e))
                          = programId)
       then [fn] else [])
  ∧ getGearUserMessageSentHandlers
      (gearUserMessageSentRequest (mkGearHook fn programId o)) e
    = (if bool_decide (event_name e = "Gear.UserMessageSent") then
         match args_message (event_args e) with
         | None => Err TypeError
         | Some m =>
             Ok (if bool_decide (keyOf (message_source m) = programId)
                 then [fn] else [])
         end
       else Ok []).
Proof.
  intros Hidle. split; [|split; [|split]].
  - eexists. split; [|split].
    + unfold addGearMessageEnqueuedHandler, resolve, setHooks, modify, mbind,
        method_bind, mret, method_ret, assertNotRunning.
      rewrite Hidle. reflexivity.
    + done.
    + unfold requestBatches. cbn [hooks gearMessageEnqueued].
      rewrite !elem_of_app. do 6 right. left.
      rewrite fmap_app, elem_of_app. right.
      apply list_elem_of_singleton. done.
  - eexists. split; [|split].
    + unfold addGearUserMessageSentHandler, resolve, setHooks, modify, mbind,
        method_bind, mret, method_ret, assertNotRunning.
      rewrite Hidle. reflexivity.
    + done.
    + unfold requestBatches. cbn [hooks gearUserMessageSent].
      rewrite !elem_of_app. do 7 right.
      rewrite fmap_app, elem_of_app. right.
      apply list_elem_of_singleton. done.
  - unfold getGearMessageEnqueuedHandlers, gearMessageEnqueuedRequest.
    cbn [dh_gearMessageEnqueued gh_programId gh_handler].
    rewrite handlersAt_singleton. cbn [handlers].
    case_bool_decide as Hname; simpl; [|done].
    by rewrite (bool_decide_ext _ _ (symmetry_iff (=) _ _)).
  - unfold getGearUserMessageSentHandlers, gearUserMessageSentRequest.
    cbn [dh_gearUserMessageSent gh_programId gh_handler].
    case_bool_decide as Hname; simpl; [|done].
    destruct (args_message (event_args e)) as [m|]; [|done].
    rewrite handlersAt_singleton. cbn [handlers].
    by rewrite (bool_decide_ext _ _ (symmetry_iff (=) _ _)).
Qed.

(** ** The store from call to call *)

Lemma replay_app l1 l2 s s1 :
  replay behaviour l1 s = Ok s1 →
  replay behaviour (l1 ++ l2) s = replay behaviour l2 s1.
Proof.
  revert s. induction l1 as [|i l1 IH]; intros s; simpl.
  - by intros [= <-].
  - destruct (behaviour i s) as [s'|e]; [apply IH|done].
Qed.

Lemma threads_ret {A} (a : A) : threads behaviour (mret a : Run A).
Proof. intros w res w' [= <- <-]. exists []. by rewrite app_nil_r. Qed.

Lemma threads_raise {A} e : threads behaviour (raise e : Run A).
Proof.
  intros w res w' [= <- <-]. exists []. rewrite app_nil_r.
  split; [done|]. by left.
Qed.

Lemma threads_lift {A} (r : Result A) : threads behaviour (lift r : Run A).
Proof. destruct r; [apply threads_ret|apply threads_raise]. Qed.

Lemma threads_invoke i : threads behaviour (invoke behaviour i).
Proof.
  intros w res w'. unfold invoke.
  destruct (behaviour i (store w)) as [s|e] eqn:Hb; intros [= <- <-];
    exists [i]; (split; [done|]); simpl.
  - by rewrite Hb.
  - right. by exists [], i.
Qed.

Lemma threads_bind {A B} (m : Run A) (k : A → Run B) :
  threads behaviour m → (∀ a, threads behaviour (k a)) →
  threads behaviour (m ≫= k).
Proof.
  intros Hm Hk w res w'. unfold mbind, run_bind.
  destruct (m w) as [[a|e] w1] eqn:Hmw.
  - intros Hkw. destruct (Hm _ _ _ Hmw) as (l1 & Ht1 & Hr1).
    destruct (Hk a _ _ _ Hkw) as (l2 & Ht2 & Hr2).
    exists (l1 ++ l2). rewrite Ht2, Ht1, app_assoc. split; [done|].
    destruct res as [b|e].
    + by rewrite (replay_app _ _ _ _ Hr1).
    + destruct Hr2 as [Hr2|(l2' & i & -> & Hr2 & Hi)].
      * left. by rewrite (replay_app _ _ _ _ Hr1).
      * right. exists (l1 ++ l2'), i. rewrite app_assoc.
        split; [done|]. by rewrite (replay_app _ _ _ _ Hr1).
  - intros [= <- <-]. apply (Hm _ _ _ Hmw).
Qed.

Lemma threads_forEach {A} (l : list A) (body : A → Run unit) :
  (∀ x, threads behaviour (body x)) → threads behaviour (forEach l body).
Proof.
  intros Hbody. induction l as [|x l IH]; [apply threads_ret|].
  cbn [forEach]. by apply threads_bind.
Qed.

Lemma threads_forEach_invoke {A} (l : list A) (f : A → Invocation) :
  threads behaviour (forEach l (λ x, invoke behaviour (f x))).
Proof. apply threads_forEach. intros x. apply threads_invoke. Qed.

Lemma threads_processItem hs item :
  threads behaviour (processItem behaviour hs item).
Proof.
  destruct item as [e|c|]; cbn [processItem].
  - apply threads_bind; [apply threads_forEach_invoke|intros _].
    apply threads_bind; [|intros _].
    { unfold forEvmLogHandlers. case_bool_decide; [|apply threads_ret].
      apply threads_bind; [apply threads_lift|intros a].
      destruct (dh_evmLogs hs !! a); [|apply threads_ret].
      apply threads_forEach. intros h.
      apply threads_bind; [apply threads_lift|intros [|]];
        [apply threads_invoke|apply threads_ret]. }
    apply threads_bind; [apply threads_forEach_invoke|intros _].
    apply threads_bind; [apply threads_forEach_invoke|intros _].
    apply threads_bind; [apply threads_lift|intros sent].
    apply threads_forEach_invoke.
  - apply threads_forEach. intros h.
    destruct (triggers c h); [apply threads_invoke|apply threads_ret].
  - apply threads_raise.
Qed.

Lemma threads_processBlock hs block :
  threads behaviour (processBlock behaviour hs block).
Proof.
  unfold processBlock.
  apply threads_bind; [apply threads_forEach_invoke|intros _].
  apply threads_bind; [|intros _; apply threads_forEach_invoke].
  apply threads_forEach, threads_processItem.
Qed.

Lemma makesCalls_processBlock hs block :
  makesCalls (processBlock behaviour hs block) (spec_dispatchOrder hs block).
Proof.
  unfold processBlock, spec_dispatchOrder.
  apply makesCalls_bind; [apply makesCalls_forEach_invoke|intros _].
  apply makesCalls_bind; [|intros _; apply makesCalls_forEach_invoke].
  apply makesCalls_forEach, makesCalls_processItem.
Qed.

(** When [processBlock] returns, it has run the whole dispatch order and
    the store is what that order leaves. *)
Lemma processBlock_returns hs block w u w' :
  processBlock behaviour hs block w = (Ok u, w') →
  trace w' = trace w ++ spec_dispatchOrder hs block ∧
  replay behaviour (spec_dispatchOrder hs block) (store w) = Ok (store w').
Proof.
  intros Hrun.
  destruct (threads_processBlock hs block _ _ _ Hrun) as (l & Ht & Hr).
  destruct (makesCalls_processBlock hs block _ _ _ Hrun)
    as (l' & Ht' & _ & Hfull).
  assert (l' = l) as -> by (rewrite Ht in Ht'; by apply app_inv_head in Ht').
  by rewrite <- (Hfull u eq_refl).
Qed.


(** ** A whole batch *)

Lemma processBatch_cons hs block blocks r :
  processBatch behaviour hs (block :: blocks) r =
  if lastBlock r <? height (header block) then
    match processBlock behaviour hs block (mkWorld (committed r) (calls r)) with
    | (Ok _, w) =>
        processBatch behaviour hs blocks
          (mkRunner (height (header block)) (store w)
             (transactions r
              ++ [mkTransaction (height (header block))
                    (height (header block)) true])
             (trace w))
    | (Err e, w) =>
        (Err (WithContext e (height (header block)) (hash (header block))),
         mkRunner (lastBlock r) (committed r)
           (transactions r
            ++ [mkTransaction (height (header block))
                  (height (header block)) false])
           (trace w))
    end
  else (Err AssertionFailed, r).
Proof.
  simpl. destruct (lastBlock r <? height (header block)); [|done].
  unfold transact.
  by destruct (processBlock behaviour hs block _) as [[u|e] w].
Qed.

(** X18: when [processBatch] returns, the heights of the blocks rise
    strictly, starting above the watermark it began with; the watermark is
    the height of the last block (unchanged for no blocks); one
    transaction per block has been opened and committed, keyed by the
    block's height twice, in block order; the callbacks run are the
    dispatch orders of the blocks one after the other; and the committed
    store is what these callbacks, run in that order from the store
    committed before, leave. *)
Theorem processBatch_success (hs : DataHandlers) (blocks : list BlockData)
    (r r' : Runner Store) :
  processBatch behaviour hs blocks r = (Ok tt, r') →
  StronglySorted Z.lt (lastBlock r :: (height ∘ header <$> blocks)) ∧
  lastBlock r' = default (lastBlock r) (last (height ∘ header <$> blocks)) ∧
  transactions r'
  = transactions r
    ++ ((λ b, mkTransaction (height (header b)) (height (header b)) true)
          <$> blocks) ∧
  calls r' = calls r ++ (blocks ≫= spec_dispatchOrder hs) ∧
  replay behaviour (blocks ≫= spec_dispatchOrder hs) (committed r)
  = Ok (committed r').
Proof.
  revert r r'. induction blocks as [|block blocks IH]; intros r r'.
  - simpl. intros [= <-]. rewrite !app_nil_r.
    repeat split; try done. repeat constructor.
  - rewrite processBatch_cons.
    destruct (Z.ltb_spec (lastBlock r) (height (header block))) as [Hlt|];
      [|done].
    destruct (processBlock behaviour hs block _) as [[u|e] w] eqn:Hblock;
      [|done].
    intros Hrest. apply IH in Hrest as (Hs & Hl & Ht & Hc & Hr).
    apply processBlock_returns in Hblock as [Htr Hre].
    cbn [lastBlock committed transactions calls store trace] in *.
    split; [|split; [|split; [|split]]].
    + constructor; [done|]. constructor; [done|].
      apply StronglySorted_cons in Hs as [Hall _].
      eapply Forall_impl; [exact Hall|]. simpl. lia.
    + rewrite Hl. rewrite fmap_cons.
      destruct (height ∘ header <$> blocks) as [|h l] eqn:Hhs; [done|].
      rewrite last_cons_cons.
      destruct (last (h :: l)) eqn:Hlast; [done|].
      by apply last_None in Hlast.
    + by rewrite Ht, <- app_assoc.
    + rewrite Hc, Htr, bind_cons. by rewrite <- app_assoc.
    + rewrite bind_cons. by rewrite (replay_app _ _ _ _ Hre).
Qed.

(** X19: [processBatch] stops at the first block that fails.  Whatever
    the outcome, the blocks split into those processed and committed and
    the rest; the watermark never goes down, and it and the committed
    store are what the processed blocks left.  When [processBatch]
    returns, the rest is empty.  When it throws, the first block of the
    rest failed and the blocks after it were not touched: either the
    watermark was not below its height, the bare assertion error is
    thrown and nothing else changed; or its processing threw, the error
    is thrown with the block's height and hash attached, one uncommitted
    transaction was added, and the callbacks run for it are a beginning of
    its dispatch order. *)
Theorem processBatch_stops (hs : DataHandlers) (blocks : list BlockData)
    (r : Runner Store) (res : Result unit) (r' : Runner Store) :
  processBatch behaviour hs blocks r = (res, r') →
  ∃ done rest r1,
    blocks = done ++ rest ∧
    processBatch behaviour hs done r = (Ok tt, r1) ∧
    lastBlock r <= lastBlock r1 ∧
    lastBlock r' = lastBlock r1 ∧
    committed r' = committed r1 ∧
    match res with
    | Ok _ => rest = [] ∧ r' = r1
    | Err e =>
        ∃ block rest', rest = block :: rest' ∧
          ((e = AssertionFailed ∧ ¬ lastBlock r1 < height (header block)
            ∧ r' = r1)
           ∨ (lastBlock r1 < height (header block) ∧
              ∃ e0 made,
                e = WithContext e0 (height (header block))
                      (hash (header block)) ∧
                transactions r'
                = transactions r1
                  ++ [mkTransaction (height (header block))
                        (height (header block)) false] ∧
                calls r' = calls r1 ++ made ∧
                made `prefix_of` spec_dispatchOrder hs block))
    end.
Proof.
  revert r. induction blocks as [|block blocks IH]; intros r.
  - simpl. intros [= <- <-]. exists [], [], r. repeat split; try done; lia.
  - rewrite processBatch_cons.
    destruct (Z.ltb_spec (lastBlock r) (height (header block))) as [Hlt|Hge].
    2: { intros [= <- <-]. exists [], (block :: blocks), r.
         split; [done|]. split; [done|]. split; [lia|].
         split; [done|]. split; [done|].
         exists block, blocks. split; [done|]. left.
         split; [done|]. split; [lia|done]. }
    destruct (processBlock behaviour hs block _) as [[u|e] w] eqn:Hblock.
    + intros Hrest.
      apply IH in Hrest
        as (done & rest & r1 & -> & Hdone & Hle & Hl & Hc & Hres).
      exists (block :: done), rest, r1.
      split; [done|]. split.
      { rewrite processBatch_cons.
        destruct (Z.ltb_spec (lastBlock r) (height (header block))); [|lia].
        by rewrite Hblock. }
      cbn [lastBlock] in Hle.
      split; [lia|]. split; [done|]. split; [done|]. done.
    + intros [= <- <-]. exists [], (block :: blocks), r.
      split; [done|]. split; [done|]. split; [lia|].
      split; [done|]. split; [done|].
      exists block, blocks. split; [done|]. right. split; [done|].
      destruct (makesCalls_processBlock hs block _ _ _ Hblock)
        as (made & Htr & Hpre & _).
      exists e, made. done.
Qed.

(** ** Items the engine can and cannot take apart *)

Lemma bind_Ok {A B} (m : Run A) (k : A → Run B) w b w' :
  (m ≫= k) w = (Ok b, w') →
  ∃ a w1, m w = (Ok a, w1) ∧ k a w1 = (Ok b, w').
Proof.
  unfold mbind, run_bind. destruct (m w) as [[a|e] w1]; [eauto|done].
Qed.

Lemma forEach_Ok {A} (l : list A) (body : A → Run unit) x : ∀ w u w',
  forEach l body w = (Ok u, w') → x ∈ l →
  ∃ w1 w2, body x w1 = (Ok tt, w2).
Proof.
  induction l as [|y l IH]; intros w u w' Hrun Hx.
  { by apply elem_of_nil in Hx. }
  cbn [forEach] in Hrun.
  apply bind_Ok in Hrun as ([] & w1 & Hy & Hrest).
  apply elem_of_cons in Hx as [->|Hx]; [eauto|].
  by apply (IH _ _ _ Hrest).
Qed.

Lemma processItem_unreadable hs item w u w' :
  unreadable item → processItem behaviour hs item w ≠ (Ok u, w').
Proof.
  destruct item as [e|c|]; cbn [unreadable processItem]; [|done|done].
  intros Hbad Hrun.
  apply bind_Ok in Hrun as (u1 & w1 & _ & Hrun).
  destruct Hbad as [[Hname [err Haddr]]|[Hname Hmsg]].
  - apply bind_Ok in Hrun as (u2 & w2 & Hevm & _).
    unfold forEvmLogHandlers in Hevm.
    rewrite bool_decide_eq_true_2 in Hevm by done.
    apply bind_Ok in Hevm as (a & w3 & Hlift & _).
    by rewrite Haddr in Hlift.
  - apply bind_Ok in Hrun as (u2 & w2 & _ & Hrun).
    apply bind_Ok in Hrun as (u3 & w3 & _ & Hrun).
    apply bind_Ok in Hrun as (u4 & w4 & _ & Hrun).
    apply bind_Ok in Hrun as (sent & w5 & Hlift & _).
    unfold getGearUserMessageSentHandlers in Hlift.
    rewrite bool_decide_eq_true_2, Hmsg in Hlift by done. done.
Qed.

(** X20: a block with an item the engine cannot take apart is never
    processed to the end, whatever handlers are registered, even none: an
    item that is neither an event nor a call, an [EVM.Log] event whose
    contract address cannot be read, or a [Gear.UserMessageSent] event
    without [args.message] makes [processBlock] throw. *)
Theorem processBlock_unreadable (hs : DataHandlers) (block : BlockData)
    (item : Item) (w : World Store) (res : Result unit) (w' : World Store) :
  item ∈ items block → unreadable item →
  processBlock behaviour hs block w = (res, w') →
  ∃ e, res = Err e.
Proof.
  intros Hin Hbad Hrun. destruct res as [u|e]; [|eauto]. exfalso.
  unfold processBlock in Hrun.
  apply bind_Ok in Hrun as (u1 & w1 & _ & Hrun).
  apply bind_Ok in Hrun as (u2 & w2 & Hitems & _).
  destruct (forEach_Ok _ _ item _ _ _ Hitems Hin) as (w3 & w4 & Hitem).
  by apply (processItem_unreadable hs item w3 tt w4).
Qed.

Lemma completes_ret {A} (a : A) : completes (mret a : Run A).
Proof. intros w. by exists a, w. Qed.

Lemma completes_bind {A B} (m : Run A) (k : A → Run B) :
  completes m → (∀ a, completes (k a)) → completes (m ≫= k).
Proof.
  intros Hm Hk w. destruct (Hm w) as (a & w1 & Hmw).
  destruct (Hk a w1) as (b & w2 & Hkw).
  exists b, w2. unfold mbind, run_bind. by rewrite Hmw.
Qed.

Lemma completes_forEach {A} (l : list A) (body : A → Run unit) :
  (∀ x, completes (body x)) → completes (forEach l body).
Proof.
  intros Hbody. induction l as [|x l IH]; [apply completes_ret|].
  cbn [forEach]. by apply completes_bind.
Qed.

Section willing.
Hypothesis willing : ∀ i s, ∃ s', behaviour i s = Ok s'.

Lemma completes_invoke i : completes (invoke behaviour i).
Proof.
  intros w. unfold invoke. destruct (willing i (store w)) as [s' ->].
  eauto.
Qed.

Lemma completes_forEach_invoke {A} (l : list A) (f : A → Invocation) :
  completes (forEach l (λ x, invoke behaviour (f x))).
Proof. apply completes_forEach. intros x. apply completes_invoke. Qed.

Lemma completes_processItem hs item :
  readable item → completes (processItem behaviour hs item).
Proof.
  destruct item as [e|c|]; cbn [readable processItem]; [| |done].
  - intros [Hevm Hgear].
    apply completes_bind; [apply completes_forEach_invoke|intros _].
    apply completes_bind; [|intros _].
    { unfold forEvmLogHandlers. case_bool_decide as Hname;
        [|apply completes_ret].
      destruct (Hevm Hname) as [[a Ha] [topics Ht]]. rewrite Ha.
      apply completes_bind; [apply completes_ret|intros a'].
      destruct (dh_evmLogs hs !! a'); [|apply completes_ret].
      apply completes_forEach. intros h.
      assert (∃ b, evmHandlerMatches h e = Ok b) as [b ->].
      { unfold evmHandlerMatches. destruct (log_filter h) as [sets|]; [|eauto].
        rewrite (topicsMatch_topics _ _ topics) by done. eauto. }
      apply completes_bind; [apply completes_ret|intros [|]];
        [apply completes_invoke|apply completes_ret]. }
    apply completes_bind; [apply completes_forEach_invoke|intros _].
    apply completes_bind; [apply completes_forEach_invoke|intros _].
    assert (∃ sent, getGearUserMessageSentHandlers hs e = Ok sent)
      as [sent ->].
    { unfold getGearUserMessageSentHandlers.
      case_bool_decide as Hname; [|eauto].
      destruct (Hgear Hname) as [m ->]. eauto. }
    apply completes_bind; [apply completes_ret|intros sent'].
    apply completes_forEach_invoke.
  - intros _. apply completes_forEach. intros h.
    destruct (triggers c h); [apply completes_invoke|apply completes_ret].
Qed.

End willing.

(** X21: the engine does not fail by itself on items it can take apart.
    When no callback throws and every item of the block is a call, or an
    event that has a contract address and topics if it is an [EVM.Log] and
    a message if it is a [Gear.UserMessageSent], [processBlock] returns,
    whatever handlers are registered, and has run the whole dispatch
    order. *)
Theorem processBlock_completes (hs : DataHandlers) (block : BlockData)
    (w : World Store) :
  (∀ i s, ∃ s', behaviour i s = Ok s') →
  Forall readable (items block) →
  ∃ w', processBlock behaviour hs block w = (Ok tt, w') ∧
        trace w' = trace w ++ spec_dispatchOrder hs block.
Proof.
  intros Hwilling Hitems.
  assert (completes (processBlock behaviour hs block)) as Hc.
  { unfold processBlock.
    apply completes_bind;
      [by apply completes_forEach_invoke|intros _].
    apply completes_bind;
      [|intros _; by apply completes_forEach_invoke].
    clear w. induction Hitems as [|item l Hitem Hl IH];
      [apply completes_ret|].
    cbn [forEach]. apply completes_bind; [|done].
    by apply completes_processItem. }
  destruct (Hc w) as ([] & w' & Hrun). exists w'. split; [done|].
  by apply processBlock_returns in Hrun as [Htr _].
Qed.

End engine.

(** ** The theorems at the sample data *)

(** Block 10 is processed and committed: seven callbacks run. *)
Example block10_committed :
  processBatch countingBehaviour sampleHandlers [block10] runnerAt9
  = (Ok tt,
     mkRunner 10 7%nat [mkTransaction 10 10 true]
       [PreHook 1%nat (items block10);
        EventCall 2%nat transferEvent; EventCall 3%nat transferEvent;
        EventCall 2%nat evmLogEvent; EvmLogCall 7%nat evmLogEvent;
        CallCall 5%nat failedTransfer;
        PostHook 9%nat (items block10)]).
Proof. reflexivity. Qed.

(** The [pre] hook throws on block 11: the transaction of block 11 is
    not committed, the watermark stays at 10 and the store holds what
    block 10 committed. *)
Lemma processBatch_block_witness :
  processBatch countingBehaviour sampleHandlers
    ([block10] ++ block11 :: []) runnerAt9
  = (Err (WithContext (HandlerError "boom") 11 "0x0b"),
     mkRunner 10 7%nat
       ([mkTransaction 10 10 true] ++ [mkTransaction 11 11 false])
       ([PreHook 1%nat (items block10);
         EventCall 2%nat transferEvent; EventCall 3%nat transferEvent;
         EventCall 2%nat evmLogEvent; EvmLogCall 7%nat evmLogEvent;
         CallCall 5%nat failedTransfer;
         PostHook 9%nat (items block10)] ++ [PreHook 1%nat []])).
Proof.
  refine (proj1 (proj2 (processBatch_block countingBehaviour sampleHandlers
                          [block10] block11 [] runnerAt9 _ block10_committed))
            _ (HandlerError "boom")
            (mkWorld 7%nat
               ([PreHook 1%nat (items block10);
                 EventCall 2%nat transferEvent; EventCall 3%nat transferEvent;
                 EventCall 2%nat evmLogEvent; EvmLogCall 7%nat evmLogEvent;
                 CallCall 5%nat failedTransfer;
                 PostHook 9%nat (items block10)] ++ [PreHook 1%nat []])) _).
  - simpl. lia.
  - reflexivity.
Defined.


Lemma call_handlers_triggered_witness :
  processItem countingBehaviour sampleHandlers (CallItem failedTransfer)
    (mkWorld 0%nat [])
  = (Ok tt, mkWorld 1%nat [CallCall 5%nat failedTransfer]).
Proof.
  etrans.
  - apply (call_handlers_triggered countingBehaviour sampleHandlers
             failedTransfer).
  - reflexivity.
Defined.

Lemma evmHandlerMatches_log_shape_witness :
  evmContractAddress evmLogInner = Ok "0xabc"
  ∧ evmHandlerMatches
      (mkEvmLogEntry (Some [TopicAny; TopicOne "0xABC"]) 7%nat) evmLogInner
    = Err TypeError
  ∧ ∀ evmLogs rest (body : Handler → Run nat unit) w,
      evmLogs !! "0xabc"
      = Some (mkEvmLogEntry (Some [TopicAny; TopicOne "0xABC"]) 7%nat
              :: rest) →
      forEvmLogHandlers evmLogs evmLogInner body w = (Err TypeError, w).
Proof.
  apply (evmHandlerMatches_log_shape
           (mkEvmLogEntry (Some [TopicAny; TopicOne "0xABC"]) 7%nat)
           evmLogInner "0xabc" [TopicAny; TopicOne "0xABC"]);
    try reflexivity.
  exists (TopicOne "0xABC"). split; [|done].
  apply elem_of_cons. right. apply elem_of_cons. by left.
Defined.

(** A block with the log in the [args.log] shape fails with the type
    error after the wildcard event handler has run; with the log in the
    [args.topics] shape the handler of the log runs, as in block 10. *)
Example log_shape_block_fails :
  processBlock countingBehaviour sampleHandlers
    (mkBlock (mkHeader 10 "0x0a") [EventItem evmLogInner])
    (mkWorld 0%nat [])
  = (Err TypeError,
     mkWorld 2%nat
       [PreHook 1%nat [EventItem evmLogInner];
        EventCall 2%nat evmLogInner]).
Proof. reflexivity. Qed.

(** Of the three call handlers that match the failed call, only the one
    registered with the flag runs. *)
Example failed_call_flagged_only :
  trace (processItem countingBehaviour sampleHandlers
           (CallItem failedTransfer) (mkWorld 0%nat [])).2
  = [CallCall 5%nat failedTransfer].
Proof. reflexivity. Qed.

Lemma evmHandlerMatches_filter_witness :
  ∃ b,
    evmHandlerMatches
      (mkEvmLogEntry (Some [TopicAny; TopicOne "0xABC"]) 7%nat) evmLogEvent
    = Ok b ∧
    (b = true ↔
     spec_filterMatches (Some [TopicAny; TopicOne "0xABC"])
       ["0x1"; "0xABC"]).
Proof.
  apply (proj1 (evmHandlerMatches_filter countingBehaviour
                  (mkEvmLogEntry (Some [TopicAny; TopicOne "0xABC"]) 7%nat)
                  evmLogEvent ["0x1"; "0xABC"] eq_refl)).
Defined.

(** The filter [[undefined, "0xABC"]] accepts the topics
    [["0x1", "0xABC"]] and rejects [["0x1", "0xDEF"]]. *)
Example topic_filter_accepts :
  evmHandlerMatches
    (mkEvmLogEntry (Some [TopicAny; TopicOne "0xABC"]) 7%nat) evmLogEvent
  = Ok true.
Proof. reflexivity. Qed.

Example topic_filter_rejects :
  evmHandlerMatches
    (mkEvmLogEntry (Some [TopicAny; TopicOne "0xABC"]) 7%nat)
    (mkEvent "EVM.Log" "0000000010-000002"
       (mkEventArgs (Some "0xabc") None (Some ["0x1"; "0xDEF"])
          None None None))
  = Ok false.
Proof. reflexivity. Qed.

Lemma contract_address_lowercased_witness :
  ∃ p',
    addEvmLogHandler "0xABC" (JustHandler 7%nat) newProcessor = (Ok tt, p') ∧
    evmLog (hooks p')
    = evmLog (hooks newProcessor)
      ++ [mkEvmLogHook 7%nat (toLowerCase "0xABC")
            (mkEvmLogOptions None None None)].
Proof.
  apply (proj1 (contract_address_lowercased countingBehaviour "0xABC")
           (JustHandler 7%nat) newProcessor 7%nat
           (mkEvmLogOptions None None None)); reflexivity.
Defined.

Example lowercased_address : toLowerCase "0xABC" = "0xabc".
Proof. reflexivity. Qed.

(** A batch size that is not positive is refused and nothing changes. *)
Lemma configure_failure_atomic_witness :
  (configure noBundles noBundles (SetBatchSize 0) newProcessor).2
  = newProcessor.
Proof.
  apply (configure_failure_atomic noBundles noBundles (SetBatchSize 0)
           newProcessor AssertionFailed).
  reflexivity.
Defined.

Lemma batchSize_positive_witness :
  0 < batchSize
        (configure noBundles noBundles (SetBatchSize 5) newProcessor).2.
Proof.
  apply (batchSize_positive noBundles noBundles).
  apply reachable_configure, reachable_new.
Defined.

Lemma mixed_case_address_unmatched_witness :
  lowerCased (hooks evmProcessor)
  ∧ (∀ hook (e : SubstrateEvent) a (body : Handler → Run nat unit) w,
       hook ∈ evmLog (hooks evmProcessor) →
       evmContractAddress e = Ok a → toLowerCase a ≠ a →
       forEvmLogHandlers (dh_evmLogs (evmLogRequest hook)) e body w
       = (Ok tt, w))
  ∧ (∀ hook (e : SubstrateEvent) a,
       hook ∈ contractsContractEmitted (hooks evmProcessor) →
       args_contract (event_args e) = Some a → toLowerCase a ≠ a →
       getContractEmittedHandlers (contractEmittedRequest hook) e = []).
Proof.
  apply (mixed_case_address_unmatched noBundles noBundles evmProcessor).
  apply reachable_configure, reachable_new.
Defined.

(** An EVM log that reports the address as it was registered, in upper
    case, does not reach the handler. *)
Example upper_case_log_unmatched :
  trace (processItem countingBehaviour
           (evmLogRequest (mkEvmLogHook 7%nat (toLowerCase "0xABC")
                             (mkEvmLogOptions None None None)))
           (EventItem
              (mkEvent "EVM.Log" "0000000010-000002"
                 (mkEventArgs (Some "0xABC") None (Some []) None None None)))
           (mkWorld 0%nat [])).2
  = [].
Proof. reflexivity. Qed.

Lemma dataSource_last_wins_witness :
  src (configureAll noBundles noBundles
         [SetDataSource archiveOnly; SetBatchSize 0;
          SetDataSource archiveAndChain; AddPreHook (JustHandler 1%nat)]
         newProcessor).2
  = Some archiveAndChain
  ∧ getArchiveEndpoint
      (configureAll noBundles noBundles
         [SetDataSource archiveOnly; SetBatchSize 0;
          SetDataSource archiveAndChain; AddPreHook (JustHandler 1%nat)]
         newProcessor).2
    = Some "https://archive.b"
  ∧ getChainEndpoint
      (configureAll noBundles noBundles
         [SetDataSource archiveOnly; SetBatchSize 0;
          SetDataSource archiveAndChain; AddPreHook (JustHandler 1%nat)]
         newProcessor).2
    = Some "wss://chain.b".
Proof.
  apply (dataSource_last_wins noBundles noBundles
           [SetDataSource archiveOnly; SetBatchSize 0;
            SetDataSource archiveAndChain; AddPreHook (JustHandler 1%nat)]
           newProcessor).
  reflexivity.
Defined.

Lemma typesBundle_round_trip_witness :
  ∃ b,
    (∀ specName specVersion,
       getTypesBundle noBundles specName specVersion
         (setTypesBundle noBundles noBundles (inr 3%nat) newProcessor).2
       = Some b)
    ∧ b = 3%nat.
Proof.
  apply (typesBundle_round_trip noBundles noBundles (inr 3%nat) newProcessor).
  reflexivity.
Defined.

Lemma call_registration_dispatch_witness :
  ∃ p',
    addCallHandler "Balances.transfer"
      (WithOptions (mkCallOptions None None (Some true)) (Some 5%nat))
      newProcessor = (Ok tt, p') ∧
    call (hooks p')
    = call (hooks newProcessor)
      ++ [mkCallHook "Balances.transfer" 5%nat
            (mkCallOptions None None (Some true))] ∧
    (getRange (call_range (mkCallOptions None None (Some true))),
     callRequest (mkCallHook "Balances.transfer" 5%nat
                    (mkCallOptions None None (Some true))))
      ∈ requestBatches (hooks p') ∧
    ∀ w,
      processItem countingBehaviour
        (callRequest (mkCallHook "Balances.transfer" 5%nat
                        (mkCallOptions None None (Some true))))
        (CallItem failedTransfer) w
      = runPlan countingBehaviour
          (if call_success failedTransfer
              || bool_decide (call_triggerForFailedCalls
                                (mkCallOptions None None (Some true))
                              = Some true)
           then (if bool_decide ("Balances.transfer" = "*")
                 then [Call (CallCall 5%nat failedTransfer)] else [])
                ++ (if bool_decide
                         ("Balances.transfer" = call_name failedTransfer)
                    then [Call (CallCall 5%nat failedTransfer)] else [])
           else [])
          w.
Proof.
  apply (call_registration_dispatch countingBehaviour "Balances.transfer"
           5%nat (mkCallOptions None None (Some true)) newProcessor
           failedTransfer).
  reflexivity.
Defined.

Lemma event_registration_dispatch_witness :
  ∃ p',
    addEventHandler "*" (WithOptions noRangeOptions (Some 2%nat)) newProcessor
    = (Ok tt, p') ∧
    event (hooks p')
    = event (hooks newProcessor) ++ [mkEventHook "*" 2%nat noRangeOptions] ∧
    (getRange (range noRangeOptions),
     eventRequest (mkEventHook "*" 2%nat noRangeOptions))
      ∈ requestBatches (hooks p') ∧
    (¬ unreadable (EventItem transferEvent) →
     ∀ w,
       processItem countingBehaviour
         (eventRequest (mkEventHook "*" 2%nat noRangeOptions))
         (EventItem transferEvent) w
       = runPlan countingBehaviour
           ((if bool_decide ("*" = "*")
             then [Call (EventCall 2%nat transferEvent)] else [])
            ++ (if bool_decide ("*" = event_name transferEvent)
                then [Call (EventCall 2%nat transferEvent)] else []))
           w) ∧
    makesCalls
      (processItem countingBehaviour
         (eventRequest (mkEventHook "*" 2%nat noRangeOptions))
         (EventItem transferEvent))
      ((if bool_decide ("*" = "*") then [EventCall 2%nat transferEvent]
        else [])
       ++ (if bool_decide ("*" = event_name transferEvent)
           then [EventCall 2%nat transferEvent] else [])).
Proof.
  apply (event_registration_dispatch countingBehaviour "*" 2%nat
           noRangeOptions newProcessor transferEvent).
  reflexivity.
Defined.

Lemma gear_program_id_verbatim_witness :
  ∃ p',
    addGearMessageEnqueuedHandler "0xAbC"
      (WithOptions noRangeOptions (Some 4%nat)) newProcessor = (Ok tt, p') ∧
    gearMessageEnqueued (hooks p')
    = gearMessageEnqueued (hooks newProcessor)
      ++ [mkGearHook 4%nat "0xAbC" noRangeOptions] ∧
    (getRange (range noRangeOptions),
     gearMessageEnqueuedRequest (mkGearHook 4%nat "0xAbC" noRangeOptions))
      ∈ requestBatches (hooks p').
Proof.
  apply (proj1 (gear_program_id_verbatim "0xAbC" 4%nat noRangeOptions
                  newProcessor transferEvent eq_refl)).
Defined.


Lemma processBatch_success_witness :
  StronglySorted Z.lt
    (lastBlock runnerAt9 :: (height ∘ header <$> [block10])) ∧
  lastBlock (processBatch countingBehaviour sampleHandlers [block10]
               runnerAt9).2
  = default (lastBlock runnerAt9) (last (height ∘ header <$> [block10])) ∧
  transactions (processBatch countingBehaviour sampleHandlers [block10]
                  runnerAt9).2
  = transactions runnerAt9
    ++ ((λ b, mkTransaction (height (header b)) (height (header b)) true)
          <$> [block10]) ∧
  calls (processBatch countingBehaviour sampleHandlers [block10] runnerAt9).2
  = calls runnerAt9 ++ ([block10] ≫= spec_dispatchOrder sampleHandlers) ∧
  replay countingBehaviour ([block10] ≫= spec_dispatchOrder sampleHandlers)
    (committed runnerAt9)
  = Ok (committed (processBatch countingBehaviour sampleHandlers [block10]
                     runnerAt9).2).
Proof.
  apply (processBatch_success countingBehaviour sampleHandlers [block10]
           runnerAt9).
  reflexivity.
Defined.

Lemma processBatch_stops_witness :
  ∃ done rest r1,
    [block10; block11; block10] = done ++ rest ∧
    processBatch countingBehaviour sampleHandlers done runnerAt9
    = (Ok tt, r1) ∧
    lastBlock runnerAt9 <= lastBlock r1 ∧
    lastBlock (processBatch countingBehaviour sampleHandlers
                 [block10; block11; block10] runnerAt9).2
    = lastBlock r1 ∧
    committed (processBatch countingBehaviour sampleHandlers
                 [block10; block11; block10] runnerAt9).2
    = committed r1 ∧
    ∃ block rest', rest = block :: rest' ∧
      ((WithContext (HandlerError "boom") 11 "0x0b" = AssertionFailed
        ∧ ¬ lastBlock r1 < height (header block)
        ∧ (processBatch countingBehaviour sampleHandlers
             [block10; block11; block10] runnerAt9).2 = r1)
       ∨ (lastBlock r1 < height (header block) ∧
          ∃ e0 made,
            WithContext (HandlerError "boom") 11 "0x0b"
            = WithContext e0 (height (header block)) (hash (header block)) ∧
            transactions (processBatch countingBehaviour sampleHandlers
                            [block10; block11; block10] runnerAt9).2
            = transactions r1
              ++ [mkTransaction (height (header block))
                    (height (header block)) false] ∧
            calls (processBatch countingBehaviour sampleHandlers
                     [block10; block11; block10] runnerAt9).2
            = calls r1 ++ made ∧
            made `prefix_of` spec_dispatchOrder sampleHandlers block)).
Proof.
  apply (processBatch_stops countingBehaviour sampleHandlers
           [block10; block11; block10] runnerAt9
           (Err (WithContext (HandlerError "boom") 11 "0x0b"))).
  reflexivity.
Defined.

Lemma processBlock_unreadable_witness :
  ∃ e,
    (processBlock countingBehaviour sampleHandlers strayBlock
       (mkWorld 0%nat [])).1 = Err e.
Proof.
  apply (processBlock_unreadable countingBehaviour sampleHandlers strayBlock
           OtherItem (mkWorld 0%nat []) _
           (processBlock countingBehaviour sampleHandlers strayBlock
              (mkWorld 0%nat [])).2).
  - simpl. left.
  - done.
  - by destruct (processBlock _ _ _ _).
Defined.

(** The stray item is met after the [pre] hook has run. *)
Example strayBlock_fails :
  processBlock countingBehaviour sampleHandlers strayBlock (mkWorld 0%nat [])
  = (Err UnexpectedCase,
     mkWorld 1%nat [PreHook 1%nat (items strayBlock)]).
Proof. reflexivity. Qed.

Lemma block10_readable : Forall readable (items block10).
Proof.
  unfold block10. cbn [items].
  constructor; [split; simpl; intros [=]|].
  constructor; [|by repeat constructor].
  split; simpl; [|intros [=]].
  intros _. split; [by exists "0xabc"|by exists ["0x1"; "0xABC"]].
Qed.

Lemma processBlock_completes_witness :
  ∃ w',
    processBlock tallyBehaviour sampleHandlers block10 (mkWorld 0%nat [])
    = (Ok tt, w') ∧
    trace w' = trace (mkWorld 0%nat [])
               ++ spec_dispatchOrder sampleHandlers block10.
Proof.
  apply (processBlock_completes tallyBehaviour sampleHandlers block10
           (mkWorld 0%nat [])).
  - intros i s. by exists (S s).
  - apply block10_readable.
Defined.

End ProcessorTheory.
